(** * TriangularGridSlicer: a shallow embedding of getAroundATriangularGrid.py

    The script slices a triangular mesh into bands along a direction
    ([SlicerSoliton.slicer]), splits every band into connected sub-slices
    by a breadth-first search ([SliceSubSet.bfs]) and reduces each sub-slice
    to a chain of boundary vertices ([SliceSubSet.reducer]).

    Python floats are IEEE binary64 numbers and are modelled by Rocq's
    primitive floats; Python lists of objects are lists, updated by index;
    exceptions are an explicit outcome of every fallible function. *)

From Stdlib Require Import PrimFloat Floats ZArith.
From stdpp Require Import list strings pretty.

Open Scope Z_scope.
Open Scope nat_scope.

(** ** Python primitives *)

Module Py.

(** The exceptions the script can raise. *)
Inductive exn : Set := IndexError | KeyError | AttributeError | ValueError.

(** Outcome of running a piece of the script: it returns a value, raises,
    or (for the one [while] loop, run with a step budget) exhausts the
    budget. *)
Inductive res (A : Type) : Type :=
| Return (a : A)
| Raise (e : exn)
| OutOfFuel.
Arguments Return {A} a.
Arguments Raise {A} e.
Arguments OutOfFuel {A}.

Definition bind {A B : Type} (m : res A) (k : A -> res B) : res B :=
  match m with
  | Return a => k a
  | Raise e => Raise e
  | OutOfFuel => OutOfFuel
  end.

(** [l[i]] for a non-negative index. *)
Definition getitem {A : Type} (l : list A) (i : nat) : res A :=
  match l !! i with
  | Some x => Return x
  | None => Raise IndexError
  end.

(** [l[i]] for any integer index: negative indices count from the end. *)
Definition getitemZ {A : Type} (l : list A) (i : Z) : res A :=
  let n := Z.of_nat (length l) in
  if (0 <=? i)%Z then getitem l (Z.to_nat i)
  else if (- n <=? i)%Z then getitem l (Z.to_nat (n + i))
  else Raise IndexError.

(** [str(n)] for a non-negative integer: its decimal digits. *)
Definition str (n : nat) : string := pretty n.

(** [not s] / [if s] on a string: the empty string is falsy. *)
Definition truthy (s : string) : bool := negb (bool_decide (s = EmptyString)).

(** A [for] loop without [break] whose body may raise. *)
Fixpoint for_ {S X : Type} (body : X -> S -> res S) (xs : list X) (s : S) : res S :=
  match xs with
  | [] => Return s
  | x :: rest => bind (body x s) (for_ body rest)
  end.

(** [sorted(xs, key=...)]: a stable sort that compares keys with [<] only.
    On keys without NaN every stable sort returns the same list; this one
    inserts each element after the elements that are not greater. With a
    NaN among the keys [<] is no order, the list Python returns depends on
    the comparisons its sort happens to make, and this definition does not
    follow it: what is proved of the order of the result assumes keys
    without NaN. *)
Fixpoint insert_by {X : Type} (key : X -> float) (x : X) (l : list X) : list X :=
  match l with
  | [] => [x]
  | y :: rest =>
      if PrimFloat.ltb (key x) (key y) then x :: y :: rest
      else y :: insert_by key x rest
  end.

Definition sorted {X : Type} (key : X -> float) (xs : list X) : list X :=
  fold_left (fun acc x => insert_by key x acc) xs [].

(** [max(xs, key=...)] and [min(xs, key=...)] on a non-empty sequence given
    as its head and tail, the keys already evaluated: the running best is
    replaced only by a strictly better element, so the first extremal
    element wins. *)
Fixpoint max_by {X : Type} (best : X * float) (l : list (X * float)) : X :=
  match l with
  | [] => fst best
  | x :: rest => max_by (if PrimFloat.ltb (snd best) (snd x) then x else best) rest
  end.

Fixpoint min_by {X : Type} (best : X * float) (l : list (X * float)) : X :=
  match l with
  | [] => fst best
  | x :: rest => min_by (if PrimFloat.ltb (snd x) (snd best) then x else best) rest
  end.

End Py.
Export Py.

Notation "'let*' x := m 'in' k" := (Py.bind m (fun x => k))
  (at level 10, x name, m at level 100, k at level 200, only parsing).
Notation "'let*' ' pat := m 'in' k" := (Py.bind m (fun x => match x with pat => k end))
  (at level 10, pat pattern, m at level 100, k at level 200, only parsing).

(** ** Vectors of three floats (numpy arrays of shape (3,)) *)

Definition vec3 : Type := float * float * float.

(** [a @ b] on two such arrays. *)
Definition dot (a b : vec3) : float :=
  let '(ax, ay, az) := a in
  let '(bx, by_, bz) := b in
  (ax * bx + ay * by_ + az * bz)%float.

(** [a - b], componentwise. *)
Definition vsub (a b : vec3) : vec3 :=
  let '(ax, ay, az) := a in
  let '(bx, by_, bz) := b in
  ((ax - bx)%float, (ay - by_)%float, (az - bz)%float).

(** ** What the script reads from Blender: vertices and edges *)

Record BpyVertex : Type := mkBpyVertex { co : vec3; select : bool }.
Record BpyEdge : Type := mkBpyEdge { vertices : nat * nat }.

Definition set_select (b : bool) (v : BpyVertex) : BpyVertex :=
  {| co := co v; select := b |}.

(** ** class Node *)

Module Node.

Record t : Type := mk {
  coordinates : vec3;
  neighboursIndices : list nat;
  visited : bool;
  sliceName : string;
  sliceSubSetName : string;
  rotatedZ : float
}.

(** [Node(bpyVertex, npNormal)] *)
Definition init (bpyVertex : BpyVertex) (npNormal : vec3) : t :=
  {| coordinates := co bpyVertex;
     neighboursIndices := [];
     visited := false;
     sliceName := "";
     sliceSubSetName := "";
     rotatedZ := dot (co bpyVertex) npNormal |}.

Definition addNeighbourIndex (index : nat) (self : t) : t :=
  {| coordinates := coordinates self;
     neighboursIndices := neighboursIndices self ++ [index];
     visited := visited self;
     sliceName := sliceName self;
     sliceSubSetName := sliceSubSetName self;
     rotatedZ := rotatedZ self |}.

Definition markAsVisited (self : t) : t :=
  {| coordinates := coordinates self;
     neighboursIndices := neighboursIndices self;
     visited := true;
     sliceName := sliceName self;
     sliceSubSetName := sliceSubSetName self;
     rotatedZ := rotatedZ self |}.

Definition setSliceName (name : string) (self : t) : t :=
  {| coordinates := coordinates self;
     neighboursIndices := neighboursIndices self;
     visited := visited self;
     sliceName := name;
     sliceSubSetName := sliceSubSetName self;
     rotatedZ := rotatedZ self |}.

Definition setSliceSubSetName (name : string) (self : t) : t :=
  {| coordinates := coordinates self;
     neighboursIndices := neighboursIndices self;
     visited := visited self;
     sliceName := sliceName self;
     sliceSubSetName := name;
     rotatedZ := rotatedZ self |}.

End Node.


(** The list of all nodes, [nodesArr]: the [Node] objects live in it and are
    mutated in place, so a mutation of [nodesArr[i]] is an update at [i]. *)
Abbreviation nodes := (list Node.t).

(** ** class SliceSubSet *)

Module SliceSubSet.

Record t : Type := mk {
  sliceName : string;
  sliceSubSetIndex : nat;
  sliceSubSetNodes : list nat;
  initialNodeIndex : nat;
  reducedSlice : list nat;
  ownName : string
}.

(** [nodeSubSetName]: the slice name followed by the sub-slice index. *)
Definition subSetName (name : string) (index : nat) : string :=
  name +:+ str index.

Definition nodeSubSetName (self : t) : string :=
  subSetName (sliceName self) (sliceSubSetIndex self).

(** [SliceSubSet(initialNode, initialNodeIndex, sliceSubSetIndex)] *)
Definition init (initialNode : Node.t) (initialNodeIndex sliceSubSetIndex : nat) : t :=
  {| sliceName := Node.sliceName initialNode;
     sliceSubSetIndex := sliceSubSetIndex;
     sliceSubSetNodes := [];
     initialNodeIndex := initialNodeIndex;
     reducedSlice := [];
     ownName := subSetName (Node.sliceName initialNode) sliceSubSetIndex |}.

Definition addToReducedSlice (nodeIndex : nat) (self : t) : t :=
  {| sliceName := sliceName self;
     sliceSubSetIndex := sliceSubSetIndex self;
     sliceSubSetNodes := sliceSubSetNodes self;
     initialNodeIndex := initialNodeIndex self;
     reducedSlice := reducedSlice self ++ [nodeIndex];
     ownName := ownName self |}.

Definition addNode (neighbourIndex : nat) (self : t) : t :=
  {| sliceName := sliceName self;
     sliceSubSetIndex := sliceSubSetIndex self;
     sliceSubSetNodes := sliceSubSetNodes self ++ [neighbourIndex];
     initialNodeIndex := initialNodeIndex self;
     reducedSlice := reducedSlice self;
     ownName := ownName self |}.

(** *** bfs *)

(** The state of the search: the sub-slice, the queue and the nodes. *)
Definition bfs_state : Type := t * list nat * nodes.

(** Body of the [for neighbourIndex in ...] loop of [bfs]. *)
Definition bfs_visit (neighbourIndex : nat) (st : bfs_state) : res bfs_state :=
  let '(self, bfsQueue, nodesArr) := st in
  let* nodeToChek := getitem nodesArr neighbourIndex in
  if negb (truthy (Node.sliceSubSetName nodeToChek))
     && bool_decide (Node.sliceName nodeToChek = sliceName self)
  then Return (addNode neighbourIndex self,
               bfsQueue ++ [neighbourIndex],
               <[neighbourIndex := Node.setSliceSubSetName (ownName self) nodeToChek]> nodesArr)
  else Return st.

(** The [while len(bfsQueue)] loop, run for at most [fuel] iterations. *)
Fixpoint bfs_while (fuel : nat) (st : bfs_state) : res bfs_state :=
  let '(self, bfsQueue, nodesArr) := st in
  match bfsQueue with
  | [] => Return st
  | index :: bfsQueue' =>
      match fuel with
      | O => OutOfFuel
      | S fuel' =>
          let* currentNode := getitem nodesArr index in
          let* st' := for_ bfs_visit (Node.neighboursIndices currentNode)
                      (self, bfsQueue', nodesArr) in
          bfs_while fuel' st'
      end
  end.

(** [bfs(initialNodeIndex, nodesArr)]. Every iteration of the [while] loop
    pops a vertex that was pushed once, when it got its sub-slice name, so
    one iteration per node and one for the initial vertex suffice (see
    [bfs_terminates]). *)
Definition bfs (self : t) (initialNodeIndex : nat) (nodesArr : nodes) : res (t * nodes) :=
  let bfsQueue := [initialNodeIndex] in
  let self := addNode initialNodeIndex self in
  let* currentNode := getitem nodesArr initialNodeIndex in
  let nodesArr :=
    <[initialNodeIndex := Node.setSliceSubSetName (nodeSubSetName self) currentNode]> nodesArr in
  let* '(self, _, nodesArr) := bfs_while (S (length nodesArr)) (self, bfsQueue, nodesArr) in
  Return (self, nodesArr).

(** *** reducer *)

Inductive strategy : Set := Max | Min.

(** The first [for] loop of [reducer]: [min] as soon as a neighbour lies
    strictly lower in another slice, [max] otherwise. *)
Fixpoint choose_strategy (currentNode : Node.t) (nodesArr : nodes)
    (neighbours : list nat) : res strategy :=
  match neighbours with
  | [] => Return Max
  | neighbourIndex :: rest =>
      let* neighbour := getitem nodesArr neighbourIndex in
      if PrimFloat.ltb (Node.rotatedZ neighbour) (Node.rotatedZ currentNode)
         && negb (bool_decide (Node.sliceName neighbour = Node.sliceName currentNode))
      then Return Min
      else choose_strategy currentNode nodesArr rest
  end.

(** [list(filter(lambda index: nodesArr[index].getSliceSubSetName() != own, ...))] *)
Fixpoint candidates (own : string) (nodesArr : nodes) (neighbours : list nat)
    : res (list nat) :=
  match neighbours with
  | [] => Return []
  | index :: rest =>
      let* node := getitem nodesArr index in
      let* cs := candidates own nodesArr rest in
      Return (if negb (bool_decide (Node.sliceSubSetName node = own))
              then index :: cs else cs)
  end.

(** The keys [nodesArr[index].getRotatedZ()] of a list of indices. *)
Fixpoint keyed (nodesArr : nodes) (indices : list nat) : res (list (nat * float)) :=
  match indices with
  | [] => Return []
  | index :: rest =>
      let* node := getitem nodesArr index in
      let* ks := keyed nodesArr rest in
      Return ((index, Node.rotatedZ node) :: ks)
  end.

(** [strategy(candidatIndices, key=...)] on keyed indices; [max] and [min]
    of an empty sequence raise [ValueError]. *)
Definition apply_strategy (s : strategy) (l : list (nat * float)) : res nat :=
  match l with
  | [] => Raise ValueError
  | best :: rest =>
      Return (match s with Max => max_by best rest | Min => min_by best rest end)
  end.

(** Body of the [for nodeIndex in self.getAllNodesIndecies()] loop. *)
Definition reduce_node (s : strategy) (nodeIndex : nat) (st : t * nodes) : res (t * nodes) :=
  let '(self, nodesArr) := st in
  let* currentNode := getitem nodesArr nodeIndex in
  if negb (Node.visited currentNode) then
    let nodesArr := <[nodeIndex := Node.markAsVisited currentNode]> nodesArr in
    let* candidatIndices := candidates (ownName self) nodesArr (Node.neighboursIndices currentNode) in
    if negb (bool_decide (length candidatIndices = 0)) then
      let* ks := keyed nodesArr (candidatIndices ++ [nodeIndex]) in
      let* resultIndex := apply_strategy s ks in
      if negb (bool_decide (resultIndex = nodeIndex))
      then Return (addToReducedSlice nodeIndex self, nodesArr)
      else Return (self, nodesArr)
    else Return (self, nodesArr)
  else Return (self, nodesArr).

(** [reducer(nodesArr)] *)
Definition reducer (self : t) (nodesArr : nodes) : res (t * nodes) :=
  let* currentNode := getitem nodesArr (initialNodeIndex self) in
  let self := addToReducedSlice (initialNodeIndex self) self in
  let* s := choose_strategy currentNode nodesArr (Node.neighboursIndices currentNode) in
  for_ (reduce_node s) (sliceSubSetNodes self) (self, nodesArr).

End SliceSubSet.

(** ** class SlicerSoliton *)

Module SlicerSoliton.

(** The dictionary of sub-slices: slice name to the list of its sub-slices.
    A Python [dict] keeps its keys in insertion order, which
    [slicesHighlighter] relies on, so it is an association list. *)
Abbreviation subSlices := (list (string * list SliceSubSet.t)).

Record t : Type := mk {
  sliceDirection : vec3;
  initialBpyNodes : list BpyVertex;
  initialBpyEdges : list BpyEdge;
  nodesArr : nodes;
  sortedNodesIndices : list nat;
  cubeEdgeLength : float;
  maxRotatedZ : float;
  (** [None] until [setSliceNameBase] is called: reading the attribute
      before that raises [AttributeError]. *)
  sliceNameBase : option string;
  subSlicesDict : subSlices
}.

(** *** The dictionary *)

Fixpoint dict_lookup (d : subSlices) (key : string) : option (list SliceSubSet.t) :=
  match d with
  | [] => None
  | (k, v) :: rest => if bool_decide (k = key) then Some v else dict_lookup rest key
  end.

(** [d[key]] *)
Definition dict_get (d : subSlices) (key : string) : res (list SliceSubSet.t) :=
  match dict_lookup d key with
  | Some v => Return v
  | None => Raise KeyError
  end.

(** [d[key] = v] for a key that is present. *)
Fixpoint dict_replace (d : subSlices) (key : string) (v : list SliceSubSet.t) : subSlices :=
  match d with
  | [] => []
  | (k, v0) :: rest =>
      if bool_decide (k = key) then (k, v) :: rest
      else (k, v0) :: dict_replace rest key v
  end.

Definition initiateNewSubSlicesList (node : Node.t) (d : subSlices) : subSlices :=
  match dict_lookup d (Node.sliceName node) with
  | Some _ => d
  | None => d ++ [(Node.sliceName node, [])]
  end.

Definition appendNewSubSlice (subSlice : SliceSubSet.t) (d : subSlices) : res subSlices :=
  let* l := dict_get d (SliceSubSet.sliceName subSlice) in
  Return (dict_replace d (SliceSubSet.sliceName subSlice) (l ++ [subSlice])).

(** *** Construction *)

(** Body of the loop of [buildGraph]. *)
Definition addEdge (edge : BpyEdge) (arr : nodes) : res nodes :=
  let '(v0, v1) := vertices edge in
  let* n0 := getitem arr v0 in
  let arr := <[v0 := Node.addNeighbourIndex v1 n0]> arr in
  let* n1 := getitem arr v1 in
  Return (<[v1 := Node.addNeighbourIndex v0 n1]> arr).

Definition buildGraph (edges : list BpyEdge) (arr : nodes) : res nodes :=
  for_ addEdge edges arr.

Definition cubeEdgeLengthEval (arr : nodes) : res float :=
  let* firstNode := getitem arr 0 in
  let* neighbourIndex := getitem (Node.neighboursIndices firstNode) 0 in
  let* neighbourNode := getitem arr neighbourIndex in
  let vectorDifference :=
    vsub (Node.coordinates firstNode) (Node.coordinates neighbourNode) in
  Return (PrimFloat.sqrt (dot vectorDifference vectorDifference)).

(** [cubeEdgeLength * (3 ** 0.5)]; the power is the binary64 square root of
    three, 1.7320508075688772. *)
Definition logestDiagonalLength (cubeEdgeLength : float) : float :=
  (cubeEdgeLength * PrimFloat.sqrt 3)%float.

(** The sort key of [__init__]: the projection of the node at an index of
    [range(len(bpyVerticesArr))], which is always in range. *)
Definition rotatedZ_at (arr : nodes) (index : nat) : float :=
  match arr !! index with
  | Some node => Node.rotatedZ node
  | None => 0%float
  end.

(** [SlicerSoliton(bpyVerticesArr, bpyEdgesArr, npNormal)] *)
Definition init (bpyVerticesArr : list BpyVertex) (bpyEdgesArr : list BpyEdge)
    (npNormal : vec3) : res t :=
  let arr0 := map (fun vertex => Node.init vertex npNormal) bpyVerticesArr in
  let sortedIndices := sorted (rotatedZ_at arr0) (seq 0 (length bpyVerticesArr)) in
  let* arr := buildGraph bpyEdgesArr arr0 in
  let* edgeLength := cubeEdgeLengthEval arr in
  Return {| sliceDirection := npNormal;
            initialBpyNodes := bpyVerticesArr;
            initialBpyEdges := bpyEdgesArr;
            nodesArr := arr;
            sortedNodesIndices := sortedIndices;
            cubeEdgeLength := edgeLength;
            maxRotatedZ := logestDiagonalLength edgeLength;
            sliceNameBase := None;
            subSlicesDict := [] |}.

Definition setSliceNameBase (stringValue : string) (self : t) : t :=
  {| sliceDirection := sliceDirection self;
     initialBpyNodes := initialBpyNodes self;
     initialBpyEdges := initialBpyEdges self;
     nodesArr := nodesArr self;
     sortedNodesIndices := sortedNodesIndices self;
     cubeEdgeLength := cubeEdgeLength self;
     maxRotatedZ := maxRotatedZ self;
     sliceNameBase := Some stringValue;
     subSlicesDict := subSlicesDict self |}.

Definition getSliceNameBase (self : t) : res string :=
  match sliceNameBase self with
  | Some s => Return s
  | None => Raise AttributeError
  end.

Definition with_nodes (arr : nodes) (d : subSlices) (self : t) : t :=
  {| sliceDirection := sliceDirection self;
     initialBpyNodes := initialBpyNodes self;
     initialBpyEdges := initialBpyEdges self;
     nodesArr := arr;
     sortedNodesIndices := sortedNodesIndices self;
     cubeEdgeLength := cubeEdgeLength self;
     maxRotatedZ := maxRotatedZ self;
     sliceNameBase := sliceNameBase self;
     subSlicesDict := d |}.

Definition with_bpyNodes (vs : list BpyVertex) (self : t) : t :=
  {| sliceDirection := sliceDirection self;
     initialBpyNodes := vs;
     initialBpyEdges := initialBpyEdges self;
     nodesArr := nodesArr self;
     sortedNodesIndices := sortedNodesIndices self;
     cubeEdgeLength := cubeEdgeLength self;
     maxRotatedZ := maxRotatedZ self;
     sliceNameBase := sliceNameBase self;
     subSlicesDict := subSlicesDict self |}.

(** *** slicer *)

(** The name of the slice with a given index. *)
Definition sliceNameOf (sliceBaseID : string) (sliceIndex : nat) : string :=
  sliceBaseID +:+ str sliceIndex.

(** The loop state of [slicer]: [baseNode] (a reference to a node of
    [nodesArr], kept as its index), [sliceIndex], [currentSliceName] and the
    nodes. *)
Definition slicer_state : Type := nat * nat * string * nodes.

(** Within the threshold of the base node? *)
Definition within (actualDivergency : float) (baseNode currentNode : Node.t) : bool :=
  PrimFloat.leb
    (PrimFloat.abs (Node.rotatedZ baseNode - Node.rotatedZ currentNode)%float)
    actualDivergency.

(** Body of the [for index in sortedIndices] loop. *)
Definition slicer_step (sliceBaseID : string) (actualDivergency : float)
    (index : nat) (st : slicer_state) : res slicer_state :=
  let '(base, sliceIndex, currentSliceName, arr) := st in
  let* baseNode := getitem arr base in
  let* currentNode := getitem arr index in
  if within actualDivergency baseNode currentNode then
    Return (base, sliceIndex, currentSliceName,
            <[index := Node.setSliceName currentSliceName currentNode]> arr)
  else
    let sliceIndex := sliceIndex + 1 in
    let currentSliceName := sliceNameOf sliceBaseID sliceIndex in
    Return (index, sliceIndex, currentSliceName,
            <[index := Node.setSliceName currentSliceName currentNode]> arr).

Definition slicer (self : t) : res t :=
  let arr := nodesArr self in
  let sortedIndices := sortedNodesIndices self in
  let* base := getitem sortedIndices 0 in
  let* _ := getitem arr base in
  let actualDivergency := maxRotatedZ self in
  let* sliceBaseID := getSliceNameBase self in
  let* '(_, _, _, arr) :=
    for_ (slicer_step sliceBaseID actualDivergency) sortedIndices
         (base, 0, sliceNameOf sliceBaseID 0, arr) in
  Return (with_nodes arr (subSlicesDict self) self).

(** The calls of [setSliceName] that [slicer] makes, in order. Every
    iteration of its loop makes one, on the node it visits, with the slice
    name that is current when the iteration ends; the base node at that
    moment is the anchor of the band the node was put in. The logged loop
    runs the loop body unchanged and records these three values. *)
Record labelling : Type := mkLabelling {
  lab_vertex : nat;
  lab_name : string;
  lab_anchor : nat
}.

Definition slicer_step_logged (sliceBaseID : string) (actualDivergency : float)
    (index : nat) (st : slicer_state * list labelling)
    : res (slicer_state * list labelling) :=
  let* st' := slicer_step sliceBaseID actualDivergency index st.1 in
  let '(base, _, currentSliceName, _) := st' in
  Return (st', st.2 ++ [mkLabelling index currentSliceName base]).

Definition slicer_log (self : t) : res (list labelling) :=
  let arr := nodesArr self in
  let sortedIndices := sortedNodesIndices self in
  let* base := getitem sortedIndices 0 in
  let* _ := getitem arr base in
  let actualDivergency := maxRotatedZ self in
  let* sliceBaseID := getSliceNameBase self in
  let* '(_, log) :=
    for_ (slicer_step_logged sliceBaseID actualDivergency) sortedIndices
         ((base, 0, sliceNameOf sliceBaseID 0, arr), []) in
  Return log.

(** *** sliceRunner *)

(** The inner [for neighbourIndex in ...] loop up to its [break]: does the
    node have a neighbour in another slice? *)
Fixpoint borders_other_slice (currentNode : Node.t) (nodesList : nodes)
    (neighbours : list nat) : res bool :=
  match neighbours with
  | [] => Return false
  | neighbourIndex :: rest =>
      let* neighbourNode := getitem nodesList neighbourIndex in
      if negb (bool_decide (Node.sliceName neighbourNode = Node.sliceName currentNode))
      then Return true
      else borders_other_slice currentNode nodesList rest
  end.

(** The statements before the [break]: create, fill, reduce and store a
    new sub-slice seeded at [nodeIndex]. *)
Definition newSubSlice (currentNode : Node.t) (nodeIndex : nat)
    (st : nodes * subSlices) : res (nodes * subSlices) :=
  let '(nodesList, slicesDict) := st in
  let* l := dict_get slicesDict (Node.sliceName currentNode) in
  let sub := SliceSubSet.init currentNode nodeIndex (length l) in
  let* '(sub, nodesList) := SliceSubSet.bfs sub nodeIndex nodesList in
  let* '(sub, nodesList) := SliceSubSet.reducer sub nodesList in
  let* slicesDict := appendNewSubSlice sub slicesDict in
  Return (nodesList, slicesDict).

(** Body of the [for nodeIndex in sortedNodesIndices] loop. *)
Definition sliceRunner_step (nodeIndex : nat) (st : nodes * subSlices)
    : res (nodes * subSlices) :=
  let '(nodesList, slicesDict) := st in
  let* currentNode := getitem nodesList nodeIndex in
  let slicesDict := initiateNewSubSlicesList currentNode slicesDict in
  if negb (truthy (Node.sliceSubSetName currentNode)) then
    let* b := borders_other_slice currentNode nodesList
                (Node.neighboursIndices currentNode) in
    if b then newSubSlice currentNode nodeIndex (nodesList, slicesDict)
    else Return (nodesList, slicesDict)
  else Return (nodesList, slicesDict).

Definition sliceRunner (self : t) : res t :=
  let* '(arr, d) :=
    for_ sliceRunner_step (sortedNodesIndices self)
         (nodesArr self, subSlicesDict self) in
  Return (with_nodes arr d self).

(** *** slicesHighlighter *)

(** The highlighter mutates the Blender vertices, and what it has already
    selected stays selected when it raises: its outcome comes with the
    vertices as they are when it stops. *)
Definition highlight : Type := res unit * list BpyVertex.

(** [for subIndex in chain: initialBpyNodes[subIndex].select = True] *)
Fixpoint select_chain (chain : list nat) (bpyNodes : list BpyVertex) : highlight :=
  match chain with
  | [] => (Return tt, bpyNodes)
  | subIndex :: rest =>
      match bpyNodes !! subIndex with
      | Some v => select_chain rest (<[subIndex := set_select true v]> bpyNodes)
      | None => (Raise IndexError, bpyNodes)
      end
  end.

(** [for subSlice in subSlicesArr: ...] *)
Fixpoint highlight_all (subSlicesArr : list SliceSubSet.t) (bpyNodes : list BpyVertex)
    : highlight :=
  match subSlicesArr with
  | [] => (Return tt, bpyNodes)
  | subSlice :: rest =>
      match select_chain (SliceSubSet.reducedSlice subSlice) bpyNodes with
      | (Return _, bpyNodes) => highlight_all rest bpyNodes
      | stop => stop
      end
  end.

(** [for index in subSlicesIndices: ...]. [subSlicesArr] is a list, so a
    missing index raises [IndexError], which the [except KeyError] clause
    does not catch. *)
Fixpoint highlight_some (subSlicesArr : list SliceSubSet.t) (indices : list Z)
    (bpyNodes : list BpyVertex) : highlight :=
  match indices with
  | [] => (Return tt, bpyNodes)
  | index :: rest =>
      match getitemZ subSlicesArr index with
      | Return subSliceList =>
          match select_chain (SliceSubSet.reducedSlice subSliceList) bpyNodes with
          | (Return _, bpyNodes) => highlight_some subSlicesArr rest bpyNodes
          | stop => stop
          end
      | Raise KeyError => highlight_some subSlicesArr rest bpyNodes
      | Raise e => (Raise e, bpyNodes)
      | OutOfFuel => (OutOfFuel, bpyNodes)
      end
  end.

Definition slicesHighlighter (self : t) (sliceIndex : Z) (subSlicesIndices : list Z)
    : res unit * t :=
  let slicesDict := subSlicesDict self in
  match getitemZ (map fst slicesDict) sliceIndex with
  | Return certainKeyToHighlight =>
      match dict_get slicesDict certainKeyToHighlight with
      | Return subSlicesArr =>
          let '(r, bpyNodes) :=
            match subSlicesIndices with
            | _ :: _ => highlight_some subSlicesArr subSlicesIndices (initialBpyNodes self)
            | [] => highlight_all subSlicesArr (initialBpyNodes self)
            end in
          (r, with_bpyNodes bpyNodes self)
      | Raise e => (Raise e, self)
      | OutOfFuel => (OutOfFuel, self)
      end
  | Raise e => (Raise e, self)
  | OutOfFuel => (OutOfFuel, self)
  end.

(** *** The script: construct, name, slice, run *)
Definition run (bpyVerticesArr : list BpyVertex) (bpyEdgesArr : list BpyEdge)
    (npNormal : vec3) (base : string) : res t :=
  let* slicer_ := init bpyVerticesArr bpyEdgesArr npNormal in
  let slicer_ := setSliceNameBase base slicer_ in
  let* slicer_ := slicer slicer_ in
  sliceRunner slicer_.

End SlicerSoliton.

(** * Specification vocabulary *)

(** Every neighbour index of every node is an index of [arr]: what
    [buildGraph] guarantees when it does not raise. *)
Definition graph_ok (arr : nodes) : Prop :=
  Forall (fun node => Forall (fun i => i < length arr) (Node.neighboursIndices node)) arr.

(** The event says that its vertex lies within the threshold of its anchor,
    by the test [slicer] itself uses. *)
Definition within_anchor (arr : nodes) (threshold : float) (e : SlicerSoliton.labelling) : Prop :=
  PrimFloat.leb
    (PrimFloat.abs (SlicerSoliton.rotatedZ_at arr (SlicerSoliton.lab_anchor e)
                    - SlicerSoliton.rotatedZ_at arr (SlicerSoliton.lab_vertex e))%float)
    threshold = true.

(** What [buildGraph] leaves alone: everything but the neighbour lists. *)
Definition same_but_neighbours (arr arr' : nodes) : Prop :=
  length arr' = length arr
  /\ Node.rotatedZ <$> arr' = Node.rotatedZ <$> arr
  /\ Node.coordinates <$> arr' = Node.coordinates <$> arr
  /\ Node.sliceName <$> arr' = Node.sliceName <$> arr
  /\ Node.sliceSubSetName <$> arr' = Node.sliceSubSetName <$> arr
  /\ Node.visited <$> arr' = Node.visited <$> arr.

(** * Example meshes *)

Module Examples.

Definition vertex (x y z : float) : BpyVertex := mkBpyVertex (x, y, z) false.
Definition edge (a b : nat) : BpyEdge := mkBpyEdge (a, b).

(** The slicing direction of the script, [np.array([0, 0, 1])]. *)
Definition up : vec3 := (0, 0, 1)%float.

(** The unit cube: vertices 0..3 form the face z = 0 and vertices 4..7 the
    face z = 1. *)
Definition cubeVertices : list BpyVertex :=
  [vertex 0 0 0; vertex 1 0 0; vertex 0 1 0; vertex 1 1 0;
   vertex 0 0 1; vertex 1 0 1; vertex 0 1 1; vertex 1 1 1]%float.

(** The twelve edges of the cube. *)
Definition cubeWire : list BpyEdge :=
  [edge 0 1; edge 0 2; edge 1 3; edge 2 3;
   edge 4 5; edge 4 6; edge 5 7; edge 6 7;
   edge 0 4; edge 1 5; edge 2 6; edge 3 7].

(** One diagonal per face, triangulating it: each flag chooses between the
    two diagonals of a face (bottom, top, front, back, left, right). *)
Definition cubeDiagonals (bottom top front back left right : bool) : list BpyEdge :=
  [if bottom then edge 0 3 else edge 1 2;
   if top then edge 4 7 else edge 5 6;
   if front then edge 0 5 else edge 1 4;
   if back then edge 2 7 else edge 3 6;
   if left then edge 0 6 else edge 2 4;
   if right then edge 1 7 else edge 3 5].

(** The triangulated cube used in the examples. *)
Definition cubeEdges : list BpyEdge :=
  cubeWire ++ cubeDiagonals true true true true true true.

(** Three vertices on a line along the slicing direction, at heights 0, 1
    and 5, joined in a path: the spacing is 1, so the vertex at height 5 is
    beyond the threshold and opens a second slice. *)
Definition lineVertices : list BpyVertex :=
  [vertex 0 0 0; vertex 0 0 1; vertex 0 0 5]%float.

Definition lineEdges : list BpyEdge := [edge 0 1; edge 1 2].

(** The object the script has built for the line mesh when [sliceRunner]
    returns. *)
Definition lineSlicer : res SlicerSoliton.t :=
  SlicerSoliton.run Examples.lineVertices Examples.lineEdges Examples.up "slice".

(** The object for the line mesh when [slicer] returns, before
    [sliceRunner] runs. *)
Definition lineSliced : res SlicerSoliton.t :=
  let* slicer_ := SlicerSoliton.init lineVertices lineEdges up in
  SlicerSoliton.slicer (SlicerSoliton.setSliceNameBase "slice" slicer_).

(** The other direction the script names, [np.array([1, 0, 1]) /
    math.sqrt(2)]. *)
Definition diagonal : vec3 :=
  (1 / PrimFloat.sqrt 2, 0, 1 / PrimFloat.sqrt 2)%float.

(** A far away vertex: three vertices with finite coordinates, the third
    at 1.5 * 2^1023 in x and in z. Along [diagonal] its projection is
    beyond the largest binary64 number. *)
Definition farVertices : list BpyVertex :=
  [vertex 0 0 0; vertex 1 0 0; vertex 0x1.8p1023 0 0x1.8p1023]%float.

Definition farEdges : list BpyEdge := [edge 0 1; edge 1 2].

End Examples.

(** The edges refer to vertices of the list: the input contract. *)
Definition edges_ok (vs : list BpyVertex) (es : list BpyEdge) : Prop :=
  Forall (fun e => (vertices e).1 < length vs /\ (vertices e).2 < length vs) es.

(** No edge has vertex 0 as an end point: vertex 0 has no neighbour. *)
Definition isolated0 (es : list BpyEdge) : Prop :=
  Forall (fun e => (vertices e).1 <> 0 /\ (vertices e).2 <> 0) es.

(** What [bfs] leaves alone in the nodes: everything but the sub-slice
    names. *)
Definition same_but_subSetName (arr arr' : nodes) : Prop :=
  length arr' = length arr
  /\ Node.rotatedZ <$> arr' = Node.rotatedZ <$> arr
  /\ Node.sliceName <$> arr' = Node.sliceName <$> arr
  /\ Node.neighboursIndices <$> arr' = Node.neighboursIndices <$> arr
  /\ Node.visited <$> arr' = Node.visited <$> arr.

(** What [reducer] leaves alone in the nodes: everything but the visited
    flags. *)
Definition same_but_visited (arr arr' : nodes) : Prop :=
  length arr' = length arr
  /\ Node.rotatedZ <$> arr' = Node.rotatedZ <$> arr
  /\ Node.sliceName <$> arr' = Node.sliceName <$> arr
  /\ Node.neighboursIndices <$> arr' = Node.neighboursIndices <$> arr
  /\ Node.sliceSubSetName <$> arr' = Node.sliceSubSetName <$> arr.

(** What [slicer] leaves alone in the nodes: everything but the slice
    names. *)
Definition same_but_sliceName (arr arr' : nodes) : Prop :=
  length arr' = length arr
  /\ Node.rotatedZ <$> arr' = Node.rotatedZ <$> arr
  /\ Node.sliceSubSetName <$> arr' = Node.sliceSubSetName <$> arr
  /\ Node.neighboursIndices <$> arr' = Node.neighboursIndices <$> arr
  /\ Node.visited <$> arr' = Node.visited <$> arr.

(** What [bfs] leaves alone in the sub-slice: everything but the list of
    its nodes, which only grows at its end. *)
Definition grown (self self' : SliceSubSet.t) : Prop :=
  SliceSubSet.sliceName self' = SliceSubSet.sliceName self
  /\ SliceSubSet.sliceSubSetIndex self' = SliceSubSet.sliceSubSetIndex self
  /\ SliceSubSet.initialNodeIndex self' = SliceSubSet.initialNodeIndex self
  /\ SliceSubSet.reducedSlice self' = SliceSubSet.reducedSlice self
  /\ SliceSubSet.ownName self' = SliceSubSet.ownName self
  /\ exists more, SliceSubSet.sliceSubSetNodes self'
                  = SliceSubSet.sliceSubSetNodes self ++ more.

(** The sub-slice name of the node at an index (empty out of range). *)
Definition subSetName_at (arr : nodes) (index : nat) : string :=
  match arr !! index with
  | Some node => Node.sliceSubSetName node
  | None => ""
  end.

(** The visited flag of the node at an index (false out of range). *)
Definition visited_at (arr : nodes) (index : nat) : bool :=
  match arr !! index with
  | Some node => Node.visited node
  | None => false
  end.

(** What the loop of [reducer] does to the sub-slice: it appends [more] to
    the reduced slice and leaves the rest alone. *)
Definition reduced_by (more : list nat) (self self' : SliceSubSet.t) : Prop :=
  SliceSubSet.sliceName self' = SliceSubSet.sliceName self
  /\ SliceSubSet.sliceSubSetIndex self' = SliceSubSet.sliceSubSetIndex self
  /\ SliceSubSet.initialNodeIndex self' = SliceSubSet.initialNodeIndex self
  /\ SliceSubSet.sliceSubSetNodes self' = SliceSubSet.sliceSubSetNodes self
  /\ SliceSubSet.ownName self' = SliceSubSet.ownName self
  /\ SliceSubSet.reducedSlice self' = SliceSubSet.reducedSlice self ++ more.

(** A property of every sub-slice stored in the dictionary. *)
Definition dict_Forall (P : SliceSubSet.t -> Prop) (d : SlicerSoliton.subSlices) : Prop :=
  forall name subs sub, (name, subs) ∈ d -> sub ∈ subs -> P sub.

(** The reduced chain holds nodes of the sub-slice only and starts with
    the initial node. *)
Definition chain_ok (sub : SliceSubSet.t) : Prop :=
  SliceSubSet.reducedSlice sub ⊆ SliceSubSet.sliceSubSetNodes sub
  /\ head (SliceSubSet.reducedSlice sub) = Some (SliceSubSet.initialNodeIndex sub).


(** Scenario A as the specification expects it to end, on an object built
    from [Examples.cubeVertices]: spacing 1, threshold about 1.732, two
    bands of four vertices (the faces z = 0 and z = 1), and in each band a
    sub-slice whose reduced chain holds the four vertices of the face. *)
Definition scenarioA_expected (self : SlicerSoliton.t) : Prop :=
  SlicerSoliton.cubeEdgeLength self = 1%float
  /\ ((1732 <? SlicerSoliton.maxRotatedZ self * 1000)
      && (SlicerSoliton.maxRotatedZ self * 1000 <? 1733))%float = true
  /\ exists b0 b1 : string,
       b0 <> b1
       /\ Node.sliceName <$> SlicerSoliton.nodesArr self = [b0; b0; b0; b0; b1; b1; b1; b1]
       /\ (exists subs sub,
             (b0, subs) ∈ SlicerSoliton.subSlicesDict self /\ sub ∈ subs
             /\ [0; 1; 2; 3] ⊆ SliceSubSet.reducedSlice sub)
       /\ (exists subs sub,
             (b1, subs) ∈ SlicerSoliton.subSlicesDict self /\ sub ∈ subs
             /\ [4; 5; 6; 7] ⊆ SliceSubSet.reducedSlice sub).

(** The selection flag of the Blender vertex at an index (false out of
    range). *)
Definition selected (vs : list BpyVertex) (v : nat) : bool :=
  match vs !! v with
  | Some x => select x
  | None => false
  end.

(** The number of nodes without a sub-slice name: what [bfs] consumes. *)
Definition unlabelled (arr : nodes) : nat :=
  length (filter (fun node => Node.sliceSubSetName node = "") arr).

(** A visited node has a sub-slice name: only the reducer marks nodes, and
    only nodes of the sub-slice it reduces. *)
Definition visited_labelled (arr : nodes) : Prop :=
  Forall (fun node => Node.visited node = true -> Node.sliceSubSetName node <> "") arr.

(** The nodes of the sub-slice are in range and carry a sub-slice name,
    and no visited node is without one. *)
Definition members_ok (st : SliceSubSet.bfs_state) : Prop :=
  SliceSubSet.ownName st.1.1 <> ""
  /\ visited_labelled st.2
  /\ Forall (fun m => m < length st.2 /\ subSetName_at st.2 m <> "")
       (SliceSubSet.sliceSubSetNodes st.1.1).

(** The state the pass runs in: a well-formed graph in which every visited
    node has a sub-slice name. *)
Definition pass_ok (n : nat) (arr : nodes) : Prop :=
  graph_ok arr /\ visited_labelled arr /\ length arr = n.

(** Some edge has vertex 0 as an end point: vertex 0 has a neighbour. *)
Definition touches0 (es : list BpyEdge) : Prop :=
  Exists (fun e => (vertices e).1 = 0 \/ (vertices e).2 = 0) es.

(** The node is the other one with, possibly, another slice name: how
    [slicer] may change a node. *)
Definition renamed (node node' : Node.t) : Prop :=
  exists name, node' = Node.setSliceName name node.

(** The vertex is beyond the threshold of the anchor, by the test [slicer]
    itself uses. *)
Definition beyond_anchor (arr : nodes) (threshold : float) (anchor v : nat) : Prop :=
  PrimFloat.leb
    (PrimFloat.abs (SlicerSoliton.rotatedZ_at arr anchor
                    - SlicerSoliton.rotatedZ_at arr v)%float)
    threshold = false.

(** How a labelling follows the one before it: its vertex passes the
    threshold test against the anchor so far and stays in the band, with
    the same anchor, or it fails the test, opens the next band and becomes
    the anchor. *)
Definition follows (sliceBaseID : string) (arr : nodes) (threshold : float)
    (e e' : SlicerSoliton.labelling) : Prop :=
  (SlicerSoliton.lab_name e' = SlicerSoliton.lab_name e
   /\ SlicerSoliton.lab_anchor e' = SlicerSoliton.lab_anchor e
   /\ within_anchor arr threshold e')
  \/ (exists k,
        SlicerSoliton.lab_name e = SlicerSoliton.sliceNameOf sliceBaseID k
        /\ SlicerSoliton.lab_name e' = SlicerSoliton.sliceNameOf sliceBaseID (k + 1)
        /\ SlicerSoliton.lab_anchor e' = SlicerSoliton.lab_vertex e'
        /\ beyond_anchor arr threshold
             (SlicerSoliton.lab_anchor e) (SlicerSoliton.lab_vertex e')).

(** How the first labelling opens the bands: its vertex is the anchor, in
    band 0 when it passes the threshold test against itself, and in band
    1 when it fails it. *)
Definition opens (sliceBaseID : string) (arr : nodes) (threshold : float)
    (e : SlicerSoliton.labelling) : Prop :=
  SlicerSoliton.lab_anchor e = SlicerSoliton.lab_vertex e
  /\ ((SlicerSoliton.lab_name e = SlicerSoliton.sliceNameOf sliceBaseID 0
       /\ within_anchor arr threshold e)
      \/ (SlicerSoliton.lab_name e = SlicerSoliton.sliceNameOf sliceBaseID 1
          /\ beyond_anchor arr threshold
               (SlicerSoliton.lab_vertex e) (SlicerSoliton.lab_vertex e))).

(** The neighbours an edge gives to vertex [j]: its second end when its
    first end is [j], then its first end when its second end is [j]. *)
Definition ends_at (j : nat) (e : BpyEdge) : list nat :=
  (if decide ((vertices e).1 = j) then [(vertices e).2] else [])
  ++ (if decide ((vertices e).2 = j) then [(vertices e).1] else []).

(** The neighbours of vertex [j] in the mesh, in the order of the edge
    list. *)
Definition adjacency (es : list BpyEdge) (j : nat) : list nat :=
  flat_map (ends_at j) es.

(** The order in which the constructor's [sorted] leaves two indices, the
    first before the second: the first is not higher, and of two indices
    of equal height the smaller comes first. *)
Definition height_order (arr : nodes) (i j : nat) : Prop :=
  PrimFloat.leb (SlicerSoliton.rotatedZ_at arr i) (SlicerSoliton.rotatedZ_at arr j) = true
  /\ (PrimFloat.leb (SlicerSoliton.rotatedZ_at arr j) (SlicerSoliton.rotatedZ_at arr i) = true
      -> i < j).

(** No node has a height that is not a number. *)
Definition heights_comparable (arr : nodes) : Prop :=
  Forall (fun node => PrimFloat.is_nan (Node.rotatedZ node) = false) arr.

(** Every index of the list comes, in [height_order], before every later
    one. *)
Fixpoint in_height_order (arr : nodes) (l : list nat) : Prop :=
  match l with
  | [] => True
  | y :: rest => Forall (height_order arr y) rest /\ in_height_order arr rest
  end.

(** The node at the index belongs to the band and has no sub-slice name:
    a node [bfs] takes when it meets it. *)
Definition eligible (arr : nodes) (band : string) (j : nat) : Prop :=
  exists node, arr !! j = Some node
    /\ Node.sliceName node = band /\ Node.sliceSubSetName node = "".

(** The vertices [bfs] can get to from the initial vertex [i]: [i] itself,
    and every eligible neighbour of a vertex it can get to. *)
Inductive reachable (arr : nodes) (band : string) (i : nat) : nat -> Prop :=
| reachable_start : reachable arr band i i
| reachable_step (a b : nat) (node : Node.t) :
    reachable arr band i a ->
    arr !! a = Some node ->
    b ∈ Node.neighboursIndices node ->
    eligible arr band b ->
    reachable arr band i b.

(** Nothing is left for [bfs] to do at the index: the node there is of
    another band or has a sub-slice name. *)
Definition settled (arr : nodes) (band : string) (j : nat) : Prop :=
  exists node, arr !! j = Some node
    /\ (Node.sliceName node = band -> Node.sliceSubSetName node <> "").

(** The state of [bfs] between two steps, [arr0] being the nodes it was
    called with: the members are distinct nodes that were eligible and
    reachable and now carry the name of the sub-slice, every other node is
    as it was, and the queue holds members. *)
Definition bfs_core (arr0 : nodes) (band own : string) (i : nat)
    (st : SliceSubSet.bfs_state) : Prop :=
  SliceSubSet.ownName st.1.1 = own
  /\ SliceSubSet.sliceName st.1.1 = band
  /\ length st.2 = length arr0
  /\ (forall j, j ∉ SliceSubSet.sliceSubSetNodes st.1.1 -> st.2 !! j = arr0 !! j)
  /\ (forall m, m ∈ SliceSubSet.sliceSubSetNodes st.1.1 ->
        exists node0, arr0 !! m = Some node0
          /\ Node.sliceSubSetName node0 = "" /\ Node.sliceName node0 = band
          /\ st.2 !! m = Some (Node.setSliceSubSetName own node0))
  /\ NoDup (SliceSubSet.sliceSubSetNodes st.1.1)
  /\ st.1.2 ⊆ SliceSubSet.sliceSubSetNodes st.1.1
  /\ (forall m, m ∈ SliceSubSet.sliceSubSetNodes st.1.1 -> reachable arr0 band i m).

(** Every member that has left the queue, those of [skip] apart, has all
    its neighbours settled. *)
Definition bfs_closed (arr0 : nodes) (band : string) (skip : list nat)
    (st : SliceSubSet.bfs_state) : Prop :=
  forall m node0 j,
    m ∈ SliceSubSet.sliceSubSetNodes st.1.1 -> m ∉ st.1.2 -> m ∉ skip ->
    arr0 !! m = Some node0 -> j ∈ Node.neighboursIndices node0 ->
    settled st.2 band j.

(** Why [reducer] keeps a vertex in the chain: the vertex has a neighbour
    outside the sub-slice that the vertex does not beat, that is, with
    [max] a neighbour the vertex is not strictly higher than, and with
    [min] one it is not strictly lower than. *)
Definition on_boundary (s : SliceSubSet.strategy) (own : string) (arr : nodes)
    (m : nat) : Prop :=
  exists node c,
    arr !! m = Some node
    /\ c ∈ Node.neighboursIndices node
    /\ subSetName_at arr c <> own
    /\ match s with
       | SliceSubSet.Max =>
           PrimFloat.ltb (SlicerSoliton.rotatedZ_at arr c) (SlicerSoliton.rotatedZ_at arr m)
           = false
       | SliceSubSet.Min =>
           PrimFloat.ltb (SlicerSoliton.rotatedZ_at arr m) (SlicerSoliton.rotatedZ_at arr c)
           = false
       end.

(** The test of the first loop of [reducer] on a neighbour of the seed:
    strictly lower than the seed and in another slice. *)
Definition lower_in_other_slice (currentNode : Node.t) (arr : nodes) (j : nat) : Prop :=
  exists neighbour,
    arr !! j = Some neighbour
    /\ PrimFloat.ltb (Node.rotatedZ neighbour) (Node.rotatedZ currentNode) = true
    /\ Node.sliceName neighbour <> Node.sliceName currentNode.

(** The vertex has a neighbour in another slice: the test of
    [sliceRunner] for seeding a sub-slice. *)
Definition borders (arr : nodes) (i : nat) : Prop :=
  exists node c neighbour,
    arr !! i = Some node
    /\ c ∈ Node.neighboursIndices node
    /\ arr !! c = Some neighbour
    /\ Node.sliceName neighbour <> Node.sliceName node.

(** The sub-slice is the one at position [p] of the list stored under the
    slice name. *)
Definition stored (d : SlicerSoliton.subSlices) (name : string) (p : nat)
    (sub : SliceSubSet.t) : Prop :=
  exists subs, (name, subs) ∈ d /\ subs !! p = Some sub.

(** What holds of a stored sub-slice: it knows its slice and its position,
    its name is made of the two, it lists distinct vertices, its seed
    first, the seed borders another slice, and its vertices are nodes of
    the slice that carry its name. *)
Definition subslice_ok (arr : nodes) (name : string) (p : nat) (sub : SliceSubSet.t)
    : Prop :=
  SliceSubSet.sliceName sub = name
  /\ SliceSubSet.sliceSubSetIndex sub = p
  /\ SliceSubSet.ownName sub = SliceSubSet.subSetName name p
  /\ NoDup (SliceSubSet.sliceSubSetNodes sub)
  /\ head (SliceSubSet.sliceSubSetNodes sub) = Some (SliceSubSet.initialNodeIndex sub)
  /\ borders arr (SliceSubSet.initialNodeIndex sub)
  /\ forall m, m ∈ SliceSubSet.sliceSubSetNodes sub ->
       Node.sliceName <$> arr !! m = Some name
       /\ Node.sliceSubSetName <$> arr !! m = Some (SliceSubSet.ownName sub).

(** The state of [sliceRunner] between two iterations: the keys of the
    dictionary are distinct, every stored sub-slice is as [subslice_ok]
    says, and every node with a sub-slice name is a vertex of a stored
    sub-slice. *)
Definition runner_inv (arr : nodes) (d : SlicerSoliton.subSlices) : Prop :=
  NoDup d.*1
  /\ (forall name p sub, stored d name p sub -> subslice_ok arr name p sub)
  /\ (forall j node, arr !! j = Some node -> Node.sliceSubSetName node <> "" ->
        exists name p sub, stored d name p sub /\ j ∈ SliceSubSet.sliceSubSetNodes sub).

(** The sub-slices a call of [slicesHighlighter] asks for, out of the list
    of a slice: all of them when no index is given, else those at the
    given indices. *)
Definition requested (subSlicesArr : list SliceSubSet.t) (subSlicesIndices : list Z)
    (sub : SliceSubSet.t) : Prop :=
  match subSlicesIndices with
  | [] => sub ∈ subSlicesArr
  | _ :: _ =>
      exists index, index ∈ subSlicesIndices /\ getitemZ subSlicesArr index = Return sub
  end.

(** [vs'] is [vs] with the vertices of [more] selected besides: the
    coordinates are the same, and a vertex is selected in [vs'] exactly
    when it was selected or is one of [more]. *)
Definition selects (more : nat -> Prop) (vs vs' : list BpyVertex) : Prop :=
  co <$> vs' = co <$> vs
  /\ forall v, selected vs' v = true <-> selected vs v = true \/ more v.

(** What [sliceRunner] leaves alone in the nodes: their number, heights,
    slice names and neighbours; a sub-slice name, once given, stays, and
    so does a visited flag. *)
Definition kept_by_runner (arr arr' : nodes) : Prop :=
  length arr' = length arr
  /\ Node.rotatedZ <$> arr' = Node.rotatedZ <$> arr
  /\ Node.sliceName <$> arr' = Node.sliceName <$> arr
  /\ Node.neighboursIndices <$> arr' = Node.neighboursIndices <$> arr
  /\ (forall j, subSetName_at arr j <> "" -> subSetName_at arr' j = subSetName_at arr j)
  /\ (forall j, visited_at arr j = true -> visited_at arr' j = true).

(** The nodes with a sub-slice name are the visited ones. *)
Definition named_iff_visited (arr : nodes) : Prop :=
  forall j, visited_at arr j = true <-> subSetName_at arr j <> "".

(** The node at the index carries a band name: the name base followed by
    a band index. *)
Definition band_named (sliceBaseID : string) (arr : nodes) (j : nat) : Prop :=
  exists node k,
    arr !! j = Some node
    /\ Node.sliceName node = SlicerSoliton.sliceNameOf sliceBaseID k.

(** * Facts *)

(** ** Outcomes and loops *)

Lemma getitem_Return {A : Type} (l : list A) (i : nat) (x : A) :
  getitem l i = Return x <-> l !! i = Some x.
Proof.
  unfold getitem. destruct (l !! i); split; intros H; congruence.
Qed.

Lemma getitem_lt {A : Type} (l : list A) (i : nat) :
  i < length l -> exists x, getitem l i = Return x /\ l !! i = Some x.
Proof.
  intros H. destruct (lookup_lt_is_Some_2 l i H) as [x Hx].
  exists x. split; [by apply getitem_Return | done].
Qed.

Lemma getitem_ge {A : Type} (l : list A) (i : nat) :
  length l <= i -> getitem l i = Raise IndexError.
Proof.
  intros H. unfold getitem. by rewrite lookup_ge_None_2.
Qed.

Lemma bind_Return_inv {A B : Type} (m : res A) (k : A -> res B) (b : B) :
  Py.bind m k = Return b -> exists a, m = Return a /\ k a = Return b.
Proof.
  destruct m as [a| |]; simpl; intros H; [by exists a | done | done].
Qed.

(** Inversion of a chain of binds that returned. *)
Ltac inv_bind H :=
  let a := fresh "a" in
  let Ha := fresh "Hrun" in
  apply bind_Return_inv in H as (a & Ha & H).

(** A loop that returned kept every invariant its body keeps. *)
Lemma for_invariant {S X : Type} (P : S -> Prop) (body : X -> S -> res S)
    (xs : list X) (s s' : S) :
  (forall x t t', x ∈ xs -> P t -> body x t = Return t' -> P t') ->
  P s -> for_ body xs s = Return s' -> P s'.
Proof.
  revert s. induction xs as [|x xs IH]; simpl; intros s Hbody Hs Hrun.
  - by inversion Hrun; subst.
  - inv_bind Hrun. apply (IH a); [|by eapply Hbody; [left| |]|done].
    intros y t t' Hy. apply Hbody. by right.
Qed.

(** A loop whose body returns under an invariant returns. *)
Lemma for_returns {S X : Type} (P : S -> Prop) (body : X -> S -> res S)
    (xs : list X) (s : S) :
  (forall x t, x ∈ xs -> P t -> exists t', body x t = Return t' /\ P t') ->
  P s -> exists s', for_ body xs s = Return s' /\ P s'.
Proof.
  revert s. induction xs as [|x xs IH]; simpl; intros s Hbody Hs.
  - by exists s.
  - destruct (Hbody x s) as (t & Ht & HP); [by left|done|].
    rewrite Ht. simpl. apply IH; [|done].
    intros y u Hy. apply Hbody. by right.
Qed.

Lemma for_app {S X : Type} (body : X -> S -> res S) (xs ys : list X) (s : S) :
  for_ body (xs ++ ys) s = Py.bind (for_ body xs s) (for_ body ys).
Proof.
  revert s. induction xs as [|x xs IH]; simpl; intros s; [done|].
  destruct (body x s); simpl; auto.
Qed.

(** ** Names *)

Lemma string_app_assoc (a b c : string) : (a +:+ b) +:+ c = a +:+ (b +:+ c).
Proof.
  induction a as [|ch a IH]; [done|].
  change (String ch ((a +:+ b) +:+ c) = String ch (a +:+ (b +:+ c))).
  by f_equal.
Qed.

Lemma string_app_nonempty_r (a b : string) : b <> "" -> a +:+ b <> "".
Proof. destruct a, b; cbv; congruence. Qed.

Lemma pretty_N_go_length (x : N) (s : string) :
  String.length s <= String.length (pretty_N_go x s).
Proof.
  revert s. induction (N.lt_wf_0 x) as [x _ IH]; intros s.
  destruct (decide (x = 0%N)) as [->|Hx]; [by rewrite pretty_N_go_0|].
  rewrite pretty_N_go_step by lia.
  etrans; [|apply IH; apply N.div_lt; lia]. simpl. lia.
Qed.

(** [str(n)] has at least one digit. *)
Lemma str_nonempty (n : nat) : str n <> "".
Proof.
  unfold str, pretty, pretty_nat, pretty, pretty_N.
  destruct (decide (N.of_nat n = 0%N)) as [|Hn]; [done|].
  rewrite pretty_N_go_step by lia.
  intros Heq.
  pose proof (pretty_N_go_length (N.of_nat n `div` 10)
    (String (pretty_N_char (N.of_nat n `mod` 10)) "")) as Hlen.
  rewrite Heq in Hlen. simpl in Hlen. lia.
Qed.

Lemma sliceNameOf_nonempty (base : string) (k : nat) :
  SlicerSoliton.sliceNameOf base k <> "".
Proof. apply string_app_nonempty_r, str_nonempty. Qed.

Lemma subSetName_nonempty (name : string) (k : nat) :
  SliceSubSet.subSetName name k <> "".
Proof. apply string_app_nonempty_r, str_nonempty. Qed.

(** C9. The name of a sub-slice is the band name followed by the decimal
    sub-slice index, and the band name is the name base followed by the
    decimal band index. Over the pairs (band index, sub-slice index) this
    naming is not injective: for every name base, band 1 sub-slice 10 and
    band 11 sub-slice 0 are two distinct pairs with the same name. *)
Theorem subset_name_not_injective (base : string) :
  exists p q : nat * nat,
    p <> q /\
    SliceSubSet.subSetName (SlicerSoliton.sliceNameOf base p.1) p.2
    = SliceSubSet.subSetName (SlicerSoliton.sliceNameOf base q.1) q.2.
Proof.
  exists (1, 10), (11, 0). split; [done|].
  unfold SliceSubSet.subSetName, SlicerSoliton.sliceNameOf.
  cbn [fst snd]. rewrite !string_app_assoc. f_equal.
Qed.


(** ** Sorting *)

Lemma insert_by_Permutation {X : Type} (key : X -> float) (x : X) (l : list X) :
  insert_by key x l ≡ₚ x :: l.
Proof.
  induction l as [|y l IH]; simpl; [done|].
  destruct (PrimFloat.ltb (key x) (key y)); [done|].
  rewrite IH. apply Permutation_swap.
Qed.

Lemma sorted_Permutation {X : Type} (key : X -> float) (xs : list X) :
  sorted key xs ≡ₚ xs.
Proof.
  unfold sorted.
  enough (forall acc, fold_left (fun acc x => insert_by key x acc) xs acc ≡ₚ acc ++ xs)
    as H by apply (H []).
  induction xs as [|x xs IH]; simpl; intros acc.
  - by rewrite app_nil_r.
  - rewrite IH, insert_by_Permutation. simpl. apply Permutation_middle.
Qed.

(** ** Floats *)

Lemma SFsub_self (x : spec_float) :
  match x with S754_nan | S754_infinity _ => False | _ => True end ->
  SF64sub x x = S754_zero false.
Proof.
  destruct x as [s|s| |s m e]; intros H; try done.
  - by destruct s.
  - unfold SF64sub, SFsub. by rewrite Z.sub_diag.
Qed.

Lemma Prim2SF_infinity : Prim2SF infinity = S754_infinity false.
Proof. vm_compute. reflexivity. Qed.

Lemma Prim2SF_zero : Prim2SF 0 = S754_zero false.
Proof. vm_compute. reflexivity. Qed.

Lemma is_finite_spec (x : float) :
  is_finite x = true ->
  match Prim2SF x with S754_nan | S754_infinity _ => False | _ => True end.
Proof.
  unfold is_finite, is_nan, is_infinity.
  rewrite !FloatAxioms.eqb_spec, FloatAxioms.abs_spec, Prim2SF_infinity.
  destruct (Prim2SF x) as [s|s| |s m e]; try done.
  by destruct s.
Qed.

(** A finite float is at distance zero from itself. *)
Lemma abs_sub_self (x : float) : is_finite x = true -> abs (x - x) = 0%float.
Proof.
  intros H. apply Prim2SF_inj.
  rewrite FloatAxioms.abs_spec, FloatAxioms.sub_spec, SFsub_self
    by (by apply is_finite_spec).
  by rewrite Prim2SF_zero.
Qed.

(** ** Fields of the nodes under an update *)

Lemma fmap_insert_same {A B : Type} (f : A -> B) (l : list A) (i : nat) (x y : A) :
  l !! i = Some x -> f y = f x -> f <$> <[i:=y]> l = f <$> l.
Proof.
  intros Hi Hf. rewrite list_fmap_insert, Hf.
  apply list_insert_id. by rewrite list_lookup_fmap, Hi.
Qed.

Lemma rotatedZ_at_fmap (arr arr' : nodes) :
  Node.rotatedZ <$> arr' = Node.rotatedZ <$> arr ->
  forall i, SlicerSoliton.rotatedZ_at arr' i = SlicerSoliton.rotatedZ_at arr i.
Proof.
  intros H i. unfold SlicerSoliton.rotatedZ_at.
  assert ((Node.rotatedZ <$> arr') !! i = (Node.rotatedZ <$> arr) !! i) as Hi
    by by rewrite H.
  rewrite !list_lookup_fmap in Hi.
  destruct (arr' !! i), (arr !! i); simpl in Hi; congruence.
Qed.

Lemma graph_ok_insert (arr : nodes) (i : nat) (node : Node.t) :
  graph_ok arr ->
  Forall (fun j => j < length arr) (Node.neighboursIndices node) ->
  graph_ok (<[i:=node]> arr).
Proof.
  unfold graph_ok. intros Hok Hnode. rewrite length_insert.
  by apply Forall_insert.
Qed.

Lemma graph_ok_lookup (arr : nodes) (i j : nat) (node : Node.t) :
  graph_ok arr -> arr !! i = Some node -> j ∈ Node.neighboursIndices node ->
  j < length arr.
Proof.
  unfold graph_ok. intros Hok Hi Hj.
  rewrite Forall_lookup in Hok. specialize (Hok i node Hi).
  rewrite Forall_forall in Hok. by apply Hok.
Qed.

(** ** buildGraph and the constructor *)

Lemma addEdge_spec (edge : BpyEdge) (arr arr' : nodes) :
  SlicerSoliton.addEdge edge arr = Return arr' ->
  same_but_neighbours arr arr' /\ (graph_ok arr -> graph_ok arr')
  /\ (vertices edge).1 < length arr /\ (vertices edge).2 < length arr.
Proof.
  unfold SlicerSoliton.addEdge. destruct (vertices edge) as [v0 v1]. intros H.
  inv_bind H. inv_bind H. inversion H; subst; clear H.
  apply getitem_Return in Hrun, Hrun0.
  pose proof (lookup_lt_Some _ _ _ Hrun) as Hv0.
  pose proof (lookup_lt_Some _ _ _ Hrun0) as Hv1.
  rewrite length_insert in Hv1.
  split; [|split; [|done]].
  - unfold same_but_neighbours. rewrite !length_insert.
    split; [done|].
    repeat split;
      (etrans; [eapply fmap_insert_same; [exact Hrun0|done]|];
       by eapply fmap_insert_same).
  - intros Hok.
    assert (graph_ok (<[v0:=Node.addNeighbourIndex v1 a]> arr)) as Hok1.
    { apply graph_ok_insert; [done|]. simpl. apply Forall_app. split.
      - rewrite Forall_forall. intros j Hj. by eapply graph_ok_lookup.
      - by apply Forall_singleton. }
    apply graph_ok_insert; [done|]. simpl. apply Forall_app. split.
    + rewrite Forall_forall. intros j Hj. by eapply graph_ok_lookup.
    + apply Forall_singleton. by rewrite length_insert.
Qed.

Lemma same_but_neighbours_refl (arr : nodes) : same_but_neighbours arr arr.
Proof. by repeat split. Qed.

Lemma same_but_neighbours_trans (a b c : nodes) :
  same_but_neighbours a b -> same_but_neighbours b c -> same_but_neighbours a c.
Proof.
  unfold same_but_neighbours.
  intros (?&?&?&?&?&?) (?&?&?&?&?&?). repeat split; congruence.
Qed.

Lemma buildGraph_spec (edges : list BpyEdge) (arr arr' : nodes) :
  SlicerSoliton.buildGraph edges arr = Return arr' ->
  same_but_neighbours arr arr' /\ (graph_ok arr -> graph_ok arr').
Proof.
  unfold SlicerSoliton.buildGraph.
  apply (for_invariant
    (fun t => same_but_neighbours arr t /\ (graph_ok arr -> graph_ok t))).
  - intros edge t t' _ [Hs Hok] Hstep.
    apply addEdge_spec in Hstep as (Hs' & Hok' & _). split.
    + by eapply same_but_neighbours_trans.
    + auto.
  - split; [apply same_but_neighbours_refl | done].
Qed.

Lemma graph_ok_init (vs : list BpyVertex) (npNormal : vec3) :
  graph_ok (map (fun vertex => Node.init vertex npNormal) vs).
Proof.
  unfold graph_ok. rewrite Forall_forall. intros node Hnode.
  apply list_elem_of_fmap in Hnode as (v & -> & _). simpl. constructor.
Qed.

(** What holds of an object the constructor returned. *)
Lemma init_spec (vs : list BpyVertex) (es : list BpyEdge) (npNormal : vec3)
    (self : SlicerSoliton.t) :
  SlicerSoliton.init vs es npNormal = Return self ->
  length (SlicerSoliton.nodesArr self) = length vs
  /\ 0 < length vs
  /\ SlicerSoliton.sortedNodesIndices self ≡ₚ seq 0 (length vs)
  /\ graph_ok (SlicerSoliton.nodesArr self)
  /\ Forall (fun node => Node.sliceName node = "" /\ Node.sliceSubSetName node = ""
                         /\ Node.visited node = false) (SlicerSoliton.nodesArr self)
  /\ SlicerSoliton.subSlicesDict self = []
  /\ SlicerSoliton.initialBpyNodes self = vs.
Proof.
  unfold SlicerSoliton.init. intros H. inv_bind H. inv_bind H.
  inversion H; subst; clear H. simpl.
  apply buildGraph_spec in Hrun as [(Hlen & _ & _ & Hn & Hs & Hv) Hok].
  rewrite length_map in Hlen.
  split; [done|]. split.
  { unfold SlicerSoliton.cubeEdgeLengthEval in Hrun0. inv_bind Hrun0.
    apply getitem_Return, lookup_lt_Some in Hrun. lia. }
  split; [apply sorted_Permutation|].
  split; [apply Hok, graph_ok_init|].
  split; [|done].
  rewrite Forall_lookup. intros i node Hi.
  assert (forall {B} (f : Node.t -> B) (b : B),
    f <$> a = f <$> map (fun vertex => Node.init vertex npNormal) vs ->
    (forall v, f (Node.init v npNormal) = b) -> f node = b) as Hfield.
  { intros B f b Heq Hf.
    assert ((f <$> a) !! i = Some (f node)) as Hl by by rewrite list_lookup_fmap, Hi.
    rewrite Heq, list_lookup_fmap in Hl.
    unfold fmap, list_fmap in Hl. rewrite list_lookup_fmap in Hl.
    destruct (vs !! i); simpl in Hl; [|done]. inversion Hl. by rewrite Hf. }
  repeat split; eapply Hfield; eauto.
Qed.

(** ** slicer *)

Section Slicer.

Variables (sliceBaseID : string) (actualDivergency : float).

Local Abbreviation step := (SlicerSoliton.slicer_step sliceBaseID actualDivergency).
Local Abbreviation step_logged :=
  (SlicerSoliton.slicer_step_logged sliceBaseID actualDivergency).

(** The two ways an iteration can go: the node joins the current slice, or
    it opens the next slice and becomes the base node. Either way the one
    node that changes is the visited one, and only in its slice name. *)
Lemma slicer_step_inv (index base k : nat) (nm : string) (arr : nodes)
    (st' : SlicerSoliton.slicer_state) :
  step index (base, k, nm, arr) = Return st' ->
  exists baseNode currentNode,
    arr !! base = Some baseNode /\ arr !! index = Some currentNode /\
    ((SlicerSoliton.within actualDivergency baseNode currentNode = true /\
      st' = (base, k, nm, <[index := Node.setSliceName nm currentNode]> arr))
     \/
     (SlicerSoliton.within actualDivergency baseNode currentNode = false /\
      st' = (index, k + 1, SlicerSoliton.sliceNameOf sliceBaseID (k + 1),
             <[index := Node.setSliceName
                          (SlicerSoliton.sliceNameOf sliceBaseID (k + 1)) currentNode]> arr))).
Proof.
  unfold SlicerSoliton.slicer_step. intros H.
  inv_bind H. inv_bind H. apply getitem_Return in Hrun, Hrun0.
  exists a, a0. split; [done|]. split; [done|].
  destruct (SlicerSoliton.within actualDivergency a a0);
    inversion H; subst; [left|right]; done.
Qed.

Lemma slicer_step_total (index base k : nat) (nm : string) (arr : nodes) :
  base < length arr -> index < length arr ->
  exists st', step index (base, k, nm, arr) = Return st'.
Proof.
  intros Hb Hi. unfold step, SlicerSoliton.slicer_step.
  destruct (getitem_lt arr base Hb) as (bn & -> & _).
  destruct (getitem_lt arr index Hi) as (cn & -> & _). simpl.
  destruct (SlicerSoliton.within actualDivergency bn cn); eauto.
Qed.

(** The log is an observation: forgetting it gives the plain loop. *)
Lemma slicer_logged_erase (xs : list nat) (st st' : SlicerSoliton.slicer_state)
    (log log' : list SlicerSoliton.labelling) :
  for_ step_logged xs (st, log) = Return (st', log') ->
  for_ step xs st = Return st'.
Proof.
  revert st log. induction xs as [|x xs IH]; simpl; intros st log H.
  - by inversion H.
  - inv_bind H. unfold SlicerSoliton.slicer_step_logged in Hrun.
    inv_bind Hrun. simpl in Hrun0. rewrite Hrun0. simpl.
    destruct a0 as [[[b k] nm] arr]. inversion Hrun; subst. by eapply IH.
Qed.

(** The loop over distinct indices in range returns; it logs one event per
    index, in order, and every logged name is non-empty and is the slice
    name its vertex ends up with. *)
Lemma slicer_loop_logged (xs : list nat) :
  forall (base k : nat) (nm : string) (arr : nodes)
         (log : list SlicerSoliton.labelling),
    nm <> "" ->
    base < length arr ->
    Forall (fun i => i < length arr) xs ->
    NoDup ((SlicerSoliton.lab_vertex <$> log) ++ xs) ->
    (forall e, e ∈ log ->
       SlicerSoliton.lab_name e <> "" /\
       Node.sliceName <$> arr !! SlicerSoliton.lab_vertex e
       = Some (SlicerSoliton.lab_name e)) ->
    exists st' arr' log',
      for_ step_logged xs ((base, k, nm, arr), log) = Return (st', log') /\
      arr' = st'.2 /\
      (SlicerSoliton.lab_vertex <$> log') = (SlicerSoliton.lab_vertex <$> log) ++ xs /\
      length arr' = length arr /\
      (forall e, e ∈ log' ->
         SlicerSoliton.lab_name e <> "" /\
         Node.sliceName <$> arr' !! SlicerSoliton.lab_vertex e
         = Some (SlicerSoliton.lab_name e)).
Proof.
  induction xs as [|x xs IH]; intros base k nm arr log Hnm Hb Hxs Hnd Hlog.
  - exists (base, k, nm, arr), arr, log. simpl. by rewrite app_nil_r.
  - apply Forall_cons in Hxs as [Hx Hxs].
    destruct (slicer_step_total x base k nm arr Hb Hx) as [st1 Hst1].
    pose proof Hst1 as Hinv.
    apply slicer_step_inv in Hinv as (bn & cn & Hbn & Hcn & Hcase).
    assert (exists base1 k1 nm1,
      st1 = (base1, k1, nm1, <[x := Node.setSliceName nm1 cn]> arr) /\
      nm1 <> "" /\ base1 < length arr) as (base1 & k1 & nm1 & -> & Hnm1 & Hb1).
    { destruct Hcase as [[_ ->]|[_ ->]]; eexists _, _, _; split; try done.
      split; [apply sliceNameOf_nonempty | done]. }
    cbn [for_]. unfold SlicerSoliton.slicer_step_logged at 1.
    cbn [fst snd]. rewrite Hst1. cbn [Py.bind].
    set (e1 := SlicerSoliton.mkLabelling x nm1 base1).
    destruct (IH base1 k1 nm1 (<[x := Node.setSliceName nm1 cn]> arr) (log ++ [e1]))
      as (st' & arr' & log' & Hrun & Harr' & Hmap & Hlen & Hlog').
    + done.
    + by rewrite length_insert.
    + by rewrite length_insert.
    + rewrite fmap_app. simpl. by rewrite <- app_assoc.
    + intros e He. apply elem_of_app in He as [He| ->%list_elem_of_singleton].
      * destruct (Hlog e He) as [Hne Hname]. split; [done|].
        rewrite list_lookup_insert_ne; [done|].
        intros Heq. apply NoDup_app in Hnd as (_ & Hnd & _).
        apply (Hnd x); [|by left].
        rewrite Heq. apply list_elem_of_fmap. by exists e.
      * simpl. split; [done|]. by rewrite list_lookup_insert_eq.
    + exists st', arr', log'. split; [done|]. split; [done|].
      split; [|split; [by rewrite Hlen, length_insert | done]].
      rewrite Hmap, fmap_app. simpl. by rewrite <- app_assoc.
Qed.

End Slicer.

Lemma filter_none {A : Type} (f : A -> nat) (l : list A) (x : nat) :
  x ∉ f <$> l -> filter (fun e => f e = x) l = [].
Proof.
  induction l as [|a l IH]; [done|]. intros Hx. rewrite fmap_cons in Hx.
  apply not_elem_of_cons in Hx as [Hne Hx].
  rewrite filter_cons. destruct (decide (f a = x)); [congruence | auto].
Qed.

(** In a list whose images under [f] are distinct, exactly one element is
    mapped to each image. *)
Lemma filter_unique {A : Type} (f : A -> nat) (l : list A) (x : nat) :
  NoDup (f <$> l) -> x ∈ f <$> l ->
  exists e, filter (fun e => f e = x) l = [e] /\ f e = x /\ e ∈ l.
Proof.
  induction l as [|a l IH]; intros Hnd Hx.
  - by apply elem_of_nil in Hx.
  - rewrite fmap_cons in Hnd, Hx. apply NoDup_cons in Hnd as [Ha Hnd].
    rewrite filter_cons. destruct (decide (f a = x)) as [Heq|Hne].
    + exists a. split; [|split; [done | by left]].
      f_equal. apply filter_none. by rewrite <- Heq.
    + apply elem_of_cons in Hx as [Hx|Hx]; [congruence|].
      destruct (IH Hnd Hx) as (e & He & Hfe & Hin).
      exists e. split; [done|]. split; [done | by right].
Qed.

Lemma slicer_unfold (self : SlicerSoliton.t) (sb : string) (i0 : nat) (rest : list nat)
    (n0 : Node.t) :
  SlicerSoliton.sortedNodesIndices self = i0 :: rest ->
  SlicerSoliton.nodesArr self !! i0 = Some n0 ->
  SlicerSoliton.sliceNameBase self = Some sb ->
  SlicerSoliton.slicer self
  = Py.bind (for_ (SlicerSoliton.slicer_step sb (SlicerSoliton.maxRotatedZ self))
               (i0 :: rest)
               (i0, 0, SlicerSoliton.sliceNameOf sb 0, SlicerSoliton.nodesArr self))
      (fun st => Return (SlicerSoliton.with_nodes st.2
                           (SlicerSoliton.subSlicesDict self) self))
  /\ SlicerSoliton.slicer_log self
  = Py.bind (for_ (SlicerSoliton.slicer_step_logged sb (SlicerSoliton.maxRotatedZ self))
               (i0 :: rest)
               ((i0, 0, SlicerSoliton.sliceNameOf sb 0, SlicerSoliton.nodesArr self), []))
      (fun r => Return r.2).
Proof.
  intros Hs Hn Hb.
  unfold SlicerSoliton.slicer, SlicerSoliton.slicer_log, SlicerSoliton.getSliceNameBase.
  cbv zeta. rewrite Hs, Hb. unfold getitem. cbn [lookup list_lookup Py.bind].
  rewrite Hn. cbn [Py.bind].
  split; (destruct (for_ _ _ _) as [r| |]; [|done..]); cbn [Py.bind].
  - by destruct r as [[[? ?] ?] ?].
  - by destruct r as [? ?].
Qed.

(** C6. Once the constructor has returned an object, the classifier pass
    [slicer] on it completes, and for every vertex of the input mesh it
    has then written the vertex's band label exactly once (the log holds
    exactly one [setSliceName] call for the vertex), with a non-empty
    name, which is the label the vertex ends up with. *)
Theorem band_label_written_once (vs : list BpyVertex) (es : list BpyEdge)
    (npNormal : vec3) (base : string) (self : SlicerSoliton.t) :
  SlicerSoliton.init vs es npNormal = Return self ->
  exists self' log,
    SlicerSoliton.slicer (SlicerSoliton.setSliceNameBase base self) = Return self' /\
    SlicerSoliton.slicer_log (SlicerSoliton.setSliceNameBase base self) = Return log /\
    forall v, v < length vs ->
      exists e,
        filter (fun e => SlicerSoliton.lab_vertex e = v) log = [e] /\
        SlicerSoliton.lab_name e <> "" /\
        Node.sliceName <$> SlicerSoliton.nodesArr self' !! v
        = Some (SlicerSoliton.lab_name e).
Proof.
  intros Hinit.
  apply init_spec in Hinit as (Hlen & Hpos & Hperm & _).
  set (sorted := SlicerSoliton.sortedNodesIndices self) in *.
  set (arr := SlicerSoliton.nodesArr self) in *.
  assert (Forall (fun i => i < length arr) sorted) as Hrange.
  { rewrite Forall_forall. intros i Hi. rewrite Hperm in Hi.
    apply elem_of_seq in Hi. lia. }
  assert (NoDup sorted) as Hnd by (rewrite Hperm; apply NoDup_seq).
  destruct sorted as [|i0 rest] eqn:Hsorted.
  { apply Permutation_nil_l in Hperm. destruct vs; simpl in *; [lia | done]. }
  assert (i0 < length arr) as Hi0 by by apply Forall_cons in Hrange as [? _].
  destruct (getitem_lt arr i0 Hi0) as (n0 & _ & Hn0).
  destruct (slicer_unfold (SlicerSoliton.setSliceNameBase base self) base i0 rest n0)
    as [-> ->]; [done..|].
  change (SlicerSoliton.nodesArr (SlicerSoliton.setSliceNameBase base self)) with arr.
  change (SlicerSoliton.maxRotatedZ (SlicerSoliton.setSliceNameBase base self))
    with (SlicerSoliton.maxRotatedZ self).
  destruct (slicer_loop_logged base (SlicerSoliton.maxRotatedZ self)
              (i0 :: rest) i0 0 (SlicerSoliton.sliceNameOf base 0) arr [])
    as (st' & arr' & log' & Hrun & Harr' & Hmap & Hlen' & Hlog');
    [apply sliceNameOf_nonempty | done | done | done | |].
  { intros e He. by apply elem_of_nil in He. }
  rewrite Hrun. rewrite (slicer_logged_erase _ _ _ _ _ _ _ Hrun).
  subst arr'. cbn [Py.bind snd].
  eexists _, log'. split; [done|]. split; [done|]. simpl.
  intros v Hv.
  destruct (filter_unique SlicerSoliton.lab_vertex log' v) as (e & He & Hv' & Hin).
  - by rewrite Hmap.
  - rewrite Hmap. simpl. rewrite Hperm. apply elem_of_seq. lia.
  - exists e. split; [done|]. destruct (Hlog' e Hin) as [Hne Hname].
    split; [done|]. by rewrite <- Hv'.
Qed.

Lemma rotatedZ_at_lookup (arr : nodes) (i : nat) (node : Node.t) :
  arr !! i = Some node -> SlicerSoliton.rotatedZ_at arr i = Node.rotatedZ node.
Proof. intros H. unfold SlicerSoliton.rotatedZ_at. by rewrite H. Qed.

Lemma rotatedZ_at_finite (arr : nodes) (i : nat) :
  (forall node, node ∈ arr -> is_finite (Node.rotatedZ node) = true) ->
  i < length arr -> is_finite (SlicerSoliton.rotatedZ_at arr i) = true.
Proof.
  intros Hfin Hi. destruct (lookup_lt_is_Some_2 arr i Hi) as [node Hnode].
  rewrite (rotatedZ_at_lookup _ _ _ Hnode). apply Hfin.
  by eapply list_elem_of_lookup_2.
Qed.

(** C7 (as amended). When every projection is a finite float and the
    threshold is a non-negative float (not NaN), every vertex that the
    classifier labels lies within the threshold of the anchor of the band
    it is put in (the base node in force when the iteration that labels it
    ends: the unchanged base node, or the vertex itself when it opens a
    band): the absolute difference of the two projections is at most the
    threshold. *)
Theorem label_within_threshold_of_anchor (self : SlicerSoliton.t)
    (log : list SlicerSoliton.labelling) :
  (forall node, node ∈ SlicerSoliton.nodesArr self ->
     is_finite (Node.rotatedZ node) = true) ->
  (0 <=? SlicerSoliton.maxRotatedZ self)%float = true ->
  SlicerSoliton.slicer_log self = Return log ->
  forall e, e ∈ log ->
    within_anchor (SlicerSoliton.nodesArr self) (SlicerSoliton.maxRotatedZ self) e.
Proof.
  intros Hfin Hthr Hlog.
  unfold SlicerSoliton.slicer_log in Hlog. cbv zeta in Hlog.
  inv_bind Hlog. inv_bind Hlog. inv_bind Hlog. inv_bind Hlog.
  destruct a2 as [st' log']. inversion Hlog; subst log'; clear Hlog.
  set (arr := SlicerSoliton.nodesArr self) in *.
  set (thr := SlicerSoliton.maxRotatedZ self) in *.
  revert Hrun2.
  apply (for_invariant (fun t : SlicerSoliton.slicer_state * list SlicerSoliton.labelling =>
    (Node.rotatedZ <$> t.1.2 = Node.rotatedZ <$> arr /\ length t.1.2 = length arr)
    /\ forall e, e ∈ t.2 -> within_anchor arr thr e) _ _ _ (st', log)).
  - intros x [st lg] [st1 lg1] _ [[Hz Hlen] Hev] Hstep.
    unfold SlicerSoliton.slicer_step_logged in Hstep. inv_bind Hstep.
    cbn [fst snd] in *. destruct st as [[[b k] nm] arr0].
    apply slicer_step_inv in Hrun2 as (bn & cn & Hbn & Hcn & Hcase).
    cbn [snd] in *.
    assert (forall nm' : string,
      Node.rotatedZ <$> <[x := Node.setSliceName nm' cn]> arr0 = Node.rotatedZ <$> arr /\
      length (<[x := Node.setSliceName nm' cn]> arr0) = length arr) as Hkeep.
    { intros nm'. rewrite length_insert. split; [|done]. rewrite <- Hz.
      by eapply fmap_insert_same. }
    assert (SlicerSoliton.rotatedZ_at arr b = Node.rotatedZ bn) as Hzb.
    { rewrite <- (rotatedZ_at_fmap _ _ Hz). by apply rotatedZ_at_lookup. }
    assert (SlicerSoliton.rotatedZ_at arr x = Node.rotatedZ cn) as Hzx.
    { rewrite <- (rotatedZ_at_fmap _ _ Hz). by apply rotatedZ_at_lookup. }
    destruct Hcase as [[Hw ->]|[Hw ->]]; inversion Hstep; subst; clear Hstep;
      cbn [fst snd]; (split; [apply Hkeep|]);
      intros e [He| ->%list_elem_of_singleton]%elem_of_app; auto;
      unfold within_anchor; cbn [SlicerSoliton.lab_anchor SlicerSoliton.lab_vertex].
    + by rewrite Hzb, Hzx.
    + rewrite abs_sub_self; [done|].
      apply rotatedZ_at_finite; [done|]. rewrite <- Hlen.
      by eapply lookup_lt_Some.
  - cbn [fst snd]. split; [done|]. intros e He. by apply elem_of_nil in He.
Qed.

Lemma band_label_written_once_witness :
  exists self,
    SlicerSoliton.init Examples.lineVertices Examples.lineEdges Examples.up = Return self /\
    exists self' log,
      SlicerSoliton.slicer (SlicerSoliton.setSliceNameBase "slice" self) = Return self' /\
      SlicerSoliton.slicer_log (SlicerSoliton.setSliceNameBase "slice" self) = Return log /\
      forall v, v < length Examples.lineVertices ->
        exists e,
          filter (fun e => SlicerSoliton.lab_vertex e = v) log = [e] /\
          SlicerSoliton.lab_name e <> "" /\
          Node.sliceName <$> SlicerSoliton.nodesArr self' !! v
          = Some (SlicerSoliton.lab_name e).
Proof.
  eexists. split; [vm_compute; reflexivity|].
  apply (band_label_written_once Examples.lineVertices Examples.lineEdges Examples.up).
  vm_compute. reflexivity.
Defined.

Lemma label_within_threshold_of_anchor_witness :
  exists self log,
    SlicerSoliton.init Examples.lineVertices Examples.lineEdges Examples.up = Return self /\
    SlicerSoliton.slicer_log (SlicerSoliton.setSliceNameBase "slice" self) = Return log /\
    SlicerSoliton.lab_anchor <$> log = [0; 0; 2] /\
    forall e, e ∈ log ->
      within_anchor (SlicerSoliton.nodesArr (SlicerSoliton.setSliceNameBase "slice" self))
        (SlicerSoliton.maxRotatedZ (SlicerSoliton.setSliceNameBase "slice" self)) e.
Proof.
  eexists _, _. split; [vm_compute; reflexivity|].
  split; [vm_compute; reflexivity|]. split; [reflexivity|].
  apply label_within_threshold_of_anchor.
  - apply Forall_forall. repeat constructor.
  - vm_compute. reflexivity.
  - vm_compute. reflexivity.
Defined.

(** Without finite projections the bound fails, also on finite
    coordinates: on [Examples.farVertices], sliced along
    [Examples.diagonal], the threshold is the square root of three and
    the projection of vertex 2 overflows to infinity. The vertex is beyond
    the threshold of the anchor 0, opens band 1 and becomes its anchor;
    the difference between its projection and the anchor's, its own, is
    not a number, and is not at most the threshold. *)
Lemma overflowing_projection_beyond_threshold :
  exists self log e,
    Forall (fun v => is_finite (co v).1.1 && is_finite (co v).1.2 && is_finite (co v).2
                     = true) Examples.farVertices
    /\ SlicerSoliton.init Examples.farVertices Examples.farEdges Examples.diagonal
       = Return self
    /\ SlicerSoliton.slicer_log (SlicerSoliton.setSliceNameBase "slice" self) = Return log
    /\ SlicerSoliton.lab_vertex <$> log = [0; 1; 2]
    /\ log !! 2 = Some e
    /\ SlicerSoliton.lab_vertex e = 2
    /\ SlicerSoliton.lab_anchor e = 2
    /\ (0 <=? SlicerSoliton.maxRotatedZ self)%float = true
    /\ ~ within_anchor (SlicerSoliton.nodesArr (SlicerSoliton.setSliceNameBase "slice" self))
          (SlicerSoliton.maxRotatedZ (SlicerSoliton.setSliceNameBase "slice" self)) e.
Proof.
  eexists _, _, _. split; [repeat constructor|].
  split; [vm_compute; reflexivity|]. split; [vm_compute; reflexivity|].
  split; [reflexivity|]. split; [reflexivity|]. split; [reflexivity|].
  split; [reflexivity|]. split; [vm_compute; reflexivity|].
  unfold within_anchor. vm_compute. discriminate.
Qed.

(** ** Degenerate input *)

Lemma addEdge_away (edge : BpyEdge) (arr : nodes) (j : nat) :
  (vertices edge).1 < length arr -> (vertices edge).2 < length arr ->
  (vertices edge).1 <> j -> (vertices edge).2 <> j ->
  exists arr', SlicerSoliton.addEdge edge arr = Return arr' /\
               length arr' = length arr /\ arr' !! j = arr !! j.
Proof.
  unfold SlicerSoliton.addEdge. destruct (vertices edge) as [v0 v1]. simpl.
  intros H0 H1 Hn0 Hn1.
  destruct (getitem_lt arr v0 H0) as (n0 & -> & _). cbn [Py.bind].
  destruct (getitem_lt (<[v0:=Node.addNeighbourIndex v1 n0]> arr) v1) as (n1 & -> & _);
    [by rewrite length_insert|]. cbn [Py.bind].
  eexists. split; [done|]. rewrite !length_insert. split; [done|].
  by rewrite !list_lookup_insert_ne.
Qed.

Lemma buildGraph_isolated0 (vs : list BpyVertex) (es : list BpyEdge) (arr : nodes) :
  length arr = length vs -> edges_ok vs es -> isolated0 es ->
  exists arr', SlicerSoliton.buildGraph es arr = Return arr' /\
               length arr' = length vs /\ arr' !! 0 = arr !! 0.
Proof.
  intros Hlen Hok Hiso. unfold SlicerSoliton.buildGraph.
  apply (for_returns (fun t => length t = length vs /\ t !! 0 = arr !! 0));
    [|done].
  intros e t He [Hlt H0].
  unfold edges_ok, isolated0 in *. rewrite Forall_forall in Hok, Hiso.
  destruct (Hok e He) as [Ha Hb]. destruct (Hiso e He) as [Hc Hd].
  destruct (addEdge_away e t 0) as (t' & Ht' & Hlen' & H0'); try done; try lia.
  exists t'. split; [done|]. split; congruence.
Qed.

(** C8. When the vertex list is empty, the edge list is empty, or vertex 0
    has no neighbour (no edge ends at it), the graph is built and then
    the computation of the spacing unit, [cubeEdgeLengthEval], fails: it
    raises [IndexError], which is the script's error on degenerate input.
    This happens inside the constructor, so the script stops there: when
    the error is raised no node has a slice name or a sub-slice name, and
    neither [slicer] nor [sliceRunner] runs. *)
Theorem degenerate_input_fails (vs : list BpyVertex) (es : list BpyEdge)
    (npNormal : vec3) (base : string) :
  edges_ok vs es ->
  vs = [] \/ es = [] \/ isolated0 es ->
  exists arr,
    SlicerSoliton.buildGraph es (map (fun vertex => Node.init vertex npNormal) vs)
    = Return arr /\
    SlicerSoliton.cubeEdgeLengthEval arr = Raise IndexError /\
    Forall (fun node => Node.sliceName node = "" /\ Node.sliceSubSetName node = "") arr /\
    SlicerSoliton.init vs es npNormal = Raise IndexError /\
    SlicerSoliton.run vs es npNormal base = Raise IndexError.
Proof.
  intros Hok Hcase.
  assert (isolated0 es) as Hiso.
  { destruct Hcase as [->|[->|H]]; [|by constructor|done].
    destruct es as [|e es]; [by constructor|].
    apply Forall_cons in Hok as [[H _] _]. simpl in H. lia. }
  set (arr0 := map (fun vertex => Node.init vertex npNormal) vs).
  destruct (buildGraph_isolated0 vs es arr0) as (arr & Hbuild & Hlen & H0);
    [by unfold arr0; rewrite length_map|done|done|].
  assert (SlicerSoliton.cubeEdgeLengthEval arr = Raise IndexError) as Hfail.
  { unfold SlicerSoliton.cubeEdgeLengthEval, getitem at 1. rewrite H0.
    unfold arr0. destruct vs as [|v vs]; [done|]. reflexivity. }
  exists arr. split; [done|]. split; [done|]. split.
  - apply buildGraph_spec in Hbuild as [(_ & _ & _ & Hn & Hs & _) _].
    rewrite Forall_lookup. intros i node Hi.
    assert (forall {B} (f : Node.t -> B) (b : B),
      f <$> arr = f <$> arr0 ->
      (forall v, f (Node.init v npNormal) = b) -> f node = b) as Hfield.
    { intros B f b Heq Hf.
      assert ((f <$> arr) !! i = Some (f node)) as Hl by by rewrite list_lookup_fmap, Hi.
      rewrite Heq, list_lookup_fmap in Hl. unfold arr0 in Hl.
      change (map ?g vs) with (g <$> vs) in Hl. rewrite list_lookup_fmap in Hl.
      destruct (vs !! i); simpl in Hl; [|done]. inversion Hl. by rewrite Hf. }
    split; eapply Hfield; eauto.
  - assert (SlicerSoliton.init vs es npNormal = Raise IndexError) as Hinit.
    { unfold SlicerSoliton.init. cbv zeta. fold arr0. rewrite Hbuild.
      cbn [Py.bind]. by rewrite Hfail. }
    split; [done|]. unfold SlicerSoliton.run. by rewrite Hinit.
Qed.

Lemma degenerate_input_fails_witness :
  exists arr,
    SlicerSoliton.buildGraph [Examples.edge 1 2]
      (map (fun vertex => Node.init vertex Examples.up) Examples.lineVertices)
    = Return arr /\
    SlicerSoliton.cubeEdgeLengthEval arr = Raise IndexError /\
    Forall (fun node => Node.sliceName node = "" /\ Node.sliceSubSetName node = "") arr /\
    SlicerSoliton.init Examples.lineVertices [Examples.edge 1 2] Examples.up
    = Raise IndexError /\
    SlicerSoliton.run Examples.lineVertices [Examples.edge 1 2] Examples.up "slice"
    = Raise IndexError.
Proof.
  apply (degenerate_input_fails Examples.lineVertices [Examples.edge 1 2]).
  - repeat constructor.
  - right. right. repeat constructor; discriminate.
Defined.

(** ** slicesHighlighter *)

Lemma getitemZ_out_of_range {A : Type} (l : list A) (i : Z) :
  (i < - Z.of_nat (length l) \/ Z.of_nat (length l) <= i)%Z ->
  getitemZ l i = Raise IndexError.
Proof.
  intros H. unfold getitemZ.
  destruct (Z.leb_spec 0 i) as [Hi|Hi].
  - apply getitem_ge. lia.
  - destruct (Z.leb_spec (- Z.of_nat (length l)) i); [lia | done].
Qed.

Lemma getitemZ_Return_range {A : Type} (l : list A) (i : Z) (x : A) :
  getitemZ l i = Return x ->
  (- Z.of_nat (length l) <= i < Z.of_nat (length l))%Z.
Proof.
  unfold getitemZ. destruct (Z.leb_spec 0 i) as [Hi|Hi].
  - intros H%getitem_Return%lookup_lt_Some. lia.
  - destruct (Z.leb_spec (- Z.of_nat (length l)) i); [lia | done].
Qed.

(** Highlighting a list of indices that all succeed, then more. *)
Lemma highlight_some_app (subSlicesArr : list SliceSubSet.t) (pre rest : list Z)
    (vs vs' : list BpyVertex) :
  SlicerSoliton.highlight_some subSlicesArr pre vs = (Return tt, vs') ->
  SlicerSoliton.highlight_some subSlicesArr (pre ++ rest) vs
  = SlicerSoliton.highlight_some subSlicesArr rest vs'.
Proof.
  revert vs. induction pre as [|index pre IH]; simpl; intros vs H.
  - by inversion H.
  - destruct (getitemZ subSlicesArr index) as [sub|[]|]; try done.
    + destruct (SlicerSoliton.select_chain _ vs) as [[[]|e|] vs1]; try done.
      by apply IH.
    + by apply IH.
Qed.

Lemma with_bpyNodes_id (self : SlicerSoliton.t) :
  SlicerSoliton.with_bpyNodes (SlicerSoliton.initialBpyNodes self) self = self.
Proof. by destruct self. Qed.

(** A missing sub-slice index stops the loop with [IndexError], after the
    indices before it have been served. *)
Lemma highlight_some_missing (subSlicesArr : list SliceSubSet.t) (pre post : list Z)
    (index : Z) (vs vs' : list BpyVertex) :
  SlicerSoliton.highlight_some subSlicesArr pre vs = (Return tt, vs') ->
  (index < - Z.of_nat (length subSlicesArr)
   \/ Z.of_nat (length subSlicesArr) <= index)%Z ->
  SlicerSoliton.highlight_some subSlicesArr (pre ++ index :: post) vs
  = (Raise IndexError, vs').
Proof.
  intros Hpre Hout. rewrite (highlight_some_app _ _ _ _ _ Hpre). simpl.
  by rewrite getitemZ_out_of_range.
Qed.

(** The highlighter only ever sets selection flags. *)
Lemma select_chain_mono (chain : list nat) (vs : list BpyVertex) (v : nat) :
  selected vs v = true -> selected (SlicerSoliton.select_chain chain vs).2 v = true.
Proof.
  revert vs. induction chain as [|i chain IH]; intros vs Hv; [done|]. simpl.
  destruct (vs !! i) as [x|] eqn:Hi; [|done]. apply IH.
  unfold selected in *. destruct (decide (i = v)) as [->|Hne].
  - rewrite list_lookup_insert_eq; [done | by eapply lookup_lt_Some].
  - by rewrite list_lookup_insert_ne.
Qed.

Lemma highlight_some_mono (subSlicesArr : list SliceSubSet.t) (indices : list Z)
    (vs : list BpyVertex) (v : nat) :
  selected vs v = true ->
  selected (SlicerSoliton.highlight_some subSlicesArr indices vs).2 v = true.
Proof.
  revert vs. induction indices as [|i indices IH]; intros vs Hv; [done|]. simpl.
  destruct (getitemZ subSlicesArr i) as [sub|[]|]; try done; [|by apply IH].
  pose proof (select_chain_mono (SliceSubSet.reducedSlice sub) vs v Hv) as Hm.
  destruct (SlicerSoliton.select_chain _ vs) as [[[]|e|] vs1]; try done.
  by apply IH.
Qed.

(** What a loop of the highlighter has selected when it returns. *)
Lemma selects_step (P Q R : nat -> Prop) (vs vs1 vs2 : list BpyVertex) :
  selects P vs vs1 -> selects Q vs1 vs2 ->
  (forall v, R v <-> P v \/ Q v) ->
  selects R vs vs2.
Proof.
  intros [Hc1 Hs1] [Hc2 Hs2] HR. split; [congruence|].
  intros v. rewrite Hs2, Hs1, HR. tauto.
Qed.

Lemma select_chain_spec (chain : list nat) :
  forall vs vs' : list BpyVertex,
    SlicerSoliton.select_chain chain vs = (Return tt, vs') ->
    selects (fun v => v ∈ chain) vs vs'.
Proof.
  induction chain as [|i chain IH]; intros vs vs' H; cbn [SlicerSoliton.select_chain] in H.
  - injection H as <-. split; [done|]. intros v. rewrite elem_of_nil. tauto.
  - destruct (vs !! i) as [x|] eqn:Hi; [|done].
    apply (selects_step (fun v => v = i) (fun v => v ∈ chain) _ vs
             (<[i:=set_select true x]> vs) vs'); [|by apply IH|].
    + split; [by apply (fmap_insert_same _ _ _ x)|].
      intros v. unfold selected. destruct (decide (i = v)) as [->|Hne].
      * rewrite list_lookup_insert_eq by (by eapply lookup_lt_Some). cbn. tauto.
      * rewrite list_lookup_insert_ne by done. split; [tauto|]. by intros [?|?].
    + intros v. by rewrite elem_of_cons.
Qed.

Lemma highlight_all_spec (subSlicesArr : list SliceSubSet.t) :
  forall vs vs' : list BpyVertex,
    SlicerSoliton.highlight_all subSlicesArr vs = (Return tt, vs') ->
    selects (fun v => exists sub, sub ∈ subSlicesArr /\ v ∈ SliceSubSet.reducedSlice sub)
      vs vs'.
Proof.
  induction subSlicesArr as [|sub subs IH]; intros vs vs' H;
    cbn [SlicerSoliton.highlight_all] in H.
  - injection H as <-. split; [done|]. intros v. split; [tauto|].
    intros [?|(sub & Hsub & _)]; [done|]. by apply elem_of_nil in Hsub.
  - destruct (SlicerSoliton.select_chain (SliceSubSet.reducedSlice sub) vs)
      as [[[]|e|] vs1] eqn:Hsel; try done.
    apply (selects_step _ _ _ vs vs1 vs' (select_chain_spec _ _ _ Hsel) (IH _ _ H)).
    intros v. split.
    + intros (s & Hs & Hv). apply elem_of_cons in Hs as [->|Hs]; [by left|].
      right. by exists s.
    + intros [Hv|(s & Hs & Hv)]; [exists sub | exists s]; (split; [|done]);
        [by left | by right].
Qed.

Lemma highlight_some_spec (subSlicesArr : list SliceSubSet.t) (indices : list Z) :
  forall vs vs' : list BpyVertex,
    SlicerSoliton.highlight_some subSlicesArr indices vs = (Return tt, vs') ->
    selects (fun v => exists index sub,
               index ∈ indices /\ getitemZ subSlicesArr index = Return sub
               /\ v ∈ SliceSubSet.reducedSlice sub) vs vs'.
Proof.
  induction indices as [|i indices IH]; intros vs vs' H;
    cbn [SlicerSoliton.highlight_some] in H.
  - injection H as <-. split; [done|]. intros v. split; [tauto|].
    intros [?|(i & s & Hi & _)]; [done|]. by apply elem_of_nil in Hi.
  - destruct (getitemZ subSlicesArr i) as [sub|[]|] eqn:Hget; try done.
    + destruct (SlicerSoliton.select_chain (SliceSubSet.reducedSlice sub) vs)
        as [[[]|e|] vs1] eqn:Hsel; try done.
      apply (selects_step _ _ _ vs vs1 vs' (select_chain_spec _ _ _ Hsel) (IH _ _ H)).
      intros v. split.
      * intros (j & s & Hj & Hs & Hv). apply elem_of_cons in Hj as [->|Hj].
        -- left. rewrite Hget in Hs. by injection Hs as <-.
        -- right. by exists j, s.
      * intros [Hv|(j & s & Hj & Hs & Hv)]; [exists i, sub | exists j, s];
          (split; [|done]); [by left | by right].
    + destruct (IH _ _ H) as [Hc Hs]. split; [done|]. intros v. rewrite Hs.
      split; (intros [?|(j & s & Hj & Hjs & Hv)]; [by left|right]).
      * exists j, s. split; [by right|done].
      * apply elem_of_cons in Hj as [->|Hj]; [congruence|]. by exists j, s.
Qed.

(** C3 (as amended). A band index outside the produced bands (counting
    Python's negative indices) makes [slicesHighlighter] raise
    [IndexError] with the object unchanged. Sub-slice indices are served
    in the order requested, each chain being selected before the next
    index is looked up: whatever happens at an index, once the indices
    before it have been served, the vertices of the reduced chains of the
    sub-slices requested before it are selected when the call ends, and
    so is every vertex that was selected when the index was reached. *)
Theorem highlighter_index_errors (self : SlicerSoliton.t) (sliceIndex : Z)
    (subSlicesIndices : list Z) :
  ((sliceIndex < - Z.of_nat (length (SlicerSoliton.subSlicesDict self))
    \/ Z.of_nat (length (SlicerSoliton.subSlicesDict self)) <= sliceIndex)%Z ->
   SlicerSoliton.slicesHighlighter self sliceIndex subSlicesIndices
   = (Raise IndexError, self))
  /\
  (forall (key : string) (subSlicesArr : list SliceSubSet.t) (pre post : list Z)
          (index : Z) (vs : list BpyVertex),
     getitemZ (map fst (SlicerSoliton.subSlicesDict self)) sliceIndex = Return key ->
     SlicerSoliton.dict_get (SlicerSoliton.subSlicesDict self) key = Return subSlicesArr ->
     subSlicesIndices = pre ++ index :: post ->
     SlicerSoliton.highlight_some subSlicesArr pre (SlicerSoliton.initialBpyNodes self)
     = (Return tt, vs) ->
     (forall (j : Z) (sub : SliceSubSet.t) (v : nat),
        j ∈ pre -> getitemZ subSlicesArr j = Return sub ->
        v ∈ SliceSubSet.reducedSlice sub ->
        selected (SlicerSoliton.initialBpyNodes
                    (SlicerSoliton.slicesHighlighter self sliceIndex subSlicesIndices).2) v
        = true)
     /\ (forall v : nat,
           selected vs v = true ->
           selected (SlicerSoliton.initialBpyNodes
                       (SlicerSoliton.slicesHighlighter self sliceIndex subSlicesIndices).2) v
           = true)).
Proof.
  split.
  - intros Hout. unfold SlicerSoliton.slicesHighlighter.
    rewrite getitemZ_out_of_range; [done|]. by rewrite length_map.
  - intros key subSlicesArr pre post index vs Hkey Harr -> Hpre.
    assert (forall v : nat,
      selected vs v = true ->
      selected (SlicerSoliton.initialBpyNodes
                  (SlicerSoliton.slicesHighlighter self sliceIndex (pre ++ index :: post)).2) v
      = true) as Hkept.
    { intros v Hv. unfold SlicerSoliton.slicesHighlighter. rewrite Hkey, Harr.
      pose proof (highlight_some_app _ _ (index :: post) _ _ Hpre) as Happ.
      pose proof (highlight_some_mono subSlicesArr (index :: post) vs v Hv) as Hmono.
      rewrite <- Happ in Hmono. revert Hmono.
      destruct (pre ++ index :: post) as [|z l] eqn:Heq; [by destruct pre|].
      clear Happ.
      destruct (SlicerSoliton.highlight_some subSlicesArr (z :: l) _) as [r b].
      exact (fun H => H). }
    split; [|done].
    intros j sub v Hj Hsub Hv. apply Hkept.
    destruct (highlight_some_spec _ _ _ _ Hpre) as [_ Hsel].
    apply Hsel. right. by exists j, sub.
Qed.

Lemma highlighter_index_errors_witness :
  exists self sub,
    Examples.lineSlicer = Return self /\
    SlicerSoliton.slicesHighlighter self 2 [] = (Raise IndexError, self) /\
    SlicerSoliton.dict_get (SlicerSoliton.subSlicesDict self) "slice0" = Return [sub] /\
    1 ∈ SliceSubSet.reducedSlice sub /\
    selected (SlicerSoliton.initialBpyNodes self) 1 = false /\
    selected (SlicerSoliton.initialBpyNodes
                (SlicerSoliton.slicesHighlighter self 0 [0; 5]%Z).2) 1 = true.
Proof.
  let t := eval vm_compute in Examples.lineSlicer in
  lazymatch t with Return ?x => pose (self := x) end.
  let t := eval vm_compute in
    (SlicerSoliton.dict_get (SlicerSoliton.subSlicesDict self) "slice0") in
  lazymatch t with Return [?x] => pose (sub := x) end.
  exists self, sub. split; [vm_compute; reflexivity|].
  split.
  { apply (highlighter_index_errors self 2 []). right. vm_compute. discriminate. }
  split; [vm_compute; reflexivity|].
  split; [by left|]. split; [reflexivity|].
  let t := eval vm_compute in
    (SlicerSoliton.highlight_some [sub] [0%Z] (SlicerSoliton.initialBpyNodes self)) in
  lazymatch t with (_, ?x) => pose (vs := x) end.
  apply (proj1 (proj2 (highlighter_index_errors self 0 [0; 5]%Z)
                  "slice0" [sub] [0%Z] [] 5%Z vs eq_refl eq_refl eq_refl eq_refl)
           0%Z sub 1).
  - by left.
  - reflexivity.
  - by left.
Defined.

(** On the line mesh, after the whole script has run, a request for the
    sub-slices 0 and 5 of band 0 raises [IndexError] at the missing index 5
    only after the chain of sub-slice 0 has been selected: vertex 1 is
    selected when the error is raised, so the object is not unchanged. *)
Lemma highlighter_selects_before_error :
  exists self self' sub,
    Examples.lineSlicer = Return self /\
    SlicerSoliton.dict_get (SlicerSoliton.subSlicesDict self) "slice0" = Return [sub] /\
    SlicerSoliton.slicesHighlighter self 0 [0; 5]%Z = (Raise IndexError, self') /\
    select <$> SlicerSoliton.initialBpyNodes self = [false; false; false] /\
    select <$> SlicerSoliton.initialBpyNodes self' = [false; true; false] /\
    self' <> self.
Proof.
  eexists _, _, _. split; [vm_compute; reflexivity|].
  split; [vm_compute; reflexivity|].
  split; [vm_compute; reflexivity|].
  split; [reflexivity|]. split; [reflexivity|].
  intros H. by apply (f_equal (fun s => select <$> SlicerSoliton.initialBpyNodes s)) in H.
Qed.

(** ** bfs *)

Lemma same_but_subSetName_refl (arr : nodes) : same_but_subSetName arr arr.
Proof. by repeat split. Qed.

Lemma same_but_subSetName_trans (a b c : nodes) :
  same_but_subSetName a b -> same_but_subSetName b c -> same_but_subSetName a c.
Proof.
  unfold same_but_subSetName.
  intros (?&?&?&?&?) (?&?&?&?&?). repeat split; congruence.
Qed.

Lemma same_but_subSetName_insert (arr : nodes) (i : nat) (node : Node.t) (name : string) :
  arr !! i = Some node ->
  same_but_subSetName arr (<[i := Node.setSliceSubSetName name node]> arr).
Proof.
  intros Hi. unfold same_but_subSetName. rewrite length_insert.
  repeat split; by eapply fmap_insert_same.
Qed.

Lemma grown_refl (self : SliceSubSet.t) : grown self self.
Proof. repeat split. exists []. by rewrite app_nil_r. Qed.

Lemma grown_trans (a b c : SliceSubSet.t) : grown a b -> grown b c -> grown a c.
Proof.
  unfold grown. intros (?&?&?&?&?&m1&Hm1) (?&?&?&?&?&m2&Hm2).
  repeat split; try congruence.
  exists (m1 ++ m2). by rewrite Hm2, Hm1, app_assoc.
Qed.

Lemma grown_addNode (self : SliceSubSet.t) (i : nat) :
  grown self (SliceSubSet.addNode i self).
Proof. repeat split. by exists [i]. Qed.

(** The two ways the body of the inner loop can go. *)
Lemma bfs_visit_inv (j : nat) (self self' : SliceSubSet.t) (q q' : list nat)
    (arr arr' : nodes) :
  SliceSubSet.bfs_visit j (self, q, arr) = Return (self', q', arr') ->
  exists node, arr !! j = Some node /\
    ((self', q', arr') = (self, q, arr)
     \/ (Node.sliceSubSetName node = ""
         /\ Node.sliceName node = SliceSubSet.sliceName self
         /\ self' = SliceSubSet.addNode j self
         /\ q' = q ++ [j]
         /\ arr' = <[j := Node.setSliceSubSetName (SliceSubSet.ownName self) node]> arr)).
Proof.
  unfold SliceSubSet.bfs_visit. intros H. inv_bind H.
  apply getitem_Return in Hrun. exists a. split; [done|].
  unfold truthy in H. rewrite negb_involutive in H.
  destruct (bool_decide_reflect (Node.sliceSubSetName a = "")) as [He|He];
    destruct (bool_decide_reflect (Node.sliceName a = SliceSubSet.sliceName self)) as [Hs|Hs];
    simpl in H; inversion H; subst; auto.
  right. done.
Qed.

Lemma bfs_visit_keeps (j : nat) (st st' : SliceSubSet.bfs_state) :
  SliceSubSet.bfs_visit j st = Return st' ->
  grown st.1.1 st'.1.1 /\ same_but_subSetName st.2 st'.2.
Proof.
  destruct st as [[self q] arr], st' as [[self' q'] arr']. intros H.
  apply bfs_visit_inv in H as (node & Hnode & [H|(_ & _ & -> & -> & ->)]).
  - inversion H; subst. split; [apply grown_refl | apply same_but_subSetName_refl].
  - split; [apply grown_addNode | by apply same_but_subSetName_insert].
Qed.

Lemma bfs_while_keeps (fuel : nat) (st st' : SliceSubSet.bfs_state) :
  SliceSubSet.bfs_while fuel st = Return st' ->
  grown st.1.1 st'.1.1 /\ same_but_subSetName st.2 st'.2.
Proof.
  revert st. induction fuel as [|fuel IH]; intros [[self q] arr] H.
  - simpl in H. destruct q; [|done]. inversion H; subst.
    split; [apply grown_refl | apply same_but_subSetName_refl].
  - simpl in H. destruct q as [|i q].
    { inversion H; subst. split; [apply grown_refl | apply same_but_subSetName_refl]. }
    inv_bind H. inv_bind H.
    apply IH in H as [Hg Hs].
    assert (grown self a0.1.1 /\ same_but_subSetName arr a0.2) as [Hg0 Hs0].
    { revert Hrun0.
      apply (for_invariant (fun t : SliceSubSet.bfs_state =>
               grown self t.1.1 /\ same_but_subSetName arr t.2)).
      - intros x t t' _ [Hg1 Hs1] Hstep. apply bfs_visit_keeps in Hstep as [Hg2 Hs2].
        split; [by eapply grown_trans | by eapply same_but_subSetName_trans].
      - split; [apply grown_refl | apply same_but_subSetName_refl]. }
    split; [by eapply grown_trans | by eapply same_but_subSetName_trans].
Qed.

(** What [bfs] returns: the sub-slice with the initial node and then the
    discovered nodes appended to its node list, and nodes that differ from
    the given ones in sub-slice names only. *)
Lemma bfs_keeps (self self' : SliceSubSet.t) (i : nat) (arr arr' : nodes) :
  SliceSubSet.bfs self i arr = Return (self', arr') ->
  grown self self'
  /\ (exists more, SliceSubSet.sliceSubSetNodes self'
                   = SliceSubSet.sliceSubSetNodes self ++ i :: more)
  /\ same_but_subSetName arr arr'
  /\ i < length arr.
Proof.
  unfold SliceSubSet.bfs. intros H. inv_bind H. inv_bind H.
  destruct a0 as [[s q] arr1]. inversion H; subst; clear H.
  apply getitem_Return in Hrun.
  apply bfs_while_keeps in Hrun0 as [Hg Hs]. cbn [fst snd] in *.
  split; [by eapply grown_trans; [apply (grown_addNode _ i)|]|].
  split.
  - destruct Hg as (_&_&_&_&_&more&Hm). exists more.
    rewrite Hm. simpl. by rewrite <- app_assoc.
  - split; [|by eapply lookup_lt_Some].
    eapply same_but_subSetName_trans; [|exact Hs].
    by apply same_but_subSetName_insert.
Qed.

(** ** reducer *)

Tactic Notation "bind_inv" hyp(H) "as" simple_intropattern(a) simple_intropattern(Ha) :=
  apply bind_Return_inv in H as (a & Ha & H).

Lemma same_but_visited_refl (arr : nodes) : same_but_visited arr arr.
Proof. by repeat split. Qed.

Lemma same_but_visited_trans (a b c : nodes) :
  same_but_visited a b -> same_but_visited b c -> same_but_visited a c.
Proof.
  unfold same_but_visited.
  intros (?&?&?&?&?) (?&?&?&?&?). repeat split; congruence.
Qed.

Lemma same_but_visited_insert (arr : nodes) (i : nat) (node : Node.t) :
  arr !! i = Some node ->
  same_but_visited arr (<[i := Node.markAsVisited node]> arr).
Proof.
  intros Hi. unfold same_but_visited. rewrite length_insert.
  repeat split; by eapply fmap_insert_same.
Qed.

Lemma visited_at_insert (arr : nodes) (i j : nat) (node : Node.t) :
  arr !! i = Some node ->
  visited_at (<[i := Node.markAsVisited node]> arr) j
  = if decide (i = j) then true else visited_at arr j.
Proof.
  intros Hi. unfold visited_at. destruct (decide (i = j)) as [<-|Hne].
  - rewrite list_lookup_insert_eq; [done | by eapply lookup_lt_Some].
  - by rewrite list_lookup_insert_ne.
Qed.

Lemma reduced_by_refl (self : SliceSubSet.t) : reduced_by [] self self.
Proof. repeat split. by rewrite app_nil_r. Qed.

Lemma reduced_by_trans (l1 l2 : list nat) (a b c : SliceSubSet.t) :
  reduced_by l1 a b -> reduced_by l2 b c -> reduced_by (l1 ++ l2) a c.
Proof.
  unfold reduced_by. intros (?&?&?&?&?&Hfst) (?&?&?&?&?&Hsnd).
  repeat split; try congruence. by rewrite Hsnd, Hfst, app_assoc.
Qed.

Lemma reduced_by_add (self : SliceSubSet.t) (i : nat) :
  reduced_by [i] self (SliceSubSet.addToReducedSlice i self).
Proof. by repeat split. Qed.

(** The ways the body of the second loop can go: a visited node is
    skipped; an unvisited one is marked, and it is appended to the reduced
    slice exactly when it has candidates and the strategy picks another
    index than its own among the candidates and itself. *)
Lemma reduce_node_inv (s : SliceSubSet.strategy) (m : nat)
    (self self' : SliceSubSet.t) (arr arr' : nodes) :
  SliceSubSet.reduce_node s m (self, arr) = Return (self', arr') ->
  exists node, arr !! m = Some node /\
    ((Node.visited node = true /\ self' = self /\ arr' = arr)
     \/
     (Node.visited node = false
      /\ arr' = <[m := Node.markAsVisited node]> arr
      /\ exists cs,
           SliceSubSet.candidates (SliceSubSet.ownName self) arr'
             (Node.neighboursIndices node) = Return cs
           /\ ((cs = [] /\ self' = self)
               \/ (cs <> [] /\ exists ks r,
                     SliceSubSet.keyed arr' (cs ++ [m]) = Return ks
                     /\ SliceSubSet.apply_strategy s ks = Return r
                     /\ ((r = m /\ self' = self)
                         \/ (r <> m /\ self' = SliceSubSet.addToReducedSlice m self)))))).
Proof.
  unfold SliceSubSet.reduce_node. intros H. bind_inv H as node Hnode.
  apply getitem_Return in Hnode. exists node. split; [done|].
  destruct (Node.visited node) eqn:Hv; simpl in H.
  { left. by inversion H. }
  right. split; [done|]. bind_inv H as cs Hcs.
  destruct (bool_decide_reflect (length cs = 0)) as [Hc|Hc]; simpl in H.
  { inversion H; subst. split; [done|]. exists cs. split; [done|].
    left. split; [by apply length_zero_iff_nil | done]. }
  bind_inv H as ks Hks. bind_inv H as r Hr.
  assert (cs <> []) as Hne by (intros ->; done).
  destruct (bool_decide_reflect (r = m)) as [Hrm|Hrm]; simpl in H;
    injection H as <- <-; (split; [done|]); exists cs; (split; [done|]);
    right; (split; [done|]); exists ks, r; auto 6.
Qed.

(** The second loop appends a sublist of the nodes it goes through, all of
    them unvisited when it starts, and marks nodes visited. *)
Lemma reduce_loop_spec (s : SliceSubSet.strategy) (ms : list nat) :
  forall (self self' : SliceSubSet.t) (arr arr' : nodes),
    for_ (SliceSubSet.reduce_node s) ms (self, arr) = Return (self', arr') ->
    exists more,
      reduced_by more self self'
      /\ sublist more ms
      /\ Forall (fun m => visited_at arr m = false) more
      /\ same_but_visited arr arr'
      /\ (forall j, visited_at arr j = true -> visited_at arr' j = true).
Proof.
  induction ms as [|m ms IH]; intros self self' arr arr' H.
  - inversion H; subst. exists []. split; [apply reduced_by_refl|].
    split; [done|]. split; [done|]. split; [apply same_but_visited_refl | done].
  - simpl in H. inv_bind H. destruct a as [self1 arr1].
    apply IH in H as (more & Hred & Hsub & Hunv & Hsame & Hmono).
    apply reduce_node_inv in Hrun as (node & Hnode & Hcase).
    assert (forall j, visited_at arr j = true -> visited_at arr1 j = true) as Hmono1.
    { destruct Hcase as [(_ & _ & ->)|(_ & -> & _)]; [done|].
      intros j Hj. rewrite (visited_at_insert _ _ _ _ Hnode). by case_decide. }
    assert (same_but_visited arr arr1) as Hsame1.
    { destruct Hcase as [(_ & _ & ->)|(_ & -> & _)];
        [apply same_but_visited_refl | by apply same_but_visited_insert]. }
    assert (Forall (fun j => visited_at arr j = false) more) as Hunv0.
    { eapply Forall_impl; [exact Hunv|]. intros j Hj. simpl in Hj.
      destruct (visited_at arr j) eqn:E; [|done]. by rewrite (Hmono1 j E) in Hj. }
    assert (self1 = self \/
            (self1 = SliceSubSet.addToReducedSlice m self /\ visited_at arr m = false))
      as [->|[-> Hm]].
    { destruct Hcase as [(_ & -> & _)|(Hv & _ & cs & _ & [[_ ->]|(_ & ks & r & _ & _ & [[_ ->]|[_ ->]])])];
        auto. right. split; [done|]. unfold visited_at. by rewrite Hnode. }
    + exists more. split; [done|]. split; [by apply sublist_cons|].
      split; [done|]. split; [by apply (same_but_visited_trans _ arr1) | auto].
    + exists (m :: more). split; [eapply (reduced_by_trans [m] more); [apply reduced_by_add | done]|].
      split; [by apply sublist_skip|]. split; [by constructor|].
      split; [by apply (same_but_visited_trans _ arr1) | auto].
Qed.

(** What [reducer] returns: the initial node and then a sublist of the
    nodes of the sub-slice are appended to the reduced slice. *)
Lemma reducer_spec (self self' : SliceSubSet.t) (arr arr' : nodes) :
  SliceSubSet.reducer self arr = Return (self', arr') ->
  exists more,
    reduced_by (SliceSubSet.initialNodeIndex self :: more) self self'
    /\ sublist more (SliceSubSet.sliceSubSetNodes self)
    /\ Forall (fun m => visited_at arr m = false) more
    /\ same_but_visited arr arr'
    /\ (forall j, visited_at arr j = true -> visited_at arr' j = true).
Proof.
  unfold SliceSubSet.reducer. intros H. inv_bind H. inv_bind H.
  apply reduce_loop_spec in H as (more & Hred & Hsub & Hunv & Hsame & Hmono).
  exists more. split; [|done].
  apply (reduced_by_trans [SliceSubSet.initialNodeIndex self] more _ _ _
           (reduced_by_add self _) Hred).
Qed.

(** ** The dictionary of sub-slices *)

Lemma dict_lookup_elem (d : SlicerSoliton.subSlices) (key : string)
    (l : list SliceSubSet.t) :
  SlicerSoliton.dict_lookup d key = Some l -> (key, l) ∈ d.
Proof.
  induction d as [|[k v] d IH]; simpl; [done|].
  case_bool_decide as Hk.
  - intros [= ->]. subst. by left.
  - intros H. right. by apply IH.
Qed.

Lemma dict_get_elem (d : SlicerSoliton.subSlices) (key : string)
    (l : list SliceSubSet.t) :
  SlicerSoliton.dict_get d key = Return l -> (key, l) ∈ d.
Proof.
  unfold SlicerSoliton.dict_get.
  destruct (SlicerSoliton.dict_lookup d key) eqn:E; [|done].
  intros [= ->]. by apply dict_lookup_elem.
Qed.

Lemma dict_replace_elem (d : SlicerSoliton.subSlices) (key name : string)
    (v subs : list SliceSubSet.t) :
  (name, subs) ∈ SlicerSoliton.dict_replace d key v ->
  (name, subs) ∈ d \/ (name = key /\ subs = v).
Proof.
  induction d as [|[k v0] d IH]; simpl; [by left|].
  case_bool_decide as Hk.
  - intros [[= -> ->]|H]%elem_of_cons; [by right | left; by right].
  - intros [[= -> ->]|H]%elem_of_cons; [left; by left|].
    destruct (IH H) as [?|?]; [left; by right | by right].
Qed.

Lemma dict_Forall_initiate (P : SliceSubSet.t -> Prop) (node : Node.t)
    (d : SlicerSoliton.subSlices) :
  dict_Forall P d -> dict_Forall P (SlicerSoliton.initiateNewSubSlicesList node d).
Proof.
  unfold SlicerSoliton.initiateNewSubSlicesList, dict_Forall. intros Hd.
  destruct (SlicerSoliton.dict_lookup d (Node.sliceName node)); [done|].
  intros name subs sub [H|H]%elem_of_app Hsub; [by eapply Hd|].
  apply list_elem_of_singleton in H as [= -> ->]. by apply elem_of_nil in Hsub.
Qed.

Lemma dict_Forall_append (P : SliceSubSet.t -> Prop) (sub : SliceSubSet.t)
    (d d' : SlicerSoliton.subSlices) :
  dict_Forall P d -> P sub ->
  SlicerSoliton.appendNewSubSlice sub d = Return d' -> dict_Forall P d'.
Proof.
  unfold SlicerSoliton.appendNewSubSlice, dict_Forall. intros Hd Hsub H.
  bind_inv H as l Hl. injection H as <-. apply dict_get_elem in Hl.
  intros name subs s [Hin|[-> ->]]%dict_replace_elem Hs; [by eapply Hd|].
  apply elem_of_app in Hs as [Hs| ->%list_elem_of_singleton]; [by eapply Hd | done].
Qed.

(** ** sliceRunner *)

Lemma newSubSlice_inv (currentNode : Node.t) (nodeIndex : nat) (arr arr' : nodes)
    (d d' : SlicerSoliton.subSlices) :
  SlicerSoliton.newSubSlice currentNode nodeIndex (arr, d) = Return (arr', d') ->
  exists l sub1 arr1 sub2,
    SlicerSoliton.dict_get d (Node.sliceName currentNode) = Return l
    /\ SliceSubSet.bfs (SliceSubSet.init currentNode nodeIndex (length l)) nodeIndex arr
       = Return (sub1, arr1)
    /\ SliceSubSet.reducer sub1 arr1 = Return (sub2, arr')
    /\ SlicerSoliton.appendNewSubSlice sub2 d = Return d'.
Proof.
  unfold SlicerSoliton.newSubSlice. intros H.
  bind_inv H as l Hl. bind_inv H as [sub1 arr1] Hbfs.
  bind_inv H as [sub2 arr2] Hred. bind_inv H as d2 Happ.
  injection H as <- <-. by exists l, sub1, arr1, sub2.
Qed.

Lemma sliceRunner_step_inv (nodeIndex : nat) (arr arr' : nodes)
    (d d' : SlicerSoliton.subSlices) :
  SlicerSoliton.sliceRunner_step nodeIndex (arr, d) = Return (arr', d') ->
  exists currentNode,
    arr !! nodeIndex = Some currentNode /\
    ((arr' = arr /\ d' = SlicerSoliton.initiateNewSubSlicesList currentNode d)
     \/ (Node.sliceSubSetName currentNode = ""
         /\ SlicerSoliton.borders_other_slice currentNode arr
              (Node.neighboursIndices currentNode) = Return true
         /\ SlicerSoliton.newSubSlice currentNode nodeIndex
              (arr, SlicerSoliton.initiateNewSubSlicesList currentNode d)
            = Return (arr', d'))).
Proof.
  unfold SlicerSoliton.sliceRunner_step. intros H.
  bind_inv H as cur Hcur. apply getitem_Return in Hcur.
  exists cur. split; [done|].
  unfold truthy in H. rewrite negb_involutive in H.
  case_bool_decide as Hname; [|injection H as <- <-; by left].
  bind_inv H as b Hb. destruct b; [by right | injection H as <- <-; by left].
Qed.

(** The pass keeps an invariant of the nodes and a property of the stored
    sub-slices that every creation of a sub-slice keeps. *)
Lemma sliceRunner_invariant (I : nodes -> Prop) (P : SliceSubSet.t -> Prop) :
  (forall currentNode nodeIndex k arr sub1 arr1 sub2 arr2,
     I arr -> arr !! nodeIndex = Some currentNode ->
     Node.sliceSubSetName currentNode = "" ->
     SliceSubSet.bfs (SliceSubSet.init currentNode nodeIndex k) nodeIndex arr
     = Return (sub1, arr1) ->
     SliceSubSet.reducer sub1 arr1 = Return (sub2, arr2) ->
     I arr2 /\ P sub2) ->
  forall xs arr d arr' d',
    I arr -> dict_Forall P d ->
    for_ SlicerSoliton.sliceRunner_step xs (arr, d) = Return (arr', d') ->
    I arr' /\ dict_Forall P d'.
Proof.
  intros Hnew xs arr d arr' d' HI HP.
  apply (for_invariant (fun t : nodes * SlicerSoliton.subSlices =>
           I t.1 /\ dict_Forall P t.2) _ _ (arr, d) (arr', d')); [|done].
  intros x [a1 d1] [a2 d2] _ [HI1 HP1] Hstep. cbn [fst snd] in *.
  apply sliceRunner_step_inv in Hstep as (cur & Hcur & [[-> ->]|(Hname & _ & Hstep)]).
  - split; [done | by apply dict_Forall_initiate].
  - apply newSubSlice_inv in Hstep as (l & sub1 & arr1 & sub2 & _ & Hbfs & Hred & Happ).
    destruct (Hnew _ _ _ _ _ _ _ _ HI1 Hcur Hname Hbfs Hred) as [HI2 HP2].
    split; [done|].
    eapply dict_Forall_append; [|exact HP2|exact Happ].
    by apply dict_Forall_initiate.
Qed.

(** A sub-slice that [bfs] filled and [reducer] reduced, starting from a
    fresh one, has a chain of its own nodes that starts at its initial
    node. *)
Lemma fresh_chain_ok (currentNode : Node.t) (nodeIndex k : nat)
    (arr arr1 arr2 : nodes) (sub1 sub2 : SliceSubSet.t) :
  SliceSubSet.bfs (SliceSubSet.init currentNode nodeIndex k) nodeIndex arr
  = Return (sub1, arr1) ->
  SliceSubSet.reducer sub1 arr1 = Return (sub2, arr2) ->
  chain_ok sub2.
Proof.
  intros Hbfs Hred.
  apply bfs_keeps in Hbfs as ((_ & _ & Hinit & Hchain & _ & _) & (more & Hnodes) & _).
  apply reducer_spec in Hred as (l & (_ & _ & Hinit' & Hnodes' & _ & Hchain') & Hsub & _).
  simpl in *. rewrite Hchain, Hinit in Hchain'. simpl in Hchain'.
  unfold chain_ok. rewrite Hchain', Hnodes', Hnodes, Hinit', Hinit. simpl.
  split; [|done].
  intros x [->|Hx]%elem_of_cons; [by left|].
  apply (elem_of_sublist _ _ _ Hx) in Hsub. by rewrite Hnodes in Hsub.
Qed.

(** C5. After the partition-and-reduce pass on a freshly constructed and
    sliced object, every sub-slice it has stored has a reduced chain made
    of nodes of that sub-slice, and the chain starts with the sub-slice's
    seed (its initial node). *)
Theorem reduced_chain_within_members (self self' : SlicerSoliton.t) :
  SlicerSoliton.subSlicesDict self = [] ->
  SlicerSoliton.sliceRunner self = Return self' ->
  forall name subs sub,
    (name, subs) ∈ SlicerSoliton.subSlicesDict self' -> sub ∈ subs ->
    SliceSubSet.reducedSlice sub ⊆ SliceSubSet.sliceSubSetNodes sub
    /\ head (SliceSubSet.reducedSlice sub) = Some (SliceSubSet.initialNodeIndex sub).
Proof.
  intros Hempty Hrun. unfold SlicerSoliton.sliceRunner in Hrun.
  bind_inv Hrun as [arr' d'] Hloop. injection Hrun as <-. simpl.
  rewrite Hempty in Hloop.
  apply (sliceRunner_invariant (fun _ => True) chain_ok) in Hloop as [_ H]; [done| |done|].
  - intros cur i k arr sub1 arr1 sub2 arr2 _ _ _ Hbfs Hred.
    split; [done | by eapply fresh_chain_ok].
  - intros name subs sub Hin. by apply elem_of_nil in Hin.
Qed.

Lemma reduced_chain_within_members_witness :
  exists self self',
    Examples.lineSliced = Return self /\
    SlicerSoliton.sliceRunner self = Return self' /\
    forall name subs sub,
      (name, subs) ∈ SlicerSoliton.subSlicesDict self' -> sub ∈ subs ->
      SliceSubSet.reducedSlice sub ⊆ SliceSubSet.sliceSubSetNodes sub
      /\ head (SliceSubSet.reducedSlice sub) = Some (SliceSubSet.initialNodeIndex sub).
Proof.
  eexists _, _. split; [vm_compute; reflexivity|].
  lazymatch goal with
  | |- SlicerSoliton.sliceRunner ?s = _ /\ _ =>
      split; [vm_compute; reflexivity
             | apply (reduced_chain_within_members s); vm_compute; reflexivity]
  end.
Defined.

(** ** Candidates *)

Lemma candidates_spec (own : string) (arr : nodes) (neighbours : list nat) :
  Forall (fun i => i < length arr) neighbours ->
  SliceSubSet.candidates own arr neighbours
  = Return (filter (fun i => subSetName_at arr i <> own) neighbours).
Proof.
  induction neighbours as [|i l IH]; intros Hl; [done|].
  apply Forall_cons in Hl as [Hi Hl]. simpl.
  destruct (getitem_lt arr i Hi) as (node & -> & Hnode). cbn [Py.bind].
  rewrite (IH Hl). cbn [Py.bind]. rewrite filter_cons.
  assert (subSetName_at arr i = Node.sliceSubSetName node) as Hs
    by (unfold subSetName_at; by rewrite Hnode).
  case_bool_decide; case_decide; rewrite Hs in *; done.
Qed.




(** ** Reducing again *)

Lemma choose_strategy_total (currentNode : Node.t) (arr : nodes) (neighbours : list nat) :
  Forall (fun i => i < length arr) neighbours ->
  exists s, SliceSubSet.choose_strategy currentNode arr neighbours = Return s.
Proof.
  induction neighbours as [|i l IH]; intros Hl; [by exists SliceSubSet.Max|].
  apply Forall_cons in Hl as [Hi Hl]. simpl.
  destruct (getitem_lt arr i Hi) as (node & -> & _). cbn [Py.bind].
  destruct (_ && _); [by exists SliceSubSet.Min | by apply IH].
Qed.

Lemma reduce_loop_visited (s : SliceSubSet.strategy) (ms : list nat)
    (sub : SliceSubSet.t) (arr : nodes) :
  Forall (fun m => visited_at arr m = true) ms ->
  for_ (SliceSubSet.reduce_node s) ms (sub, arr) = Return (sub, arr).
Proof.
  induction ms as [|m ms IH]; intros Hms; [done|].
  apply Forall_cons in Hms as [Hm Hms]. simpl.
  unfold SliceSubSet.reduce_node at 1, getitem. unfold visited_at in Hm.
  destruct (arr !! m) as [node|]; [|done]. cbn [Py.bind]. rewrite Hm.
  cbn [negb Py.bind]. by apply IH.
Qed.

(** C2 (as amended). Running the reducer again on a sub-slice whose nodes
    are all marked visited appends the seed (the initial node index) once
    more to the reduced chain and nothing else: no other index is added,
    and no node changes. *)
Theorem reducer_again_appends_seed (sub : SliceSubSet.t) (arr : nodes) :
  graph_ok arr ->
  SliceSubSet.initialNodeIndex sub < length arr ->
  Forall (fun m => visited_at arr m = true) (SliceSubSet.sliceSubSetNodes sub) ->
  exists sub',
    SliceSubSet.reducer sub arr = Return (sub', arr)
    /\ reduced_by [SliceSubSet.initialNodeIndex sub] sub sub'.
Proof.
  intros Hok Hseed Hvis. unfold SliceSubSet.reducer.
  destruct (getitem_lt arr _ Hseed) as (node & -> & Hnode). cbn [Py.bind].
  destruct (choose_strategy_total node arr (Node.neighboursIndices node)) as [s ->].
  { rewrite Forall_forall. intros j Hj. by eapply graph_ok_lookup. }
  cbn [Py.bind]. eexists. split; [by apply reduce_loop_visited|].
  apply reduced_by_add.
Qed.

Lemma reducer_again_appends_seed_witness :
  exists self sub,
    Examples.lineSlicer = Return self /\
    SlicerSoliton.dict_get (SlicerSoliton.subSlicesDict self) "slice0" = Return [sub] /\
    exists sub',
      SliceSubSet.reducer sub (SlicerSoliton.nodesArr self)
      = Return (sub', SlicerSoliton.nodesArr self)
      /\ reduced_by [SliceSubSet.initialNodeIndex sub] sub sub'.
Proof.
  eexists _, _. split; [vm_compute; reflexivity|].
  split; [vm_compute; reflexivity|].
  apply reducer_again_appends_seed.
  - repeat constructor.
  - repeat constructor.
  - repeat constructor.
Defined.

(** On the line mesh, after the whole script has run, every node of the
    sub-slice of band 0 is marked visited and its reduced chain is [1; 1];
    running the reducer on it again returns the chain [1; 1; 1]. *)
Lemma reducer_again_changes_chain :
  exists self sub sub' arr',
    Examples.lineSlicer = Return self /\
    SlicerSoliton.dict_get (SlicerSoliton.subSlicesDict self) "slice0" = Return [sub] /\
    Forall (fun m => visited_at (SlicerSoliton.nodesArr self) m = true)
      (SliceSubSet.sliceSubSetNodes sub) /\
    SliceSubSet.reducer sub (SlicerSoliton.nodesArr self) = Return (sub', arr') /\
    SliceSubSet.reducedSlice sub = [1; 1] /\
    SliceSubSet.reducedSlice sub' = [1; 1; 1] /\
    SliceSubSet.reducedSlice sub' <> SliceSubSet.reducedSlice sub.
Proof.
  eexists _, _, _, _. split; [vm_compute; reflexivity|].
  split; [vm_compute; reflexivity|].
  split; [repeat constructor|].
  split; [vm_compute; reflexivity|].
  split; [reflexivity|]. split; [reflexivity|]. discriminate.
Qed.

(** ** The seed in the reduced chain *)

Lemma fmap_eq_lookup {A B : Type} (f : A -> B) (l l' : list A) (i : nat) :
  f <$> l' = f <$> l -> f <$> (l' !! i) = f <$> (l !! i).
Proof. intros H. by rewrite <- !list_lookup_fmap, H. Qed.

(** The candidates depend on the sub-slice names of the nodes only. *)
Lemma candidates_ext (own : string) (arr arr' : nodes) (neighbours : list nat) :
  Node.sliceSubSetName <$> arr' = Node.sliceSubSetName <$> arr ->
  SliceSubSet.candidates own arr' neighbours = SliceSubSet.candidates own arr neighbours.
Proof.
  intros H. induction neighbours as [|i l IH]; [done|]. simpl.
  rewrite IH. unfold getitem.
  pose proof (fmap_eq_lookup _ _ _ i H) as Hi.
  destruct (arr' !! i) as [n'|], (arr !! i) as [n|]; simpl in Hi; try done.
  injection Hi as Hi. cbn [Py.bind]. by rewrite Hi.
Qed.

(** The keys depend on the projections of the nodes only. *)
Lemma keyed_ext (arr arr' : nodes) (indices : list nat) :
  Node.rotatedZ <$> arr' = Node.rotatedZ <$> arr ->
  SliceSubSet.keyed arr' indices = SliceSubSet.keyed arr indices.
Proof.
  intros H. induction indices as [|i l IH]; [done|]. simpl.
  rewrite IH. unfold getitem.
  pose proof (fmap_eq_lookup _ _ _ i H) as Hi.
  destruct (arr' !! i) as [n'|], (arr !! i) as [n|]; simpl in Hi; try done.
  injection Hi as Hi. cbn [Py.bind]. by rewrite Hi.
Qed.

Lemma visited_at_fmap (arr arr' : nodes) (i : nat) :
  Node.visited <$> arr' = Node.visited <$> arr -> visited_at arr' i = visited_at arr i.
Proof.
  intros H. unfold visited_at. pose proof (fmap_eq_lookup _ _ _ i H) as Hi.
  destruct (arr' !! i), (arr !! i); simpl in Hi; congruence.
Qed.

(** C10. Take a sub-slice as [sliceRunner] makes it: created for a seed
    vertex not yet visited, filled by [bfs] and reduced by [reducer]. If
    the seed has at least one candidate (a neighbour whose sub-slice name
    is not the sub-slice's) and the strategy of the sub-slice picks
    another index than the seed's among the candidates and the seed, then
    the loop over the nodes appends the seed a second time: the reduced
    chain starts with the seed twice (and holds it nowhere else). *)
Theorem seed_retained_twice (currentNode seedNode : Node.t) (nodeIndex k r : nat)
    (arr arr1 arr2 : nodes) (sub1 sub2 : SliceSubSet.t)
    (s : SliceSubSet.strategy) (cs : list nat) (ks : list (nat * float)) :
  arr !! nodeIndex = Some currentNode ->
  Node.visited currentNode = false ->
  SliceSubSet.bfs (SliceSubSet.init currentNode nodeIndex k) nodeIndex arr
  = Return (sub1, arr1) ->
  SliceSubSet.reducer sub1 arr1 = Return (sub2, arr2) ->
  arr1 !! nodeIndex = Some seedNode ->
  SliceSubSet.choose_strategy seedNode arr1 (Node.neighboursIndices seedNode) = Return s ->
  SliceSubSet.candidates (SliceSubSet.ownName sub1) arr1 (Node.neighboursIndices seedNode)
  = Return cs ->
  cs <> [] ->
  SliceSubSet.keyed arr1 (cs ++ [nodeIndex]) = Return ks ->
  SliceSubSet.apply_strategy s ks = Return r ->
  r <> nodeIndex ->
  exists tail,
    SliceSubSet.reducedSlice sub2 = nodeIndex :: nodeIndex :: tail
    /\ nodeIndex ∉ tail.
Proof.
  intros Hcur Hunv Hbfs Hred Hseed Hs Hcs Hne Hks Hr Hrne.
  apply bfs_keeps in Hbfs
    as ((_ & _ & Hinit & Hchain & _ & _) & (more & Hnodes) & (_ & _ & _ & _ & Hvis) & _).
  cbn [SliceSubSet.init SliceSubSet.initialNodeIndex SliceSubSet.reducedSlice
       SliceSubSet.sliceSubSetNodes app] in *.
  assert (Node.visited seedNode = false) as Hunv1.
  { pose proof (visited_at_fmap _ _ nodeIndex Hvis) as E. unfold visited_at in E.
    by rewrite Hseed, Hcur, Hunv in E. }
  unfold SliceSubSet.reducer in Hred. rewrite Hinit in Hred.
  unfold getitem at 1 in Hred. rewrite Hseed in Hred. cbn [Py.bind] in Hred.
  rewrite Hs in Hred. cbn [Py.bind SliceSubSet.addToReducedSlice
    SliceSubSet.sliceSubSetNodes] in Hred.
  rewrite Hnodes in Hred. cbn [for_] in Hred.
  bind_inv Hred as [sub' arr'] Hfirst.
  apply reduce_node_inv in Hfirst as (node & Hnode & Hcase).
  assert (node = seedNode) as -> by congruence.
  destruct Hcase as [(Hv & _)|(_ & -> & cs' & Hcs' & Hcase)]; [congruence|].
  pose proof (same_but_visited_insert _ _ _ Hseed) as (_ & Hz & _ & _ & Hn).
  cbn [SliceSubSet.ownName SliceSubSet.addToReducedSlice] in Hcs'.
  rewrite (candidates_ext _ _ _ _ Hn), Hcs in Hcs'. injection Hcs' as <-.
  destruct Hcase as [[? _]|(_ & ks' & r' & Hks' & Hr' & Hcase)]; [done|].
  rewrite (keyed_ext _ _ _ Hz), Hks in Hks'. injection Hks' as <-.
  rewrite Hr in Hr'. injection Hr' as <-.
  destruct Hcase as [[? _]|[_ ->]]; [done|].
  apply reduce_loop_spec in Hred as (tail & (_ & _ & _ & _ & _ & Htail) & _ & Hunvt & _).
  exists tail. split.
  - rewrite Htail. cbn. by rewrite Hchain.
  - intros Hin. rewrite Forall_forall in Hunvt. specialize (Hunvt _ Hin).
    rewrite (visited_at_insert _ _ _ _ Hseed) in Hunvt. by case_decide.
Qed.

Lemma seed_retained_twice_witness :
  exists self node sub1 arr1 sub2 arr2,
    Examples.lineSliced = Return self /\
    SlicerSoliton.nodesArr self !! 1 = Some node /\
    SliceSubSet.bfs (SliceSubSet.init node 1 0) 1 (SlicerSoliton.nodesArr self)
    = Return (sub1, arr1) /\
    SliceSubSet.reducer sub1 arr1 = Return (sub2, arr2) /\
    exists tail, SliceSubSet.reducedSlice sub2 = 1 :: 1 :: tail /\ 1 ∉ tail.
Proof.
  let t := eval vm_compute in Examples.lineSliced in
  lazymatch t with Return ?x => pose (self := x) end.
  let t := eval vm_compute in (SlicerSoliton.nodesArr self !! 1) in
  lazymatch t with Some ?x => pose (node := x) end.
  let t := eval vm_compute in
    (SliceSubSet.bfs (SliceSubSet.init node 1 0) 1 (SlicerSoliton.nodesArr self)) in
  lazymatch t with Return (?x, ?y) => pose (sub1 := x); pose (arr1 := y) end.
  let t := eval vm_compute in (SliceSubSet.reducer sub1 arr1) in
  lazymatch t with Return (?x, ?y) => pose (sub2 := x); pose (arr2 := y) end.
  let t := eval vm_compute in (arr1 !! 1) in
  lazymatch t with Some ?x => pose (seedNode := x) end.
  exists self, node, sub1, arr1, sub2, arr2.
  split; [vm_compute; reflexivity|].
  split; [reflexivity|]. split; [vm_compute; reflexivity|].
  split; [vm_compute; reflexivity|].
  apply (seed_retained_twice node seedNode 1 0 2 (SlicerSoliton.nodesArr self)
           arr1 arr2 sub1 sub2 SliceSubSet.Max [2] [(2, 5%float); (1, 1%float)]).
  - reflexivity.
  - reflexivity.
  - vm_compute. reflexivity.
  - vm_compute. reflexivity.
  - reflexivity.
  - vm_compute. reflexivity.
  - vm_compute. reflexivity.
  - done.
  - vm_compute. reflexivity.
  - vm_compute. reflexivity.
  - done.
Defined.

(** ** Scenario A: the unit cube sliced along (0, 0, 1) *)

(** C1 (as amended). On the unit cube sliced along (0, 0, 1), whichever
    diagonal triangulates each face, the script computes the spacing 1 and
    the threshold 1.7320508075688772 (the binary64 square root of 3,
    between 1.732 and 1.733). The two faces are at projections 0 and 1,
    which differ by less than the threshold, so there is exactly one band:
    all 8 vertices are labelled "slice0". No vertex has a neighbour in
    another band, so the pass creates no sub-slice: the dictionary maps
    "slice0" to the empty list and there is no reduced chain. *)
Theorem cube_is_one_band (bottom top front back left right : bool) :
  exists self,
    SlicerSoliton.run Examples.cubeVertices
      (Examples.cubeWire ++ Examples.cubeDiagonals bottom top front back left right)
      Examples.up "slice"
    = Return self
    /\ SlicerSoliton.cubeEdgeLength self = 1%float
    /\ SlicerSoliton.maxRotatedZ self = PrimFloat.sqrt 3
    /\ ((1732 <? SlicerSoliton.maxRotatedZ self * 1000)
        && (SlicerSoliton.maxRotatedZ self * 1000 <? 1733))%float = true
    /\ Node.sliceName <$> SlicerSoliton.nodesArr self = replicate 8 "slice0"
    /\ SlicerSoliton.subSlicesDict self = [("slice0", [])].
Proof.
  destruct bottom, top, front, back, left, right;
    (eexists; split; [vm_compute; reflexivity|]);
    repeat split; vm_compute; reflexivity.
Qed.

(** The expectation of two bands fails on the cube. *)
Lemma cube_has_not_two_bands :
  exists self,
    SlicerSoliton.run Examples.cubeVertices Examples.cubeEdges Examples.up "slice"
    = Return self
    /\ ~ scenarioA_expected self.
Proof.
  eexists. split; [vm_compute; reflexivity|].
  intros (_ & _ & b0 & b1 & Hne & Hlab & _).
  vm_compute in Hlab. congruence.
Qed.

(** ** Termination of bfs *)

Lemma unlabelled_le_length (arr : nodes) : unlabelled arr <= length arr.
Proof. apply length_filter. Qed.

Lemma unlabelled_insert (arr : nodes) (j : nat) (node : Node.t) (name : string) :
  arr !! j = Some node -> name <> "" ->
  unlabelled (<[j := Node.setSliceSubSetName name node]> arr)
  + (if decide (Node.sliceSubSetName node = "") then 1 else 0)
  = unlabelled arr.
Proof.
  intros Hj Hname. unfold unlabelled.
  rewrite insert_take_drop by by eapply lookup_lt_Some.
  rewrite <- (take_drop_middle arr j node Hj) at 3.
  rewrite !filter_app, !filter_cons, !length_app. simpl.
  destruct (decide (name = "")); [done|].
  destruct (decide (Node.sliceSubSetName node = "")); simpl; lia.
Qed.

(** Any property of the search state that the loop body and the removal
    of the head of the queue keep holds when the search returns. *)
Lemma bfs_while_invariant (P : SliceSubSet.bfs_state -> Prop) :
  (forall j st st', P st -> SliceSubSet.bfs_visit j st = Return st' -> P st') ->
  (forall self i q arr, P (self, i :: q, arr) -> P (self, q, arr)) ->
  forall fuel st st', P st -> SliceSubSet.bfs_while fuel st = Return st' -> P st'.
Proof.
  intros Hvisit Hpop fuel. induction fuel as [|fuel IH]; intros [[self q] arr] st' HP H.
  - simpl in H. destruct q; [|done]. by injection H as <-.
  - simpl in H. destruct q as [|i q]; [by injection H as <-|].
    bind_inv H as node Hnode. bind_inv H as st1 Hloop.
    apply (IH st1); [|done]. revert Hloop. apply for_invariant; [|by eapply Hpop].
    intros x t t' _. apply Hvisit.
Qed.

Lemma bfs_visit_returns (j : nat) (self : SliceSubSet.t) (q : list nat) (arr : nodes) :
  j < length arr ->
  exists st', SliceSubSet.bfs_visit j (self, q, arr) = Return st'.
Proof.
  intros Hj. unfold SliceSubSet.bfs_visit.
  destruct (getitem_lt arr j Hj) as (node & -> & _). cbn [Py.bind].
  destruct (_ && _); eauto.
Qed.

(** The search returns when it has one unit of fuel for every queued node
    and every node without a sub-slice name: each iteration removes a
    queued node, and a node is queued only when it gets its name. *)
Lemma bfs_while_returns (fuel : nat) :
  forall (self : SliceSubSet.t) (q : list nat) (arr : nodes),
    SliceSubSet.ownName self <> "" ->
    graph_ok arr ->
    Forall (fun i => i < length arr) q ->
    length q + unlabelled arr <= fuel ->
    exists st', SliceSubSet.bfs_while fuel (self, q, arr) = Return st'.
Proof.
  induction fuel as [|fuel IH]; intros self q arr Hown Hok Hq Hfuel.
  - destruct q; [by eexists | simpl in Hfuel; lia].
  - destruct q as [|i q]; [by eexists|]. simpl.
    apply Forall_cons in Hq as [Hi Hq].
    destruct (getitem_lt arr i Hi) as (node & -> & Hnode). cbn [Py.bind].
    destruct (for_returns (fun t : SliceSubSet.bfs_state =>
        SliceSubSet.ownName t.1.1 = SliceSubSet.ownName self
        /\ graph_ok t.2 /\ length t.2 = length arr
        /\ Forall (fun i => i < length arr) t.1.2
        /\ length t.1.2 + unlabelled t.2 <= length q + unlabelled arr)
      SliceSubSet.bfs_visit (Node.neighboursIndices node) (self, q, arr))
      as ([[self1 q1] arr1] & -> & Hown1 & Hok1 & Hlen1 & Hq1 & Hmu1).
    + intros x [[s0 q0] a0] Hx (Ho & Hg & Hl & Hqq & Hm). cbn [fst snd] in *.
      assert (x < length a0) as Hx0.
      { rewrite Hl. by eapply graph_ok_lookup. }
      destruct (bfs_visit_returns x s0 q0 a0 Hx0) as [[[s1 q1] a1] Hst].
      exists (s1, q1, a1). split; [done|]. cbn [fst snd].
      apply bfs_visit_inv in Hst as (nd & Hnd & [H|(He & _ & -> & -> & ->)]).
      { injection H as -> -> ->. done. }
      split; [done|]. rewrite length_insert.
      split; [|split; [done|split]].
      * apply graph_ok_insert; [done|]. simpl.
        rewrite Forall_forall. intros y Hy. by eapply graph_ok_lookup.
      * apply Forall_app. split; [done|]. apply Forall_singleton. lia.
      * rewrite length_app. cbn [length].
        pose proof (unlabelled_insert a0 x nd (SliceSubSet.ownName s0) Hnd) as Hu.
        rewrite Ho in Hu |- *. specialize (Hu Hown).
        destruct (decide (Node.sliceSubSetName nd = "")); [lia | done].
    + cbn [fst snd]. done.
    + cbn [Py.bind fst snd] in *. apply IH.
      * by rewrite Hown1.
      * done.
      * by rewrite Hlen1.
      * simpl in Hfuel. lia.
Qed.

(** [bfs] never runs out of fuel: on a well-formed graph, from an initial
    node in range, it returns. *)
Lemma bfs_terminates (self : SliceSubSet.t) (i : nat) (arr : nodes) :
  graph_ok arr -> i < length arr -> SliceSubSet.ownName self <> "" ->
  exists self' arr', SliceSubSet.bfs self i arr = Return (self', arr').
Proof.
  intros Hok Hi Hown. unfold SliceSubSet.bfs.
  destruct (getitem_lt arr i Hi) as (node & -> & Hnode). cbn [Py.bind].
  set (name := SliceSubSet.nodeSubSetName (SliceSubSet.addNode i self)).
  assert (name <> "") as Hname by apply subSetName_nonempty.
  destruct (bfs_while_returns
              (S (length (<[i := Node.setSliceSubSetName name node]> arr)))
              (SliceSubSet.addNode i self) [i]
              (<[i := Node.setSliceSubSetName name node]> arr))
    as ([[self1 q1] arr1] & ->).
  - done.
  - apply graph_ok_insert; [done|]. simpl.
    rewrite Forall_forall. intros y Hy. by eapply graph_ok_lookup.
  - apply Forall_singleton. by rewrite length_insert.
  - pose proof (unlabelled_le_length (<[i := Node.setSliceSubSetName name node]> arr)).
    simpl. lia.
  - cbn [Py.bind]. eauto.
Qed.

(** ** What bfs and reducer keep of the graph *)

Lemma graph_ok_same (arr arr' : nodes) :
  length arr' = length arr ->
  Node.neighboursIndices <$> arr' = Node.neighboursIndices <$> arr ->
  graph_ok arr -> graph_ok arr'.
Proof.
  intros Hlen Hn Hok. unfold graph_ok in *. rewrite Hlen.
  rewrite Forall_lookup. intros i node' Hi.
  pose proof (fmap_eq_lookup _ _ _ i Hn) as E. rewrite Hi in E.
  destruct (arr !! i) as [node|] eqn:Hnode; [|done]. injection E as E.
  rewrite E. rewrite Forall_lookup in Hok. by eapply Hok.
Qed.

Lemma subSetName_at_insert (arr : nodes) (i j : nat) (node : Node.t) (name : string) :
  arr !! i = Some node ->
  subSetName_at (<[i := Node.setSliceSubSetName name node]> arr) j
  = if decide (i = j) then name else subSetName_at arr j.
Proof.
  intros Hi. unfold subSetName_at. destruct (decide (i = j)) as [<-|Hne].
  - rewrite list_lookup_insert_eq; [done | by eapply lookup_lt_Some].
  - by rewrite list_lookup_insert_ne.
Qed.

Lemma subSetName_at_fmap (arr arr' : nodes) (i : nat) :
  Node.sliceSubSetName <$> arr' = Node.sliceSubSetName <$> arr ->
  subSetName_at arr' i = subSetName_at arr i.
Proof.
  intros H. unfold subSetName_at. pose proof (fmap_eq_lookup _ _ _ i H) as Hi.
  destruct (arr' !! i), (arr !! i); simpl in Hi; congruence.
Qed.

Lemma visited_labelled_insert (arr : nodes) (i : nat) (node : Node.t) (name : string) :
  visited_labelled arr -> name <> "" ->
  visited_labelled (<[i := Node.setSliceSubSetName name node]> arr).
Proof.
  intros H Hname. unfold visited_labelled. by apply Forall_insert.
Qed.

Lemma bfs_visit_members_ok (j : nat) (st st' : SliceSubSet.bfs_state) :
  members_ok st -> SliceSubSet.bfs_visit j st = Return st' -> members_ok st'.
Proof.
  destruct st as [[self q] arr], st' as [[self' q'] arr'].
  intros (Hown & Hvl & Hms) H.
  apply bfs_visit_inv in H as (node & Hnode & [H|(He & _ & -> & -> & ->)]).
  { by injection H as -> -> ->. }
  unfold members_ok. cbn [fst snd SliceSubSet.addNode SliceSubSet.ownName
    SliceSubSet.sliceSubSetNodes].
  split; [done|]. split; [by apply visited_labelled_insert|].
  rewrite length_insert. apply Forall_app. split.
  - eapply Forall_impl; [exact Hms|]. intros m [Hm Hl]. split; [done|].
    rewrite (subSetName_at_insert _ _ _ _ _ Hnode). by case_decide.
  - apply Forall_singleton. split; [by eapply lookup_lt_Some|].
    rewrite (subSetName_at_insert _ _ _ _ _ Hnode). by case_decide.
Qed.

(** After [bfs] from a fresh sub-slice: its nodes are in range and named,
    visited nodes are still all named, and the graph is as well formed as
    before. *)
Lemma bfs_fresh_ok (currentNode : Node.t) (i k : nat) (arr arr' : nodes)
    (sub : SliceSubSet.t) :
  graph_ok arr -> visited_labelled arr ->
  SliceSubSet.bfs (SliceSubSet.init currentNode i k) i arr = Return (sub, arr') ->
  graph_ok arr' /\ visited_labelled arr'
  /\ Forall (fun m => m < length arr' /\ subSetName_at arr' m <> "")
       (SliceSubSet.sliceSubSetNodes sub)
  /\ SliceSubSet.initialNodeIndex sub = i
  /\ SliceSubSet.sliceName sub = Node.sliceName currentNode
  /\ i < length arr'.
Proof.
  intros Hok Hvl Hbfs. pose proof Hbfs as Hkeep.
  apply bfs_keeps in Hkeep as ((Hsn & _ & Hinit & _) & _ & (Hlen & _ & _ & Hn & _) & Hi).
  split; [by eapply graph_ok_same|].
  unfold SliceSubSet.bfs in Hbfs. bind_inv Hbfs as node Hnode.
  apply getitem_Return in Hnode.
  bind_inv Hbfs as [[s1 q1] a1] Hloop. injection Hbfs as -> ->.
  apply (bfs_while_invariant members_ok) in Hloop as (_ & Hvl' & Hms).
  - cbn [fst snd] in *. simpl in Hinit, Hsn.
    split; [done|]. split; [done|]. split; [done|]. split; [done|]. by rewrite Hlen.
  - intros j st st'. apply bfs_visit_members_ok.
  - by intros self0 i0 q0 arr0.
  - unfold members_ok. cbn [fst snd SliceSubSet.addNode SliceSubSet.init
      SliceSubSet.ownName SliceSubSet.sliceSubSetNodes app].
    split; [apply subSetName_nonempty|].
    split; [apply visited_labelled_insert; [done | apply subSetName_nonempty]|].
    apply Forall_singleton. rewrite length_insert.
    split; [by eapply lookup_lt_Some|].
    rewrite (subSetName_at_insert _ _ _ _ _ Hnode). case_decide; [|done].
    apply subSetName_nonempty.
Qed.

(** The second loop of the reducer marks nodes of the list it goes through
    and no others. *)
Lemma reduce_loop_marks (s : SliceSubSet.strategy) (ms : list nat) :
  forall (self self' : SliceSubSet.t) (arr arr' : nodes) (j : nat),
    for_ (SliceSubSet.reduce_node s) ms (self, arr) = Return (self', arr') ->
    visited_at arr' j = true -> visited_at arr j = true \/ j ∈ ms.
Proof.
  induction ms as [|m ms IH]; intros self self' arr arr' j H Hj.
  - injection H as <- <-. by left.
  - simpl in H. bind_inv H as [self1 arr1] Hstep.
    destruct (IH _ _ _ _ _ H Hj) as [Hj1|Hin]; [|right; by right].
    apply reduce_node_inv in Hstep as (node & Hnode & [(_ & _ & ->)|(_ & -> & _)]);
      [by left|].
    rewrite (visited_at_insert _ _ _ _ Hnode) in Hj1.
    case_decide; [subst; right; left | by left].
Qed.

Lemma reducer_keeps_visited_labelled (self self' : SliceSubSet.t) (arr arr' : nodes) :
  visited_labelled arr ->
  Forall (fun m => subSetName_at arr m <> "") (SliceSubSet.sliceSubSetNodes self) ->
  SliceSubSet.reducer self arr = Return (self', arr') ->
  visited_labelled arr'.
Proof.
  intros Hvl Hms H. pose proof H as Hspec.
  apply reducer_spec in Hspec as (_ & _ & _ & _ & (_ & _ & _ & _ & Hn) & _).
  unfold SliceSubSet.reducer in H. bind_inv H as node Hnode. bind_inv H as s Hs.
  cbn [SliceSubSet.addToReducedSlice SliceSubSet.sliceSubSetNodes] in H.
  unfold visited_labelled. rewrite Forall_lookup. intros j nd Hj Hv.
  assert (subSetName_at arr' j = Node.sliceSubSetName nd) as E
    by (unfold subSetName_at; by rewrite Hj).
  rewrite <- E, (subSetName_at_fmap _ _ _ Hn).
  destruct (reduce_loop_marks _ _ _ _ _ _ j H) as [Hold|Hin].
  - unfold visited_at. by rewrite Hj.
  - unfold visited_at in Hold. destruct (arr !! j) as [nd0|] eqn:Hj0; [|done].
    unfold visited_labelled in Hvl. rewrite Forall_lookup in Hvl.
    unfold subSetName_at. rewrite Hj0. by eapply Hvl.
  - rewrite Forall_forall in Hms. by apply Hms.
Qed.

(** ** The reducer returns *)

Lemma keyed_returns (arr : nodes) (indices : list nat) :
  Forall (fun i => i < length arr) indices ->
  exists ks, SliceSubSet.keyed arr indices = Return ks /\ length ks = length indices.
Proof.
  induction indices as [|i l IH]; intros Hl; [by exists []|].
  apply Forall_cons in Hl as [Hi Hl]. simpl.
  destruct (getitem_lt arr i Hi) as (node & -> & _). cbn [Py.bind].
  destruct (IH Hl) as (ks & -> & Hlen). cbn [Py.bind].
  eexists. split; [done|]. simpl. by rewrite Hlen.
Qed.

Lemma reduce_node_returns (s : SliceSubSet.strategy) (m : nat)
    (self : SliceSubSet.t) (arr : nodes) :
  graph_ok arr -> m < length arr ->
  exists self' arr', SliceSubSet.reduce_node s m (self, arr) = Return (self', arr').
Proof.
  intros Hok Hm. unfold SliceSubSet.reduce_node.
  destruct (getitem_lt arr m Hm) as (node & -> & Hnode). cbn [Py.bind].
  destruct (Node.visited node); cbn [negb]; [eauto|].
  assert (Forall (fun i => i < length (<[m := Node.markAsVisited node]> arr))
            (Node.neighboursIndices node)) as Hn.
  { rewrite length_insert, Forall_forall. intros j Hj. by eapply graph_ok_lookup. }
  rewrite (candidates_spec _ _ _ Hn). cbn [Py.bind].
  set (cs := filter _ _).
  case_bool_decide as Hcs; cbn [negb]; [eauto|].
  destruct (keyed_returns (<[m := Node.markAsVisited node]> arr) (cs ++ [m]))
    as (ks & -> & Hlen).
  { apply Forall_app. split.
    - rewrite Forall_forall. intros j [_ Hj]%list_elem_of_filter.
      rewrite Forall_forall in Hn. by apply Hn.
    - apply Forall_singleton. by rewrite length_insert. }
  cbn [Py.bind]. destruct ks as [|best rest].
  { rewrite length_app in Hlen. simpl in Hlen. lia. }
  cbn [SliceSubSet.apply_strategy Py.bind].
  destruct (negb _); eauto.
Qed.

Lemma reducer_returns (self : SliceSubSet.t) (arr : nodes) :
  graph_ok arr ->
  SliceSubSet.initialNodeIndex self < length arr ->
  Forall (fun m => m < length arr) (SliceSubSet.sliceSubSetNodes self) ->
  exists self' arr', SliceSubSet.reducer self arr = Return (self', arr').
Proof.
  intros Hok Hseed Hms. unfold SliceSubSet.reducer.
  destruct (getitem_lt arr _ Hseed) as (node & -> & Hnode). cbn [Py.bind].
  destruct (choose_strategy_total node arr (Node.neighboursIndices node)) as [s ->].
  { rewrite Forall_forall. intros j Hj. by eapply graph_ok_lookup. }
  cbn [Py.bind SliceSubSet.addToReducedSlice SliceSubSet.sliceSubSetNodes].
  destruct (for_returns (fun t : SliceSubSet.t * nodes =>
              graph_ok t.2 /\ length t.2 = length arr)
            (SliceSubSet.reduce_node s) (SliceSubSet.sliceSubSetNodes self)
            (SliceSubSet.addToReducedSlice (SliceSubSet.initialNodeIndex self) self, arr))
    as ([self' arr'] & Hrun & _); [|done|by exists self', arr'].
  intros m [s0 a0] Hin [Hg Hl]. cbn [fst snd] in *.
  rewrite Forall_forall in Hms.
  destruct (reduce_node_returns s m s0 a0 Hg) as (s1 & a1 & Hstep);
    [rewrite Hl; by apply Hms|].
  exists (s1, a1). split; [done|]. cbn [fst snd].
  apply reduce_node_inv in Hstep as (node' & Hnode' & [(_ & _ & ->)|(_ & -> & _)]);
    [done|].
  rewrite length_insert. split; [|done].
  apply graph_ok_insert; [done|]. simpl.
  rewrite Forall_forall. intros j Hj. by eapply graph_ok_lookup.
Qed.

(** ** The pass returns *)

Lemma borders_other_slice_returns (currentNode : Node.t) (arr : nodes)
    (neighbours : list nat) :
  Forall (fun i => i < length arr) neighbours ->
  exists b, SlicerSoliton.borders_other_slice currentNode arr neighbours = Return b.
Proof.
  induction neighbours as [|i l IH]; intros Hl; [by exists false|].
  apply Forall_cons in Hl as [Hi Hl]. simpl.
  destruct (getitem_lt arr i Hi) as (node & -> & _). cbn [Py.bind].
  destruct (negb _); [by exists true | by apply IH].
Qed.

Lemma dict_lookup_app (d d' : SlicerSoliton.subSlices) (key : string) :
  SlicerSoliton.dict_lookup (d ++ d') key
  = match SlicerSoliton.dict_lookup d key with
    | Some l => Some l
    | None => SlicerSoliton.dict_lookup d' key
    end.
Proof.
  induction d as [|[k v] d IH]; simpl; [done|]. by case_bool_decide.
Qed.

Lemma dict_get_initiate (node : Node.t) (d : SlicerSoliton.subSlices) :
  exists l,
    SlicerSoliton.dict_get (SlicerSoliton.initiateNewSubSlicesList node d)
      (Node.sliceName node) = Return l.
Proof.
  unfold SlicerSoliton.initiateNewSubSlicesList, SlicerSoliton.dict_get.
  destruct (SlicerSoliton.dict_lookup d (Node.sliceName node)) as [l|] eqn:E.
  - rewrite E. by exists l.
  - rewrite dict_lookup_app, E. simpl. rewrite bool_decide_true by done. by exists [].
Qed.

Lemma appendNewSubSlice_returns (sub : SliceSubSet.t) (d : SlicerSoliton.subSlices)
    (l : list SliceSubSet.t) :
  SlicerSoliton.dict_get d (SliceSubSet.sliceName sub) = Return l ->
  exists d', SlicerSoliton.appendNewSubSlice sub d = Return d'.
Proof.
  intros H. unfold SlicerSoliton.appendNewSubSlice. rewrite H. cbn [Py.bind]. eauto.
Qed.

(** Making a sub-slice at an unlabelled node keeps the state of the pass. *)
Lemma fresh_subSlice_ok (n : nat) (currentNode : Node.t) (i k : nat)
    (arr arr1 arr2 : nodes) (sub1 sub2 : SliceSubSet.t) :
  pass_ok n arr ->
  SliceSubSet.bfs (SliceSubSet.init currentNode i k) i arr = Return (sub1, arr1) ->
  SliceSubSet.reducer sub1 arr1 = Return (sub2, arr2) ->
  pass_ok n arr2.
Proof.
  intros (Hok & Hvl & Hlen) Hbfs Hred.
  pose proof (bfs_keeps _ _ _ _ _ Hbfs) as (_ & _ & (Hlen1 & _) & _).
  apply bfs_fresh_ok in Hbfs as (Hok1 & Hvl1 & Hms & _); [|done..].
  pose proof (reducer_spec _ _ _ _ Hred) as (_ & _ & _ & _ & (Hlen2 & _ & _ & Hn & _) & _).
  split; [by eapply graph_ok_same|]. split; [|congruence].
  eapply reducer_keeps_visited_labelled; [exact Hvl1| |exact Hred].
  eapply Forall_impl; [exact Hms|]. by intros m [_ ?].
Qed.

Lemma sliceRunner_step_returns (n nodeIndex : nat) (arr : nodes)
    (d : SlicerSoliton.subSlices) :
  pass_ok n arr -> nodeIndex < n ->
  exists arr' d',
    SlicerSoliton.sliceRunner_step nodeIndex (arr, d) = Return (arr', d')
    /\ pass_ok n arr'.
Proof.
  intros Hpass Hi. pose proof Hpass as (Hok & Hvl & Hlen).
  unfold SlicerSoliton.sliceRunner_step.
  destruct (getitem_lt arr nodeIndex) as (cur & -> & Hcur); [lia|]. cbn [Py.bind].
  destruct (negb (truthy _)); [|eauto].
  destruct (borders_other_slice_returns cur arr (Node.neighboursIndices cur)) as [b ->].
  { rewrite Forall_forall. intros j Hj. by eapply graph_ok_lookup. }
  cbn [Py.bind]. destruct b; [|eauto].
  unfold SlicerSoliton.newSubSlice.
  destruct (dict_get_initiate cur d) as [l Hl]. rewrite Hl. cbn [Py.bind].
  destruct (bfs_terminates (SliceSubSet.init cur nodeIndex (length l)) nodeIndex arr)
    as (sub1 & arr1 & Hbfs); [done | lia | apply subSetName_nonempty |].
  rewrite Hbfs. cbn [Py.bind].
  pose proof (bfs_fresh_ok _ _ _ _ _ _ Hok Hvl Hbfs)
    as (Hok1 & Hvl1 & Hms & Hinit & Hname & Hi1).
  destruct (reducer_returns sub1 arr1) as (sub2 & arr2 & Hred);
    [done | by rewrite Hinit | |].
  { eapply Forall_impl; [exact Hms|]. by intros m [? _]. }
  rewrite Hred. cbn [Py.bind].
  pose proof (reducer_spec _ _ _ _ Hred) as (_ & (Hname2 & _) & _).
  destruct (appendNewSubSlice_returns sub2
              (SlicerSoliton.initiateNewSubSlicesList cur d) l) as [d' ->].
  { by rewrite Hname2, Hname. }
  cbn [Py.bind]. eexists _, _. split; [done|].
  by eapply fresh_subSlice_ok.
Qed.

(** On a well-formed graph whose visited nodes are named, the pass over
    indices in range returns, in a state of the same kind. *)
Lemma sliceRunner_loop_returns (n : nat) (xs : list nat) (arr : nodes)
    (d : SlicerSoliton.subSlices) :
  pass_ok n arr -> Forall (fun i => i < n) xs ->
  exists arr' d',
    for_ SlicerSoliton.sliceRunner_step xs (arr, d) = Return (arr', d')
    /\ pass_ok n arr'.
Proof.
  intros Hpass Hxs.
  destruct (for_returns (fun t : nodes * SlicerSoliton.subSlices => pass_ok n t.1)
              SlicerSoliton.sliceRunner_step xs (arr, d))
    as ([arr' d'] & Hrun & Hp); [|done|by exists arr', d'].
  intros x [a0 d0] Hx Hp. cbn [fst] in Hp. rewrite Forall_forall in Hxs.
  destruct (sliceRunner_step_returns n x a0 d0 Hp (Hxs x Hx)) as (a1 & d1 & Hstep & Hp1).
  by exists (a1, d1).
Qed.

(** ** The whole script returns *)

Lemma same_but_sliceName_refl (arr : nodes) : same_but_sliceName arr arr.
Proof. by repeat split. Qed.

Lemma same_but_sliceName_trans (a b c : nodes) :
  same_but_sliceName a b -> same_but_sliceName b c -> same_but_sliceName a c.
Proof.
  unfold same_but_sliceName.
  intros (?&?&?&?&?) (?&?&?&?&?). repeat split; congruence.
Qed.

Lemma same_but_sliceName_insert (arr : nodes) (i : nat) (node : Node.t) (name : string) :
  arr !! i = Some node ->
  same_but_sliceName arr (<[i := Node.setSliceName name node]> arr).
Proof.
  intros Hi. unfold same_but_sliceName. rewrite length_insert.
  repeat split; by eapply fmap_insert_same.
Qed.

(** [slicer] changes slice names only. *)
Lemma slicer_keeps (self self' : SlicerSoliton.t) :
  SlicerSoliton.slicer self = Return self' ->
  same_but_sliceName (SlicerSoliton.nodesArr self) (SlicerSoliton.nodesArr self')
  /\ SlicerSoliton.sortedNodesIndices self' = SlicerSoliton.sortedNodesIndices self
  /\ SlicerSoliton.subSlicesDict self' = SlicerSoliton.subSlicesDict self.
Proof.
  unfold SlicerSoliton.slicer. cbv zeta. intros H.
  bind_inv H as base Hbase. bind_inv H as node Hnode. bind_inv H as sb Hsb.
  bind_inv H as [[[b k] nm] arr'] Hloop. injection H as <-. simpl.
  split; [|done].
  revert Hloop.
  apply (for_invariant (fun t : SlicerSoliton.slicer_state =>
           same_but_sliceName (SlicerSoliton.nodesArr self) t.2)
           _ _ _ (b, k, nm, arr')); [|apply same_but_sliceName_refl].
  intros x [[[b0 k0] nm0] a0] t' _ Hs Hstep. cbn [snd] in *.
  apply slicer_step_inv in Hstep as (bn & cn & _ & Hcn & [[_ ->]|[_ ->]]);
    cbn [snd]; (eapply same_but_sliceName_trans; [exact Hs|]);
    by apply same_but_sliceName_insert.
Qed.

Lemma slicer_returns (self : SlicerSoliton.t) (sb : string) (n : nat) :
  length (SlicerSoliton.nodesArr self) = n -> 0 < n ->
  SlicerSoliton.sortedNodesIndices self ≡ₚ seq 0 n ->
  SlicerSoliton.sliceNameBase self = Some sb ->
  exists self', SlicerSoliton.slicer self = Return self'.
Proof.
  intros Hlen Hpos Hperm Hsb.
  assert (Forall (fun i => i < length (SlicerSoliton.nodesArr self))
            (SlicerSoliton.sortedNodesIndices self)) as Hrange.
  { rewrite Forall_forall. intros i Hi. rewrite Hperm in Hi.
    apply elem_of_seq in Hi. lia. }
  assert (NoDup (SlicerSoliton.sortedNodesIndices self)) as Hnd
    by (rewrite Hperm; apply NoDup_seq).
  destruct (SlicerSoliton.sortedNodesIndices self) as [|i0 rest] eqn:Hsorted.
  { apply Permutation_nil_l in Hperm. destruct n; [lia | done]. }
  assert (i0 < length (SlicerSoliton.nodesArr self)) as Hi0
    by by apply Forall_cons in Hrange as [? _].
  destruct (getitem_lt _ i0 Hi0) as (n0 & _ & Hn0).
  destruct (slicer_unfold self sb i0 rest n0) as [-> _]; [done..|].
  destruct (slicer_loop_logged sb (SlicerSoliton.maxRotatedZ self)
              (i0 :: rest) i0 0 (SlicerSoliton.sliceNameOf sb 0)
              (SlicerSoliton.nodesArr self) [])
    as (st' & arr' & log' & Hrun & _);
    [apply sliceNameOf_nonempty | done | done | done | |].
  { intros e He. by apply elem_of_nil in He. }
  rewrite (slicer_logged_erase _ _ _ _ _ _ _ Hrun). cbn [Py.bind]. eauto.
Qed.

(** An edge in range is added, and it only appends to neighbour lists. *)
Lemma addEdge_grows (edge : BpyEdge) (arr : nodes) (j : nat) (node : Node.t) :
  (vertices edge).1 < length arr -> (vertices edge).2 < length arr ->
  arr !! j = Some node ->
  exists arr' node' extra,
    SlicerSoliton.addEdge edge arr = Return arr'
    /\ length arr' = length arr
    /\ arr' !! j = Some node'
    /\ Node.neighboursIndices node' = Node.neighboursIndices node ++ extra
    /\ ((vertices edge).1 = j \/ (vertices edge).2 = j -> extra <> []).
Proof.
  unfold SlicerSoliton.addEdge. destruct (vertices edge) as [v0 v1]. simpl.
  intros H0 H1 Hj.
  destruct (getitem_lt arr v0 H0) as (n0 & -> & Hn0). cbn [Py.bind].
  destruct (getitem_lt (<[v0:=Node.addNeighbourIndex v1 n0]> arr) v1) as (n1 & -> & Hn1);
    [by rewrite length_insert|]. cbn [Py.bind].
  set (arr1 := <[v0:=Node.addNeighbourIndex v1 n0]> arr) in *.
  assert (length arr1 = length arr) as Hlen1 by apply length_insert.
  exists (<[v1:=Node.addNeighbourIndex v0 n1]> arr1).
  assert (length (<[v1:=Node.addNeighbourIndex v0 n1]> arr1) = length arr) as Hlen2
    by (by rewrite length_insert).
  destruct (decide (v1 = j)) as [->|Hv1].
  - exists (Node.addNeighbourIndex v0 n1).
    destruct (decide (v0 = j)) as [->|Hv0].
    + assert (n1 = Node.addNeighbourIndex j n0) as ->.
      { unfold arr1 in Hn1. rewrite list_lookup_insert_eq in Hn1 by done. congruence. }
      assert (n0 = node) as -> by congruence.
      exists [j; j]. split; [done|]. split; [done|].
      split; [apply list_lookup_insert_eq; lia|].
      split; [simpl; by rewrite <- app_assoc | done].
    + assert (n1 = node) as ->.
      { unfold arr1 in Hn1. rewrite list_lookup_insert_ne in Hn1 by done. congruence. }
      exists [v0]. split; [done|]. split; [done|].
      split; [apply list_lookup_insert_eq; lia | done].
  - destruct (decide (v0 = j)) as [->|Hv0].
    + assert (n0 = node) as -> by congruence.
      exists (Node.addNeighbourIndex v1 node), [v1]. split; [done|]. split; [done|].
      split; [|done].
      rewrite list_lookup_insert_ne by done. unfold arr1.
      apply list_lookup_insert_eq. lia.
    + exists node, []. split; [done|]. split; [done|].
      split; [|split; [by rewrite app_nil_r | tauto]].
      rewrite list_lookup_insert_ne by done. unfold arr1.
      by rewrite list_lookup_insert_ne.
Qed.

Lemma buildGraph_grows (es : list BpyEdge) :
  forall (arr : nodes) (j : nat) (node : Node.t),
    Forall (fun e => (vertices e).1 < length arr /\ (vertices e).2 < length arr) es ->
    arr !! j = Some node ->
    exists arr' node' extra,
      SlicerSoliton.buildGraph es arr = Return arr'
      /\ arr' !! j = Some node'
      /\ Node.neighboursIndices node' = Node.neighboursIndices node ++ extra
      /\ (Exists (fun e => (vertices e).1 = j \/ (vertices e).2 = j) es -> extra <> []).
Proof.
  induction es as [|e es IH]; intros arr j node Hes Hj.
  - exists arr, node, []. rewrite app_nil_r. repeat split; [done..|].
    by intros H%Exists_nil.
  - apply Forall_cons in Hes as [[H0 H1] Hes].
    destruct (addEdge_grows e arr j node H0 H1 Hj)
      as (arr1 & node1 & ex1 & Hadd & Hlen & Hj1 & Hn1 & Hex1).
    destruct (IH arr1 j node1) as (arr' & node' & ex2 & Hbuild & Hj' & Hn' & Hex2);
      [by rewrite Hlen | done |].
    exists arr', node', (ex1 ++ ex2).
    unfold SlicerSoliton.buildGraph in *. cbn [for_]. rewrite Hadd. cbn [Py.bind].
    split; [done|]. split; [done|].
    split; [by rewrite Hn', Hn1, app_assoc|].
    intros [He|He]%Exists_cons.
    + specialize (Hex1 He). by destruct ex1.
    + specialize (Hex2 He). destruct ex1, ex2; done.
Qed.

(** The constructor returns on a mesh whose edges are in range and whose
    vertex 0 has a neighbour. *)
Lemma init_returns (vs : list BpyVertex) (es : list BpyEdge) (npNormal : vec3) :
  edges_ok vs es -> touches0 es ->
  exists self, SlicerSoliton.init vs es npNormal = Return self.
Proof.
  intros Hok Htouch.
  assert (0 < length vs) as Hpos.
  { unfold touches0 in Htouch. apply Exists_exists in Htouch as (e & He & Hcase).
    unfold edges_ok in Hok. rewrite Forall_forall in Hok.
    destruct (Hok e He). lia. }
  set (arr0 := map (fun vertex => Node.init vertex npNormal) vs).
  assert (length arr0 = length vs) as Hlen0 by (unfold arr0; by rewrite length_map).
  destruct (lookup_lt_is_Some_2 arr0 0) as [n0 Hn0]; [lia|].
  destruct (buildGraph_grows es arr0 0 n0) as (arr & n0' & extra & Hbuild & H0 & Hn & Hex);
    [by rewrite Hlen0 | done |].
  specialize (Hex Htouch).
  pose proof (buildGraph_spec _ _ _ Hbuild) as [_ Hgok].
  specialize (Hgok (graph_ok_init vs npNormal)).
  unfold SlicerSoliton.init. cbv zeta. fold arr0. rewrite Hbuild. cbn [Py.bind].
  unfold SlicerSoliton.cubeEdgeLengthEval, getitem at 1. rewrite H0. cbn [Py.bind].
  destruct (Node.neighboursIndices n0') as [|k rest] eqn:Hk.
  { destruct (Node.neighboursIndices n0), extra; done. }
  unfold getitem at 1. cbn [lookup list_lookup Py.bind].
  destruct (getitem_lt arr k) as (nk & -> & _).
  { eapply graph_ok_lookup; [done..|]. rewrite Hk. by left. }
  cbn [Py.bind]. eauto.
Qed.

(** On every mesh whose edges are in range and whose vertex 0 has a
    neighbour, the script runs to the end of [sliceRunner]: no lookup is
    out of range and the search never runs out of fuel. *)
Lemma run_returns (vs : list BpyVertex) (es : list BpyEdge) (npNormal : vec3)
    (base : string) :
  edges_ok vs es -> touches0 es ->
  exists self, SlicerSoliton.run vs es npNormal base = Return self.
Proof.
  intros Hok Htouch. unfold SlicerSoliton.run.
  destruct (init_returns vs es npNormal Hok Htouch) as [self0 Hinit].
  rewrite Hinit. cbn [Py.bind].
  apply init_spec in Hinit as (Hlen & Hpos & Hperm & Hgok & Hfresh & Hdict & _).
  destruct (slicer_returns (SlicerSoliton.setSliceNameBase base self0) base (length vs))
    as [self1 Hslicer]; [done..|].
  rewrite Hslicer. cbn [Py.bind].
  apply slicer_keeps in Hslicer as ((Hlen1 & _ & Hss & Hn & Hv) & Hsorted & _).
  cbn [SlicerSoliton.nodesArr SlicerSoliton.sortedNodesIndices
       SlicerSoliton.setSliceNameBase] in *.
  unfold SlicerSoliton.sliceRunner.
  destruct (sliceRunner_loop_returns (length vs)
              (SlicerSoliton.sortedNodesIndices self1)
              (SlicerSoliton.nodesArr self1) (SlicerSoliton.subSlicesDict self1))
    as (arr' & d' & -> & _).
  - split; [by eapply graph_ok_same|]. split; [|congruence].
    unfold visited_labelled. rewrite Forall_lookup. intros i node Hi Hvis.
    pose proof (fmap_eq_lookup _ _ _ i Hv) as E. rewrite Hi in E.
    destruct (SlicerSoliton.nodesArr self0 !! i) as [node0|] eqn:Hi0; [|done].
    injection E as E. rewrite Forall_lookup in Hfresh.
    destruct (Hfresh i node0 Hi0) as (_ & _ & Hv0). congruence.
  - rewrite Hsorted, Forall_forall. intros i Hi. rewrite Hperm in Hi.
    apply elem_of_seq in Hi. lia.
  - cbn [Py.bind]. eauto.
Qed.

(** In a state of the pass, a node without a sub-slice name (the only kind
    of node [sliceRunner] seeds a sub-slice at) is not visited. *)
Lemma seed_unvisited (n i : nat) (arr : nodes) (currentNode : Node.t) :
  pass_ok n arr -> arr !! i = Some currentNode ->
  Node.sliceSubSetName currentNode = "" ->
  Node.visited currentNode = false.
Proof.
  intros (_ & Hvl & _) Hi Hname. unfold visited_labelled in Hvl.
  rewrite Forall_lookup in Hvl. specialize (Hvl i currentNode Hi).
  destruct (Node.visited currentNode); [|done]. by destruct Hvl.
Qed.

(** * Further properties of the script *)

(** ** Band names *)

Lemma string_app_inv_l (a b c : string) : a +:+ b = a +:+ c -> b = c.
Proof.
  induction a as [|ch a IH]; [done|].
  change (String ch (a +:+ b) = String ch (a +:+ c) -> b = c).
  intros [= H]. by apply IH.
Qed.

(** Band names tell bands apart, and within one band sub-slice names tell
    sub-slices apart: the decimal index after a fixed prefix determines
    the index. *)
Theorem names_injective_per_prefix :
  (forall (base : string) (k k' : nat),
     SlicerSoliton.sliceNameOf base k = SlicerSoliton.sliceNameOf base k' -> k = k')
  /\ (forall (name : string) (k k' : nat),
        SliceSubSet.subSetName name k = SliceSubSet.subSetName name k' -> k = k').
Proof.
  split; intros prefix k k' H; apply string_app_inv_l in H;
    unfold str in H; by apply (inj pretty) in H.
Qed.

Lemma names_injective_per_prefix_witness :
  (SlicerSoliton.sliceNameOf "slice" 3 = SlicerSoliton.sliceNameOf "slice" 3 -> 3 = 3)
  /\ (SliceSubSet.subSetName "slice1" 10 = SliceSubSet.subSetName "slice1" 10 -> 10 = 10).
Proof.
  split.
  - apply (proj1 names_injective_per_prefix).
  - apply (proj2 names_injective_per_prefix).
Defined.

(** ** The script on a mesh that is not degenerate *)

Lemma run_returns_witness :
  exists self,
    SlicerSoliton.run Examples.cubeVertices Examples.cubeEdges Examples.up "slice"
    = Return self.
Proof.
  apply run_returns.
  - unfold edges_ok. repeat constructor.
  - unfold touches0. apply Exists_cons_hd. by left.
Defined.

(** ** slicer: what it needs and what it leaves alone *)

Lemma renamed_refl (node : Node.t) : renamed node node.
Proof. exists (Node.sliceName node). by destruct node. Qed.

Lemma renamed_trans (a b c : Node.t) : renamed a b -> renamed b c -> renamed a c.
Proof. intros [n1 ->] [n2 ->]. by exists n2. Qed.

Lemma Forall2_refl_rel {A : Type} (R : A -> A -> Prop) (l : list A) :
  (forall z, R z z) -> Forall2 R l l.
Proof. intros H. induction l; by constructor. Qed.

Lemma Forall2_insert_rel {A : Type} (R : A -> A -> Prop) (l : list A) (i : nat) (x y : A) :
  (forall z, R z z) -> l !! i = Some x -> R x y -> Forall2 R l (<[i:=y]> l).
Proof.
  intros Hrefl. revert i. induction l as [|z l IH]; intros i Hi Hxy; [done|].
  destruct i as [|i]; simpl in *.
  - injection Hi as ->. constructor; [done|]. by apply Forall2_refl_rel.
  - constructor; [apply Hrefl|]. by apply IH.
Qed.

Lemma Forall2_trans_rel {A : Type} (R : A -> A -> Prop) (l1 l2 l3 : list A) :
  (forall a b c, R a b -> R b c -> R a c) ->
  Forall2 R l1 l2 -> Forall2 R l2 l3 -> Forall2 R l1 l3.
Proof.
  intros Htrans H12. revert l3. induction H12; intros l3 H23; inversion H23; subst.
  - constructor.
  - constructor; eauto.
Qed.

(** [slicer] changes the slice names of the nodes and nothing else: every
    node is the node it was but for its slice name, and the rest of the
    object (sorted indices, dictionary, threshold, name base, Blender
    data) is as before. *)
Theorem slicer_changes_names_only (self self' : SlicerSoliton.t) :
  SlicerSoliton.slicer self = Return self' ->
  Forall2 renamed (SlicerSoliton.nodesArr self) (SlicerSoliton.nodesArr self')
  /\ self' = SlicerSoliton.with_nodes (SlicerSoliton.nodesArr self')
               (SlicerSoliton.subSlicesDict self) self.
Proof.
  unfold SlicerSoliton.slicer. cbv zeta. intros H.
  bind_inv H as base Hbase. bind_inv H as node Hnode. bind_inv H as sb Hsb.
  bind_inv H as [[[b k] nm] arr'] Hloop. injection H as <-. simpl.
  split; [|done]. revert Hloop.
  apply (for_invariant (fun t : SlicerSoliton.slicer_state =>
           Forall2 renamed (SlicerSoliton.nodesArr self) t.2)
           _ _ _ (b, k, nm, arr')).
  - intros x [[[b0 k0] nm0] a0] t' _ Hs Hstep. cbn [snd] in *.
    apply slicer_step_inv in Hstep as (bn & cn & _ & Hcn & [[_ ->]|[_ ->]]);
      cbn [snd];
      (eapply Forall2_trans_rel; [apply renamed_trans | exact Hs |]);
      (eapply Forall2_insert_rel; [apply renamed_refl | exact Hcn | by eexists]).
  - apply Forall2_refl_rel, renamed_refl.
Qed.

Lemma slicer_changes_names_only_witness :
  exists self self',
    SlicerSoliton.init Examples.lineVertices Examples.lineEdges Examples.up = Return self /\
    SlicerSoliton.slicer (SlicerSoliton.setSliceNameBase "slice" self) = Return self' /\
    Forall2 renamed (SlicerSoliton.nodesArr (SlicerSoliton.setSliceNameBase "slice" self))
      (SlicerSoliton.nodesArr self')
    /\ self' = SlicerSoliton.with_nodes (SlicerSoliton.nodesArr self')
                 (SlicerSoliton.subSlicesDict (SlicerSoliton.setSliceNameBase "slice" self))
                 (SlicerSoliton.setSliceNameBase "slice" self).
Proof.
  eexists _, _. split; [vm_compute; reflexivity|].
  split; [vm_compute; reflexivity|].
  apply slicer_changes_names_only. vm_compute. reflexivity.
Defined.

Lemma init_no_name_base (vs : list BpyVertex) (es : list BpyEdge) (npNormal : vec3)
    (self : SlicerSoliton.t) :
  SlicerSoliton.init vs es npNormal = Return self ->
  SlicerSoliton.sliceNameBase self = None.
Proof.
  unfold SlicerSoliton.init. cbv zeta. intros H.
  bind_inv H as arr Harr. bind_inv H as len Hlen. by injection H as <-.
Qed.

(** The object the constructor returns has no name base: [slicer] on it,
    before [setSliceNameBase] is called, raises [AttributeError] and
    labels nothing. *)
Theorem slicer_needs_name_base (vs : list BpyVertex) (es : list BpyEdge)
    (npNormal : vec3) (self : SlicerSoliton.t) :
  SlicerSoliton.init vs es npNormal = Return self ->
  SlicerSoliton.slicer self = Raise AttributeError.
Proof.
  intros Hinit. pose proof (init_no_name_base _ _ _ _ Hinit) as Hbase.
  apply init_spec in Hinit as (Hlen & Hpos & Hperm & _).
  unfold SlicerSoliton.slicer. cbv zeta.
  destruct (SlicerSoliton.sortedNodesIndices self) as [|i0 rest] eqn:Hsorted.
  { apply Permutation_nil_l in Hperm. destruct vs; simpl in *; [lia | done]. }
  assert (i0 < length (SlicerSoliton.nodesArr self)) as Hi0.
  { rewrite Hlen. assert (i0 ∈ seq 0 (length vs)) as Hin by (rewrite <- Hperm; by left).
    apply elem_of_seq in Hin. lia. }
  unfold getitem at 1. cbn [lookup list_lookup Py.bind].
  destruct (getitem_lt _ i0 Hi0) as (n0 & -> & _). cbn [Py.bind].
  unfold SlicerSoliton.getSliceNameBase. by rewrite Hbase.
Qed.

Lemma slicer_needs_name_base_witness :
  exists self,
    SlicerSoliton.init Examples.lineVertices Examples.lineEdges Examples.up = Return self /\
    SlicerSoliton.slicer self = Raise AttributeError.
Proof.
  eexists. split; [vm_compute; reflexivity|].
  apply (slicer_needs_name_base Examples.lineVertices Examples.lineEdges Examples.up).
  vm_compute. reflexivity.
Defined.

(** The state of the logged loop between two iterations, once something
    has been logged: the current name is the name of the current band,
    the last labelling carries the current name and base node, and every
    labelling follows the one before it. *)
Lemma slicer_logged_follows (sb : string) (thr : float) (arr0 : nodes) (xs : list nat) :
  forall (st st' : SlicerSoliton.slicer_state) (log log' : list SlicerSoliton.labelling),
    st.1.2 = SlicerSoliton.sliceNameOf sb st.1.1.2 ->
    Node.rotatedZ <$> st.2 = Node.rotatedZ <$> arr0 ->
    (exists e, last log = Some e /\ SlicerSoliton.lab_name e = st.1.2
               /\ SlicerSoliton.lab_anchor e = st.1.1.1) ->
    (forall l1 e e' l2, log = l1 ++ e :: e' :: l2 -> follows sb arr0 thr e e') ->
    for_ (SlicerSoliton.slicer_step_logged sb thr) xs (st, log) = Return (st', log') ->
    (forall l1 e e' l2, log' = l1 ++ e :: e' :: l2 -> follows sb arr0 thr e e')
    /\ head log' = head log.
Proof.
  intros st st' log log' Hk Hz Hlast Hadj Hrun.
  assert (log <> []) as Hne by (destruct Hlast as (e & Hl & _); by destruct log).
  revert Hrun.
  apply (for_invariant
    (fun t : SlicerSoliton.slicer_state * list SlicerSoliton.labelling =>
       (t.1.1.2 = SlicerSoliton.sliceNameOf sb t.1.1.1.2
        /\ Node.rotatedZ <$> t.1.2 = Node.rotatedZ <$> arr0
        /\ (exists e, last t.2 = Some e /\ SlicerSoliton.lab_name e = t.1.1.2
                      /\ SlicerSoliton.lab_anchor e = t.1.1.1.1))
       /\ (forall l1 e e' l2, t.2 = l1 ++ e :: e' :: l2 -> follows sb arr0 thr e e')
          /\ head t.2 = head log) _ _ (st, log) (st', log')); [|done].
  intros x [[[[b k] nm] a] lg] [st1 lg1] _
    ((Hnm & Hza & (el & Hel & Heln & Hela)) & Hadj1 & Hhd) Hstep.
  cbn [fst snd] in *.
  unfold SlicerSoliton.slicer_step_logged in Hstep. bind_inv Hstep as st2 Hst.
  cbn [fst snd] in *.
  apply slicer_step_inv in Hst as (bn & cn & Hbn & Hcn & Hcase).
  assert (SlicerSoliton.rotatedZ_at arr0 b = Node.rotatedZ bn) as Hzb.
  { rewrite <- (rotatedZ_at_fmap _ _ Hza). by apply rotatedZ_at_lookup. }
  assert (SlicerSoliton.rotatedZ_at arr0 x = Node.rotatedZ cn) as Hzx.
  { rewrite <- (rotatedZ_at_fmap _ _ Hza). by apply rotatedZ_at_lookup. }
  assert (forall nm' : string,
    Node.rotatedZ <$> <[x := Node.setSliceName nm' cn]> a = Node.rotatedZ <$> arr0) as Hkeep.
  { intros nm'. rewrite <- Hza. by eapply fmap_insert_same. }
  assert (forall (e' : SlicerSoliton.labelling),
    follows sb arr0 thr el e' ->
    forall l1 e1 e2 l2, lg ++ [e'] = l1 ++ e1 :: e2 :: l2 -> follows sb arr0 thr e1 e2)
    as Hsnoc.
  { intros e' Hf l1 e1 e2 l2 Heq.
    destruct l2 as [|y l2 _] using rev_ind.
    - replace (l1 ++ [e1; e2]) with ((l1 ++ [e1]) ++ [e2]) in Heq
        by by rewrite <- app_assoc.
      apply app_inj_tail in Heq as [Heq ->]. rewrite Heq, last_snoc in Hel.
      by injection Hel as ->.
    - replace (l1 ++ e1 :: e2 :: l2 ++ [y]) with ((l1 ++ e1 :: e2 :: l2) ++ [y]) in Heq
        by (rewrite <- app_assoc; done).
      apply app_inj_tail in Heq as [Heq _]. by eapply Hadj1. }
  assert (head (lg ++ [SlicerSoliton.mkLabelling x st2.1.2 st2.1.1.1]) = head log) as Hhd'.
  { rewrite <- Hhd. destruct lg; [|done]. by rewrite last_nil in Hel. }
  destruct Hcase as [[Hw ->]|[Hw ->]]; injection Hstep as <- <-; cbn [fst snd] in *.
  - split; [split; [done|split; [apply Hkeep|]]|split; [|done]].
    + eexists. rewrite last_snoc. by split.
    + apply Hsnoc. left. cbn. split; [done|]. split; [done|].
      unfold within_anchor. cbn. rewrite Hzb, Hzx. exact Hw.
  - split; [split; [done|split; [apply Hkeep|]]|split; [|done]].
    + eexists. rewrite last_snoc. by split.
    + apply Hsnoc. right. exists k. cbn.
      split; [congruence|]. split; [done|]. split; [done|].
      unfold beyond_anchor. rewrite Hela, Hzb, Hzx. exact Hw.
Qed.

Lemma slicer_logged_vertices (sb : string) (thr : float) (xs : list nat) :
  forall (st st' : SlicerSoliton.slicer_state) (log log' : list SlicerSoliton.labelling),
    for_ (SlicerSoliton.slicer_step_logged sb thr) xs (st, log) = Return (st', log') ->
    SlicerSoliton.lab_vertex <$> log' = (SlicerSoliton.lab_vertex <$> log) ++ xs.
Proof.
  induction xs as [|x xs IH]; intros st st' log log' H; cbn [for_] in H.
  - injection H as <- <-. by rewrite app_nil_r.
  - bind_inv H as [st1 log1] Hstep.
    unfold SlicerSoliton.slicer_step_logged in Hstep. bind_inv Hstep as st2 Hst.
    cbn [fst snd] in Hstep. destruct st2 as [[[b k] nm] a]. injection Hstep as <- <-.
    rewrite (IH _ _ _ _ H), fmap_app. cbn. by rewrite <- app_assoc.
Qed.

(** [slicer] cuts the bands greedily along the sorted order. It labels
    the sorted indices one by one. The first vertex is the first anchor:
    it is put in band 0 when it passes the threshold test against itself
    and in band 1 when it fails it (which takes a height or a threshold
    that is not a finite number). Each later vertex is tested against the
    anchor of the vertex before it: when it passes the test it stays in
    that band, with that anchor, and when it fails the test it opens the
    band with the next index and becomes the anchor. *)
Theorem bands_are_greedy (self : SlicerSoliton.t) (sb : string)
    (log : list SlicerSoliton.labelling) :
  SlicerSoliton.sliceNameBase self = Some sb ->
  SlicerSoliton.slicer_log self = Return log ->
  SlicerSoliton.lab_vertex <$> log = SlicerSoliton.sortedNodesIndices self
  /\ (exists e0, head log = Some e0
        /\ opens sb (SlicerSoliton.nodesArr self) (SlicerSoliton.maxRotatedZ self) e0)
  /\ (forall l1 e e' l2, log = l1 ++ e :: e' :: l2 ->
        follows sb (SlicerSoliton.nodesArr self) (SlicerSoliton.maxRotatedZ self) e e').
Proof.
  intros Hsb Hlog.
  assert (exists i0 rest n0,
    SlicerSoliton.sortedNodesIndices self = i0 :: rest
    /\ SlicerSoliton.nodesArr self !! i0 = Some n0) as (i0 & rest & n0 & Hs & Hn).
  { unfold SlicerSoliton.slicer_log in Hlog. cbv zeta in Hlog.
    bind_inv Hlog as b Hb. bind_inv Hlog as n Hn.
    apply getitem_Return in Hb, Hn.
    destruct (SlicerSoliton.sortedNodesIndices self) as [|i0 rest]; [done|].
    injection Hb as ->. by exists b, rest, n. }
  destruct (slicer_unfold self sb i0 rest n0 Hs Hn Hsb) as [_ Hunf].
  rewrite Hunf in Hlog. clear Hunf. bind_inv Hlog as r Hrun.
  injection Hlog as <-. destruct r as [st' log']. cbn [snd].
  split.
  { rewrite Hs. by apply slicer_logged_vertices in Hrun. }
  cbn [for_] in Hrun. bind_inv Hrun as r1 Hfirst.
  destruct r1 as [st1 log1].
  unfold SlicerSoliton.slicer_step_logged in Hfirst. bind_inv Hfirst as st2 Hst.
  cbn [fst snd] in *.
  apply slicer_step_inv in Hst as (bn & cn & Hbn & Hcn & Hcase).
  rewrite Hn in Hbn, Hcn. injection Hbn as <-. injection Hcn as <-.
  pose proof (rotatedZ_at_lookup _ _ _ Hn) as Hz0.
  assert (st1 = st2 /\ log1 = [SlicerSoliton.mkLabelling i0 st2.1.2 st2.1.1.1])
    as [-> ->].
  { destruct st2 as [[[b2 k2] nm2] a2]. by injection Hfirst as <- <-. }
  clear Hfirst.
  assert (forall l1 e e' l2,
            [SlicerSoliton.mkLabelling i0 st2.1.2 st2.1.1.1] = l1 ++ e :: e' :: l2 ->
            follows sb (SlicerSoliton.nodesArr self) (SlicerSoliton.maxRotatedZ self) e e')
    as Hadj.
  { intros [|? [|? ?]] e e' l2 Heq; done. }
  assert (opens sb (SlicerSoliton.nodesArr self) (SlicerSoliton.maxRotatedZ self)
            (SlicerSoliton.mkLabelling i0 st2.1.2 st2.1.1.1)
          /\ st2.1.2 = SlicerSoliton.sliceNameOf sb st2.1.1.2
          /\ Node.rotatedZ <$> st2.2 = Node.rotatedZ <$> SlicerSoliton.nodesArr self)
    as (Hopens & Hk2 & Hz2).
  { destruct Hcase as [[Hw ->]|[Hw ->]]; cbn [fst snd];
      (split; [|split; [done | by apply (fmap_insert_same _ _ _ n0)]]);
      (split; [done|]); [left|right]; (split; [done|]);
      unfold within_anchor, beyond_anchor; cbn; rewrite Hz0; exact Hw. }
  destruct (slicer_logged_follows sb (SlicerSoliton.maxRotatedZ self)
              (SlicerSoliton.nodesArr self) rest st2 st'
              [SlicerSoliton.mkLabelling i0 st2.1.2 st2.1.1.1] log' Hk2 Hz2) as [Hfol Hhead];
    [|done|done|].
  { eexists. split; [reflexivity|]. by split. }
  split; [|done].
  eexists. split; [by rewrite Hhead|]. done.
Qed.

Lemma bands_are_greedy_witness :
  exists self log,
    SlicerSoliton.init Examples.lineVertices Examples.lineEdges Examples.up = Return self
    /\ SlicerSoliton.slicer_log (SlicerSoliton.setSliceNameBase "slice" self) = Return log
    /\ SlicerSoliton.lab_name <$> log = ["slice0"; "slice0"; "slice1"]
    /\ SlicerSoliton.lab_vertex <$> log
       = SlicerSoliton.sortedNodesIndices (SlicerSoliton.setSliceNameBase "slice" self)
    /\ (exists e0, head log = Some e0
          /\ opens "slice"
               (SlicerSoliton.nodesArr (SlicerSoliton.setSliceNameBase "slice" self))
               (SlicerSoliton.maxRotatedZ (SlicerSoliton.setSliceNameBase "slice" self))
               e0)
    /\ (forall l1 e e' l2, log = l1 ++ e :: e' :: l2 ->
          follows "slice"
            (SlicerSoliton.nodesArr (SlicerSoliton.setSliceNameBase "slice" self))
            (SlicerSoliton.maxRotatedZ (SlicerSoliton.setSliceNameBase "slice" self))
            e e').
Proof.
  eexists _, _. split; [vm_compute; reflexivity|].
  lazymatch goal with
  | |- ?B /\ _ => assert B as Hlog by (vm_compute; reflexivity); split; [exact Hlog|]
  end.
  split; [reflexivity|].
  pose proof (fun H => bands_are_greedy _ "slice" _ H Hlog) as Hthm.
  apply Hthm. reflexivity.
Defined.

(** ** buildGraph: the neighbour lists are the adjacency of the mesh *)

Lemma addEdge_adjacency (e : BpyEdge) (arr arr' : nodes) (j : nat) (node : Node.t) :
  SlicerSoliton.addEdge e arr = Return arr' ->
  arr !! j = Some node ->
  exists node', arr' !! j = Some node'
    /\ Node.neighboursIndices node' = Node.neighboursIndices node ++ ends_at j e.
Proof.
  unfold SlicerSoliton.addEdge, ends_at. destruct (vertices e) as [v0 v1] eqn:Hv.
  cbn [fst snd]. intros H Hj.
  bind_inv H as n0 Hn0. bind_inv H as n1 Hn1. injection H as <-.
  apply getitem_Return in Hn0, Hn1.
  pose proof (lookup_lt_Some _ _ _ Hn0) as Hlt0.
  pose proof (lookup_lt_Some _ _ _ Hn1) as Hlt1. rewrite length_insert in Hlt1.
  destruct (decide (v0 = j)) as [->|Hne0]; destruct (decide (v1 = j)) as [->|Hne1].
  - rewrite list_lookup_insert_eq in Hn1 by done. injection Hn1 as <-.
    rewrite list_lookup_insert_eq by (by rewrite length_insert).
    eexists. split; [done|]. cbn. rewrite Hj in Hn0. injection Hn0 as <-.
    by rewrite <- app_assoc.
  - rewrite list_lookup_insert_ne by done. rewrite list_lookup_insert_eq by done.
    eexists. split; [done|]. cbn. rewrite Hj in Hn0. by injection Hn0 as <-.
  - rewrite list_lookup_insert_ne in Hn1 by done.
    rewrite list_lookup_insert_eq by (by rewrite length_insert).
    eexists. split; [done|]. cbn. rewrite Hj in Hn1. by injection Hn1 as <-.
  - rewrite !list_lookup_insert_ne by done.
    exists node. split; [done|]. by rewrite app_nil_r.
Qed.

Lemma buildGraph_adjacency (es : list BpyEdge) :
  forall (arr arr' : nodes) (j : nat) (node : Node.t),
    SlicerSoliton.buildGraph es arr = Return arr' ->
    arr !! j = Some node ->
    exists node', arr' !! j = Some node'
      /\ Node.neighboursIndices node' = Node.neighboursIndices node ++ adjacency es j.
Proof.
  unfold SlicerSoliton.buildGraph, adjacency.
  induction es as [|e es IH]; intros arr arr' j node H Hj; cbn [for_ flat_map] in *.
  - injection H as <-. exists node. by rewrite app_nil_r.
  - bind_inv H as arr1 H1.
    destruct (addEdge_adjacency e arr arr1 j node H1 Hj) as (node1 & Hj1 & Hn1).
    destruct (IH arr1 arr' j node1 H Hj1) as (node' & Hj' & Hn').
    exists node'. split; [done|]. by rewrite Hn', Hn1, <- app_assoc.
Qed.

Lemma elem_of_adjacency (es : list BpyEdge) (i j : nat) :
  i ∈ adjacency es j
  <-> exists e, e ∈ es /\ (vertices e = (j, i) \/ vertices e = (i, j)).
Proof.
  unfold adjacency. rewrite list_elem_of_In, in_flat_map. split.
  - intros (e & He & Hi). apply list_elem_of_In in He. exists e. split; [done|].
    unfold ends_at in Hi. destruct (vertices e) as [v0 v1]. cbn [fst snd] in Hi.
    apply in_app_or in Hi as [Hi|Hi]; case_decide; simpl in Hi;
      intuition (subst; auto).
  - intros (e & He & Hcase). exists e. split; [by apply list_elem_of_In|].
    unfold ends_at. apply in_or_app.
    destruct Hcase as [-> | ->]; cbn [fst snd].
    + left. rewrite decide_True by done. by left.
    + right. rewrite decide_True by done. by left.
Qed.

Lemma init_nodes (vs : list BpyVertex) (es : list BpyEdge) (npNormal : vec3)
    (self : SlicerSoliton.t) :
  SlicerSoliton.init vs es npNormal = Return self ->
  SlicerSoliton.buildGraph es (map (fun vertex => Node.init vertex npNormal) vs)
  = Return (SlicerSoliton.nodesArr self)
  /\ SlicerSoliton.cubeEdgeLengthEval (SlicerSoliton.nodesArr self)
     = Return (SlicerSoliton.cubeEdgeLength self)
  /\ SlicerSoliton.maxRotatedZ self
     = SlicerSoliton.logestDiagonalLength (SlicerSoliton.cubeEdgeLength self)
  /\ SlicerSoliton.sortedNodesIndices self
     = sorted (SlicerSoliton.rotatedZ_at (map (fun vertex => Node.init vertex npNormal) vs))
         (seq 0 (length vs)).
Proof.
  unfold SlicerSoliton.init. cbv zeta. intros H.
  bind_inv H as arr Harr. bind_inv H as len Hlen. by injection H as <-.
Qed.

Lemma init_node_at (vs : list BpyVertex) (es : list BpyEdge) (npNormal : vec3)
    (self : SlicerSoliton.t) (j : nat) (node : Node.t) :
  SlicerSoliton.init vs es npNormal = Return self ->
  SlicerSoliton.nodesArr self !! j = Some node ->
  exists vertex, vs !! j = Some vertex
    /\ Node.coordinates node = co vertex
    /\ Node.rotatedZ node = dot (co vertex) npNormal
    /\ Node.neighboursIndices node = adjacency es j.
Proof.
  intros Hinit Hj. pose proof (init_spec _ _ _ _ Hinit) as (Hlen & _).
  apply init_nodes in Hinit as (Hbuild & _).
  pose proof (lookup_lt_Some _ _ _ Hj) as Hlt. rewrite Hlen in Hlt.
  destruct (lookup_lt_is_Some_2 vs j Hlt) as [vertex Hv]. exists vertex. split; [done|].
  assert (map (fun vertex => Node.init vertex npNormal) vs !! j
          = Some (Node.init vertex npNormal)) as H0.
  { change (map ?g vs) with (g <$> vs). by rewrite list_lookup_fmap, Hv. }
  destruct (buildGraph_adjacency _ _ _ _ _ Hbuild H0) as (node' & Hj' & Hn).
  rewrite Hj in Hj'. injection Hj' as <-.
  apply buildGraph_spec in Hbuild as [(_ & Hz & Hc & _) _].
  split; [|split; [|done]].
  - apply (f_equal (fun l => l !! j)) in Hc.
    rewrite list_lookup_fmap, Hj, list_lookup_fmap, H0 in Hc. by injection Hc.
  - apply (f_equal (fun l => l !! j)) in Hz.
    rewrite list_lookup_fmap, Hj, list_lookup_fmap, H0 in Hz. by injection Hz.
Qed.

(** The graph the constructor builds is the mesh: the neighbour list of
    every node is the list of the other ends of the edges at its vertex, in
    the order of the edge list, so a vertex is a neighbour exactly when an
    edge joins the two. *)
Theorem graph_is_the_mesh (vs : list BpyVertex) (es : list BpyEdge) (npNormal : vec3)
    (self : SlicerSoliton.t) (j : nat) (node : Node.t) :
  SlicerSoliton.init vs es npNormal = Return self ->
  SlicerSoliton.nodesArr self !! j = Some node ->
  Node.neighboursIndices node = adjacency es j
  /\ forall i, i ∈ Node.neighboursIndices node
       <-> exists e, e ∈ es /\ (vertices e = (j, i) \/ vertices e = (i, j)).
Proof.
  intros Hinit Hj.
  destruct (init_node_at _ _ _ _ _ _ Hinit Hj) as (vertex & _ & _ & _ & Hn).
  split; [done|]. intros i. rewrite Hn. apply elem_of_adjacency.
Qed.

Lemma graph_is_the_mesh_witness :
  exists self node,
    SlicerSoliton.init Examples.lineVertices Examples.lineEdges Examples.up = Return self
    /\ SlicerSoliton.nodesArr self !! 1 = Some node
    /\ Node.neighboursIndices node = adjacency Examples.lineEdges 1
    /\ forall i, i ∈ Node.neighboursIndices node
         <-> exists e, e ∈ Examples.lineEdges
               /\ (vertices e = (1, i) \/ vertices e = (i, 1)).
Proof.
  assert (exists self,
    SlicerSoliton.init Examples.lineVertices Examples.lineEdges Examples.up = Return self)
    as [self Hself] by (eexists; vm_compute; reflexivity).
  destruct (lookup_lt_is_Some_2 (SlicerSoliton.nodesArr self) 1) as [node Hnode].
  { rewrite (proj1 (init_spec _ _ _ _ Hself)). cbn. lia. }
  exists self, node. split; [done|]. split; [done|].
  exact (graph_is_the_mesh _ _ _ _ _ _ Hself Hnode).
Defined.

(** The graph is undirected: one node lists another as a neighbour exactly
    when the other lists it. *)
Theorem graph_is_symmetric (vs : list BpyVertex) (es : list BpyEdge) (npNormal : vec3)
    (self : SlicerSoliton.t) (i j : nat) (ni nj : Node.t) :
  SlicerSoliton.init vs es npNormal = Return self ->
  SlicerSoliton.nodesArr self !! i = Some ni ->
  SlicerSoliton.nodesArr self !! j = Some nj ->
  j ∈ Node.neighboursIndices ni <-> i ∈ Node.neighboursIndices nj.
Proof.
  intros Hinit Hi Hj.
  destruct (init_node_at _ _ _ _ _ _ Hinit Hi) as (_ & _ & _ & _ & ->).
  destruct (init_node_at _ _ _ _ _ _ Hinit Hj) as (_ & _ & _ & _ & ->).
  rewrite !elem_of_adjacency. split; intros (e & He & Hcase); exists e; tauto.
Qed.

Lemma graph_is_symmetric_witness :
  exists self n0 n1,
    SlicerSoliton.init Examples.lineVertices Examples.lineEdges Examples.up = Return self
    /\ SlicerSoliton.nodesArr self !! 0 = Some n0
    /\ SlicerSoliton.nodesArr self !! 1 = Some n1
    /\ (1 ∈ Node.neighboursIndices n0 <-> 0 ∈ Node.neighboursIndices n1).
Proof.
  assert (exists self,
    SlicerSoliton.init Examples.lineVertices Examples.lineEdges Examples.up = Return self)
    as [self Hself] by (eexists; vm_compute; reflexivity).
  pose proof (proj1 (init_spec _ _ _ _ Hself)) as Hlen.
  destruct (lookup_lt_is_Some_2 (SlicerSoliton.nodesArr self) 0) as [n0 H0].
  { rewrite Hlen. cbn. lia. }
  destruct (lookup_lt_is_Some_2 (SlicerSoliton.nodesArr self) 1) as [n1 H1].
  { rewrite Hlen. cbn. lia. }
  exists self, n0, n1. split; [done|]. split; [done|]. split; [done|].
  exact (graph_is_symmetric _ _ _ _ _ _ _ _ Hself H0 H1).
Defined.

(** The threshold of [slicer] comes from one edge: the spacing unit is the
    distance between vertex 0 and the other end of the first edge of the
    edge list that ends at vertex 0, and the threshold is that distance
    times the square root of three. *)
Theorem threshold_from_first_edge (vs : list BpyVertex) (es : list BpyEdge)
    (npNormal : vec3) (self : SlicerSoliton.t) :
  SlicerSoliton.init vs es npNormal = Return self ->
  exists (v0 vw : BpyVertex) (w : nat),
    vs !! 0 = Some v0
    /\ head (adjacency es 0) = Some w
    /\ vs !! w = Some vw
    /\ SlicerSoliton.cubeEdgeLength self
       = PrimFloat.sqrt (dot (vsub (co v0) (co vw)) (vsub (co v0) (co vw)))
    /\ SlicerSoliton.maxRotatedZ self
       = (SlicerSoliton.cubeEdgeLength self * PrimFloat.sqrt 3)%float.
Proof.
  intros Hinit. pose proof (init_nodes _ _ _ _ Hinit) as (_ & Hlen & Hmax & _).
  unfold SlicerSoliton.cubeEdgeLengthEval in Hlen.
  bind_inv Hlen as firstNode H0. bind_inv Hlen as w Hw. bind_inv Hlen as nw Hnw.
  injection Hlen as Hlen.
  apply getitem_Return in H0, Hw, Hnw.
  destruct (init_node_at _ _ _ _ _ _ Hinit H0) as (v0 & Hv0 & Hc0 & _ & Hn0).
  destruct (init_node_at _ _ _ _ _ _ Hinit Hnw) as (vw & Hvw & Hcw & _ & _).
  exists v0, vw, w. split; [done|]. split.
  { rewrite <- Hn0. by rewrite head_lookup. }
  split; [done|]. split; [|done].
  by rewrite <- Hlen, Hc0, Hcw.
Qed.

Lemma threshold_from_first_edge_witness :
  exists self (v0 vw : BpyVertex) (w : nat),
    SlicerSoliton.init Examples.lineVertices Examples.lineEdges Examples.up = Return self
    /\ Examples.lineVertices !! 0 = Some v0
    /\ head (adjacency Examples.lineEdges 0) = Some w
    /\ Examples.lineVertices !! w = Some vw
    /\ SlicerSoliton.cubeEdgeLength self
       = PrimFloat.sqrt (dot (vsub (co v0) (co vw)) (vsub (co v0) (co vw)))
    /\ SlicerSoliton.maxRotatedZ self
       = (SlicerSoliton.cubeEdgeLength self * PrimFloat.sqrt 3)%float.
Proof.
  assert (exists self,
    SlicerSoliton.init Examples.lineVertices Examples.lineEdges Examples.up = Return self)
    as [self Hself] by (eexists; vm_compute; reflexivity).
  destruct (threshold_from_first_edge _ _ _ _ Hself) as (v0 & vw & w & H).
  by exists self, v0, vw, w.
Defined.

(** ** The constructor: when it returns and how it fails *)

Lemma getitem_outcome {A : Type} (l : list A) (i : nat) :
  (exists x, getitem l i = Return x) \/ getitem l i = Raise IndexError.
Proof. unfold getitem. destruct (l !! i); eauto. Qed.

Lemma addEdge_outcome (e : BpyEdge) (arr : nodes) :
  (exists arr', SlicerSoliton.addEdge e arr = Return arr')
  \/ SlicerSoliton.addEdge e arr = Raise IndexError.
Proof.
  unfold SlicerSoliton.addEdge. destruct (vertices e) as [v0 v1].
  destruct (getitem_outcome arr v0) as [[n0 ->]| ->]; [|by right]. cbn [Py.bind].
  destruct (getitem_outcome (<[v0:=Node.addNeighbourIndex v1 n0]> arr) v1)
    as [[n1 ->]| ->]; [|by right].
  left. by eexists.
Qed.

Lemma buildGraph_outcome (es : list BpyEdge) (arr : nodes) :
  (exists arr', SlicerSoliton.buildGraph es arr = Return arr')
  \/ SlicerSoliton.buildGraph es arr = Raise IndexError.
Proof.
  unfold SlicerSoliton.buildGraph. revert arr.
  induction es as [|e es IH]; intros arr; cbn [for_]; [left; by eexists|].
  destruct (addEdge_outcome e arr) as [[arr1 ->]| ->]; [|by right].
  cbn [Py.bind]. apply IH.
Qed.

Lemma cubeEdgeLengthEval_outcome (arr : nodes) :
  (exists len, SlicerSoliton.cubeEdgeLengthEval arr = Return len)
  \/ SlicerSoliton.cubeEdgeLengthEval arr = Raise IndexError.
Proof.
  unfold SlicerSoliton.cubeEdgeLengthEval.
  destruct (getitem_outcome arr 0) as [[n0 ->]| ->]; [|by right]. cbn [Py.bind].
  destruct (getitem_outcome (Node.neighboursIndices n0) 0) as [[w ->]| ->]; [|by right].
  cbn [Py.bind].
  destruct (getitem_outcome arr w) as [[nw ->]| ->]; [|by right].
  left. by eexists.
Qed.

Lemma init_outcome_cases (vs : list BpyVertex) (es : list BpyEdge) (npNormal : vec3) :
  (exists self, SlicerSoliton.init vs es npNormal = Return self)
  \/ SlicerSoliton.init vs es npNormal = Raise IndexError.
Proof.
  unfold SlicerSoliton.init. cbv zeta.
  destruct (buildGraph_outcome es (map (fun vertex => Node.init vertex npNormal) vs))
    as [[arr ->]| ->]; [|by right]. cbn [Py.bind].
  destruct (cubeEdgeLengthEval_outcome arr) as [[len ->]| ->]; [|by right].
  left. by eexists.
Qed.

Lemma buildGraph_in_range (es : list BpyEdge) :
  forall (arr arr' : nodes),
    SlicerSoliton.buildGraph es arr = Return arr' ->
    Forall (fun e => (vertices e).1 < length arr /\ (vertices e).2 < length arr) es.
Proof.
  unfold SlicerSoliton.buildGraph.
  induction es as [|e es IH]; intros arr arr' H; cbn [for_] in H; [constructor|].
  bind_inv H as arr1 H1.
  apply addEdge_spec in H1 as ((Hlen & _) & _ & Ha & Hb).
  constructor; [done|]. rewrite <- Hlen. by eapply IH.
Qed.

Lemma init_needs (vs : list BpyVertex) (es : list BpyEdge) (npNormal : vec3)
    (self : SlicerSoliton.t) :
  SlicerSoliton.init vs es npNormal = Return self ->
  edges_ok vs es /\ touches0 es.
Proof.
  intros Hinit. split.
  - pose proof (init_nodes _ _ _ _ Hinit) as (Hbuild & _).
    apply buildGraph_in_range in Hbuild. by rewrite length_map in Hbuild.
  - pose proof (init_nodes _ _ _ _ Hinit) as (_ & Hlen & _).
    unfold SlicerSoliton.cubeEdgeLengthEval in Hlen.
    bind_inv Hlen as firstNode H0. bind_inv Hlen as w Hw.
    apply getitem_Return in H0, Hw.
    destruct (init_node_at _ _ _ _ _ _ Hinit H0) as (_ & _ & _ & _ & Hn0).
    rewrite Hn0 in Hw. apply list_elem_of_lookup_2, elem_of_adjacency in Hw
      as (e & He & Hcase).
    unfold touches0. apply Exists_exists. exists e. split; [done|].
    destruct Hcase as [-> | ->]; auto.
Qed.

(** The constructor returns exactly on a mesh whose edges all name vertices
    of the vertex list and in which some edge ends at vertex 0; on every
    other input it raises [IndexError], and it does nothing else. *)
Theorem constructor_outcome (vs : list BpyVertex) (es : list BpyEdge) (npNormal : vec3) :
  (edges_ok vs es /\ touches0 es
   /\ exists self, SlicerSoliton.init vs es npNormal = Return self)
  \/ (~ (edges_ok vs es /\ touches0 es)
      /\ SlicerSoliton.init vs es npNormal = Raise IndexError).
Proof.
  destruct (init_outcome_cases vs es npNormal) as [[self Hself]|Hfail].
  - left. destruct (init_needs _ _ _ _ Hself). eauto.
  - right. split; [|done]. intros [Hok Htouch].
    destruct (init_returns vs es npNormal Hok Htouch) as [self Hself]. congruence.
Qed.

(** ** The sorted indices *)

Ltac sf_cases :=
  repeat match goal with
  | s : bool |- _ => destruct s
  end;
  cbn; try congruence;
  repeat match goal with
  | |- context [(?a ?= ?b)%Z] => destruct (Z.compare_spec a b); cbn
  | H : context [(?a ?= ?b)%Z] |- _ => destruct (Z.compare_spec a b); cbn in H
  | |- context [PosDef.Pos.compare_cont Eq ?a ?b] =>
      change (PosDef.Pos.compare_cont Eq a b) with (Pos.compare a b);
      destruct (Pos.compare_spec a b); cbn
  | H : context [PosDef.Pos.compare_cont Eq ?a ?b] |- _ =>
      change (PosDef.Pos.compare_cont Eq a b) with (Pos.compare a b) in H;
      destruct (Pos.compare_spec a b); cbn in H
  end;
  try congruence; try lia.

Lemma SFltb_leb_total (a b : spec_float) :
  a <> S754_nan -> b <> S754_nan -> SFltb a b = false -> SFleb b a = true.
Proof.
  unfold SFltb, SFleb.
  destruct a as [s|s| |s m e], b as [s'|s'| |s' m' e']; intros Ha Hb; try congruence;
    cbn; intros H; sf_cases.
Qed.

Lemma SFltb_leb_trans (a b c : spec_float) :
  SFltb a b = true -> SFleb b c = true -> SFltb a c = true.
Proof.
  unfold SFltb, SFleb.
  destruct a as [s|s| |s m e], b as [s'|s'| |s' m' e'], c as [s''|s''| |s'' m'' e''];
    cbn; intros H1 H2; try congruence; sf_cases.
Qed.

Lemma SFltb_leb (a b : spec_float) : SFltb a b = true -> SFleb a b = true.
Proof. unfold SFltb, SFleb. by destruct (SFcompare a b) as [[]|]. Qed.

Lemma SFltb_not_leb (a b : spec_float) : SFltb a b = true -> SFleb b a = false.
Proof.
  unfold SFltb, SFleb.
  destruct a as [s|s| |s m e], b as [s'|s'| |s' m' e']; cbn; intros H; try congruence;
    sf_cases.
Qed.

Lemma is_nan_spec (x : float) : PrimFloat.is_nan x = false -> Prim2SF x <> S754_nan.
Proof.
  unfold PrimFloat.is_nan. rewrite FloatAxioms.eqb_spec. intros H Hn.
  rewrite Hn in H. discriminate.
Qed.

Lemma ltb_leb_total (x y : float) :
  PrimFloat.is_nan x = false -> PrimFloat.is_nan y = false ->
  PrimFloat.ltb x y = false -> PrimFloat.leb y x = true.
Proof.
  rewrite FloatAxioms.ltb_spec, FloatAxioms.leb_spec. intros Hx Hy.
  apply SFltb_leb_total; by apply is_nan_spec.
Qed.

Lemma ltb_leb_trans (x y z : float) :
  PrimFloat.ltb x y = true -> PrimFloat.leb y z = true -> PrimFloat.ltb x z = true.
Proof. rewrite !FloatAxioms.ltb_spec, FloatAxioms.leb_spec. apply SFltb_leb_trans. Qed.

Lemma ltb_leb (x y : float) : PrimFloat.ltb x y = true -> PrimFloat.leb x y = true.
Proof. rewrite FloatAxioms.ltb_spec, FloatAxioms.leb_spec. apply SFltb_leb. Qed.

Lemma ltb_not_leb (x y : float) : PrimFloat.ltb x y = true -> PrimFloat.leb y x = false.
Proof. rewrite FloatAxioms.ltb_spec, FloatAxioms.leb_spec. apply SFltb_not_leb. Qed.

Section Insertion.

Variable arr : nodes.
Hypothesis Hnan : forall i, PrimFloat.is_nan (SlicerSoliton.rotatedZ_at arr i) = false.

Local Abbreviation key := (SlicerSoliton.rotatedZ_at arr).

Lemma insert_by_in_height_order (x : nat) (acc : list nat) :
  in_height_order arr acc -> Forall (fun p => p < x) acc ->
  in_height_order arr (insert_by key x acc).
Proof.
  induction acc as [|y rest IH]; intros Hs Hlt; cbn [insert_by in_height_order].
  - by split.
  - destruct Hs as [Hy Hrest]. apply Forall_cons in Hlt as [Hyx Hlt].
    destruct (PrimFloat.ltb (key x) (key y)) eqn:Hcmp; cbn [in_height_order].
    + split; [|done].
      assert (forall s, PrimFloat.leb (key y) (key s) = true -> height_order arr x s) as Hx.
      { intros s Hys. pose proof (ltb_leb_trans _ _ _ Hcmp Hys) as Hxs.
        split; [by apply ltb_leb|]. rewrite (ltb_not_leb _ _ Hxs). discriminate. }
      constructor.
      * apply Hx. apply ltb_leb_total; [done..|].
        destruct (PrimFloat.ltb (key y) (key y)) eqn:Hyy; [|done].
        apply ltb_not_leb in Hyy as Hyy'. apply ltb_leb in Hyy. congruence.
      * eapply Forall_impl; [exact Hy|]. intros s [Hys _]. by apply Hx.
    + split; [|by apply IH].
      rewrite (insert_by_Permutation key x rest). constructor; [|done].
      split; [by apply ltb_leb_total|done].
Qed.

Lemma sorted_seq_in_height_order (n : nat) :
  forall (a : nat) (acc : list nat),
    in_height_order arr acc -> Forall (fun p => p < a) acc ->
    in_height_order arr (fold_left (fun acc x => insert_by key x acc) (seq a n) acc).
Proof.
  induction n as [|n IH]; intros a acc Hs Hlt; cbn [seq fold_left]; [done|].
  apply IH.
  - by apply insert_by_in_height_order.
  - rewrite (insert_by_Permutation key a acc). constructor; [lia|].
    eapply Forall_impl; [exact Hlt|]. intros p Hp. cbn in Hp. lia.
Qed.

Lemma in_height_order_lookup (l : list nat) :
  in_height_order arr l ->
  forall a b i j, a < b -> l !! a = Some i -> l !! b = Some j -> height_order arr i j.
Proof.
  induction l as [|y rest IH]; intros Hs a b i j Hab Ha Hb; [done|].
  destruct Hs as [Hy Hrest]. destruct b as [|b]; [lia|]. cbn in Hb.
  destruct a as [|a]; cbn in Ha.
  - injection Ha as ->. rewrite Forall_forall in Hy. apply Hy.
    by eapply list_elem_of_lookup_2.
  - apply (IH Hrest a b); [lia|done..].
Qed.

End Insertion.

Lemma insert_by_ext {X : Type} (key key' : X -> float) (x : X) (l : list X) :
  (forall y, key y = key' y) -> insert_by key x l = insert_by key' x l.
Proof.
  intros H. induction l as [|y l IH]; cbn [insert_by]; [done|].
  by rewrite !H, IH.
Qed.

Lemma sorted_ext {X : Type} (key key' : X -> float) (xs : list X) :
  (forall y, key y = key' y) -> sorted key xs = sorted key' xs.
Proof.
  intros H. unfold sorted. generalize (@nil X) as acc.
  induction xs as [|x xs IH]; intros acc; cbn [fold_left]; [done|].
  by rewrite (insert_by_ext key key' x acc H), IH.
Qed.

Lemma heights_comparable_at (arr : nodes) :
  heights_comparable arr ->
  forall i, PrimFloat.is_nan (SlicerSoliton.rotatedZ_at arr i) = false.
Proof.
  intros H i. unfold SlicerSoliton.rotatedZ_at.
  destruct (arr !! i) as [node|] eqn:Hi; [|reflexivity].
  unfold heights_comparable in H. rewrite Forall_forall in H. apply H.
  by eapply list_elem_of_lookup_2.
Qed.

(** [sorted] with the height as key does its work: when no height is
    not-a-number, the sorted indices are the indices of the vertices, each
    once, in ascending height, and indices of equal height keep their
    order. *)
Theorem sorted_indices_ascending (vs : list BpyVertex) (es : list BpyEdge)
    (npNormal : vec3) (self : SlicerSoliton.t) :
  SlicerSoliton.init vs es npNormal = Return self ->
  heights_comparable (SlicerSoliton.nodesArr self) ->
  SlicerSoliton.sortedNodesIndices self ≡ₚ seq 0 (length vs)
  /\ forall a b i j,
       a < b ->
       SlicerSoliton.sortedNodesIndices self !! a = Some i ->
       SlicerSoliton.sortedNodesIndices self !! b = Some j ->
       height_order (SlicerSoliton.nodesArr self) i j.
Proof.
  intros Hinit Hnan. split; [apply (init_spec _ _ _ _ Hinit)|].
  pose proof (init_nodes _ _ _ _ Hinit) as (Hbuild & _ & _ & Hsorted).
  apply buildGraph_spec in Hbuild as [(_ & Hz & _) _].
  apply in_height_order_lookup. rewrite Hsorted.
  rewrite (sorted_ext _ (SlicerSoliton.rotatedZ_at (SlicerSoliton.nodesArr self)))
    by (intros y; symmetry; by apply rotatedZ_at_fmap).
  unfold sorted. apply sorted_seq_in_height_order; [by apply heights_comparable_at|done|constructor].
Qed.

Lemma sorted_indices_ascending_witness :
  exists self,
    SlicerSoliton.init Examples.lineVertices Examples.lineEdges Examples.up = Return self
    /\ heights_comparable (SlicerSoliton.nodesArr self)
    /\ SlicerSoliton.sortedNodesIndices self ≡ₚ seq 0 (length Examples.lineVertices)
    /\ forall a b i j,
         a < b ->
         SlicerSoliton.sortedNodesIndices self !! a = Some i ->
         SlicerSoliton.sortedNodesIndices self !! b = Some j ->
         height_order (SlicerSoliton.nodesArr self) i j.
Proof.
  eexists. split; [vm_compute; reflexivity|].
  lazymatch goal with
  | |- heights_comparable (SlicerSoliton.nodesArr ?s) /\ _ =>
      assert (heights_comparable (SlicerSoliton.nodesArr s)) as Hnan
        by (unfold heights_comparable; cbn; repeat constructor);
      split; [exact Hnan|];
      apply (sorted_indices_ascending Examples.lineVertices Examples.lineEdges
               Examples.up s); [vm_compute; reflexivity | exact Hnan]
  end.
Defined.

(** ** bfs collects the connected part of the band *)

Lemma bfs_visit_cases (j : nat) (self : SliceSubSet.t) (q : list nat) (arr : nodes)
    (st' : SliceSubSet.bfs_state) :
  SliceSubSet.bfs_visit j (self, q, arr) = Return st' ->
  exists node, arr !! j = Some node /\
    ((~ (Node.sliceSubSetName node = ""
         /\ Node.sliceName node = SliceSubSet.sliceName self)
      /\ st' = (self, q, arr))
     \/ (Node.sliceSubSetName node = ""
         /\ Node.sliceName node = SliceSubSet.sliceName self
         /\ st' = (SliceSubSet.addNode j self, q ++ [j],
                   <[j := Node.setSliceSubSetName (SliceSubSet.ownName self) node]> arr))).
Proof.
  unfold SliceSubSet.bfs_visit. intros H. bind_inv H as node Hnode.
  apply getitem_Return in Hnode. exists node. split; [done|].
  unfold truthy in H. rewrite negb_involutive in H.
  destruct (bool_decide_reflect (Node.sliceSubSetName node = "")) as [He|He];
    destruct (bool_decide_reflect (Node.sliceName node = SliceSubSet.sliceName self))
      as [Hs|Hs];
    cbn in H; injection H as <-; [by right|left..]; (split; [tauto|done]).
Qed.

Lemma bfs_visit_core (arr0 : nodes) (band own : string) (i index x : nat)
    (n0 : Node.t) (st st' : SliceSubSet.bfs_state) :
  own <> "" ->
  bfs_core arr0 band own i st ->
  index ∈ SliceSubSet.sliceSubSetNodes st.1.1 ->
  arr0 !! index = Some n0 -> x ∈ Node.neighboursIndices n0 ->
  SliceSubSet.bfs_visit x st = Return st' ->
  bfs_core arr0 band own i st'
  /\ settled st'.2 band x
  /\ (forall j, settled st.2 band j -> settled st'.2 band j)
  /\ (forall m, m ∈ SliceSubSet.sliceSubSetNodes st'.1.1 ->
        m ∈ SliceSubSet.sliceSubSetNodes st.1.1 \/ m ∈ st'.1.2)
  /\ SliceSubSet.sliceSubSetNodes st.1.1 ⊆ SliceSubSet.sliceSubSetNodes st'.1.1
  /\ st.1.2 ⊆ st'.1.2.
Proof.
  destruct st as [[self q] arr]. cbn [fst snd].
  intros Hown (Ho & Hb & Hlen & Hframe & Hmem & Hnd & Hq & Hreach) Hindex Hn0 Hx Hvisit.
  cbn [fst snd] in *.
  apply bfs_visit_cases in Hvisit as (node & Hnode & [[Hno ->]|(He & Hs & ->)]);
    cbn [fst snd].
  - split; [done|]. split; [|by auto].
    exists node. split; [done|]. intros Hband Hempty. apply Hno. split; congruence.
  - assert (x ∉ SliceSubSet.sliceSubSetNodes self) as Hfresh.
    { intros Hin. destruct (Hmem x Hin) as (node0 & _ & _ & _ & Hcur).
      rewrite Hnode in Hcur. injection Hcur as ->. cbn in He. congruence. }
    assert (arr0 !! x = Some node) as Hx0 by (by rewrite <- Hframe).
    pose proof (lookup_lt_Some _ _ _ Hnode) as Hlt.
    assert (settled (<[x := Node.setSliceSubSetName (SliceSubSet.ownName self) node]> arr)
              band x) as Hsettled.
    { eexists. split; [by apply list_lookup_insert_eq|]. cbn. congruence. }
    split; [|split; [done|split; [|split; [|split]]]].
    + unfold bfs_core. cbn [fst snd].
      split; [done|]. split; [done|]. split; [by rewrite length_insert|].
      split; [|split; [|split; [|split]]].
      * intros j Hj. cbn in Hj. apply not_elem_of_app in Hj as [Hj Hjx].
        rewrite list_elem_of_singleton in Hjx.
        rewrite list_lookup_insert_ne by done. by apply Hframe.
      * intros m Hm. cbn in Hm. apply elem_of_app in Hm as [Hm|Hm].
        -- destruct (Hmem m Hm) as (node0 & H0 & H1 & H2 & H3).
           exists node0. repeat (split; [done|]).
           rewrite list_lookup_insert_ne; [done|]. intros ->. done.
        -- apply list_elem_of_singleton in Hm as ->.
           exists node. split; [done|]. split; [done|]. split; [congruence|].
           rewrite Ho. by apply list_lookup_insert_eq.
      * cbn. apply NoDup_app. split; [done|]. split; [|apply NoDup_singleton].
        intros m Hm Hmx. apply list_elem_of_singleton in Hmx as ->. done.
      * cbn. intros m Hm. apply elem_of_app in Hm as [Hm|Hm]; apply elem_of_app; auto.
      * cbn. intros m Hm. apply elem_of_app in Hm as [Hm|Hm]; [by apply Hreach|].
        apply list_elem_of_singleton in Hm as ->.
        apply (reachable_step arr0 band i index x n0); [by apply Hreach|done..|].
        exists node. split; [done|]. split; [congruence|done].
    + intros j (nj & Hj & Hcond). destruct (decide (j = x)) as [->|Hne]; [done|].
      exists nj. split; [by rewrite list_lookup_insert_ne|done].
    + cbn. intros m Hm. apply elem_of_app in Hm as [Hm|Hm]; [by left|].
      right. apply elem_of_app. by right.
    + cbn. intros m Hm. apply elem_of_app. by left.
    + intros m Hm. apply elem_of_app. by left.
Qed.

Lemma bfs_visits_core (arr0 : nodes) (band own : string) (i index : nat) (n0 : Node.t)
    (xs : list nat) :
  own <> "" ->
  arr0 !! index = Some n0 ->
  Forall (fun x => x ∈ Node.neighboursIndices n0) xs ->
  forall st st' : SliceSubSet.bfs_state,
    bfs_core arr0 band own i st ->
    index ∈ SliceSubSet.sliceSubSetNodes st.1.1 ->
    bfs_closed arr0 band [index] st ->
    for_ SliceSubSet.bfs_visit xs st = Return st' ->
    bfs_core arr0 band own i st'
    /\ bfs_closed arr0 band [index] st'
    /\ Forall (settled st'.2 band) xs
    /\ (forall j, settled st.2 band j -> settled st'.2 band j).
Proof.
  intros Hown Hn0. induction xs as [|x xs IH]; intros Hxs st st' Hcore Hindex Hclosed Hrun;
    cbn [for_] in Hrun.
  - injection Hrun as <-. split; [done|]. split; [done|]. split; [constructor|done].
  - apply Forall_cons in Hxs as [Hx Hxs]. bind_inv Hrun as st1 Hvisit.
    destruct (bfs_visit_core arr0 band own i index x n0 st st1 Hown Hcore Hindex Hn0 Hx Hvisit)
      as (Hcore1 & Hset1 & Hmono1 & Hsplit & Hsub & Hqsub).
    assert (bfs_closed arr0 band [index] st1) as Hclosed1.
    { intros m node0 j Hm Hq Hskip Hm0 Hj. apply Hmono1.
      destruct (Hsplit m Hm) as [Hold|Hnew]; [|done].
      apply (Hclosed m node0 j); try done. intros Hin. apply Hq. by apply Hqsub. }
    destruct (IH Hxs st1 st' Hcore1 (Hsub _ Hindex) Hclosed1 Hrun)
      as (Hcore' & Hclosed' & Hall & Hmono').
    split; [done|]. split; [done|]. split.
    + constructor; [by apply Hmono'|done].
    + intros j Hj. by apply Hmono', Hmono1.
Qed.

Lemma bfs_while_core (arr0 : nodes) (band own : string) (i : nat) (fuel : nat) :
  own <> "" ->
  forall st st' : SliceSubSet.bfs_state,
    bfs_core arr0 band own i st ->
    bfs_closed arr0 band [] st ->
    SliceSubSet.bfs_while fuel st = Return st' ->
    bfs_core arr0 band own i st' /\ bfs_closed arr0 band [] st' /\ st'.1.2 = [].
Proof.
  intros Hown. induction fuel as [|fuel IH]; intros [[self q] arr] st' Hcore Hclosed H;
    cbn [SliceSubSet.bfs_while] in H.
  - destruct q; [|done]. by injection H as <-.
  - destruct q as [|index q]; [by injection H as <-|].
    bind_inv H as currentNode Hcur. bind_inv H as st1 Hloop.
    apply getitem_Return in Hcur.
    pose proof Hcore as (Ho & Hb & Hlen & Hframe & Hmem & Hnd & Hq & Hreach).
    cbn [fst snd] in *.
    assert (index ∈ SliceSubSet.sliceSubSetNodes self) as Hindex
      by (apply Hq; by left).
    destruct (Hmem index Hindex) as (n0 & Hn0 & _ & _ & Hcur').
    rewrite Hcur in Hcur'. injection Hcur' as ->.
    cbn [Node.neighboursIndices Node.setSliceSubSetName] in Hloop.
    assert (Forall (fun x => x ∈ Node.neighboursIndices n0) (Node.neighboursIndices n0))
      as Hall0 by (by apply Forall_forall).
    assert (bfs_core arr0 band own i (self, q, arr)) as Hcore0.
    { unfold bfs_core. cbn [fst snd]. repeat (split; [done|]). split; [|done].
      intros m Hm. apply Hq. apply elem_of_cons. by right. }
    assert (bfs_closed arr0 band [index] (self, q, arr)) as Hclosed0.
    { intros m node0 j Hm Hmq Hskip Hm0 Hj.
      apply (Hclosed m node0 j); [done| |apply not_elem_of_nil|done|done].
      cbn [fst snd] in *. rewrite list_elem_of_singleton in Hskip.
      rewrite not_elem_of_cons. by split. }
    destruct (bfs_visits_core arr0 band own i index n0 (Node.neighboursIndices n0)
                Hown Hn0 Hall0 (self, q, arr) st1 Hcore0 Hindex Hclosed0 Hloop)
      as (Hcore1 & Hclosed1 & Hall & _).
    apply (IH st1 st'); [done| |done].
    intros m node0 j Hm Hmq _ Hm0 Hj.
    destruct (decide (m = index)) as [->|Hne].
    + rewrite Hn0 in Hm0. injection Hm0 as <-.
      rewrite Forall_forall in Hall. by apply Hall.
    + apply (Hclosed1 m node0 j); try done. by rewrite list_elem_of_singleton.
Qed.

(** What [bfs] has done when it returns, started as [sliceRunner] starts
    it, on a fresh sub-slice and a node without a sub-slice name. *)
Lemma bfs_spec (node : Node.t) (i k : nat) (arr arr' : nodes) (sub : SliceSubSet.t) :
  arr !! i = Some node ->
  Node.sliceSubSetName node = "" ->
  SliceSubSet.bfs (SliceSubSet.init node i k) i arr = Return (sub, arr') ->
  bfs_core arr (Node.sliceName node) (SliceSubSet.subSetName (Node.sliceName node) k) i
    (sub, [], arr')
  /\ bfs_closed arr (Node.sliceName node) [] (sub, [], arr').
Proof.
  intros Hi Hempty H. unfold SliceSubSet.bfs in H. cbv zeta in H.
  bind_inv H as currentNode Hcur. apply getitem_Return in Hcur.
  rewrite Hi in Hcur. injection Hcur as <-.
  bind_inv H as st1 Hwhile. destruct st1 as [[self1 q1] arr1]. injection H as <- <-.
  pose proof (lookup_lt_Some _ _ _ Hi) as Hlt.
  set (own := SliceSubSet.subSetName (Node.sliceName node) k).
  change (SliceSubSet.nodeSubSetName (SliceSubSet.addNode i (SliceSubSet.init node i k)))
    with own in Hwhile.
  assert (own <> "") as Hown by apply subSetName_nonempty.
  enough (bfs_core arr (Node.sliceName node) own i
            (SliceSubSet.addNode i (SliceSubSet.init node i k), [i],
             <[i:=Node.setSliceSubSetName own node]> arr)
          /\ bfs_closed arr (Node.sliceName node) []
               (SliceSubSet.addNode i (SliceSubSet.init node i k), [i],
                <[i:=Node.setSliceSubSetName own node]> arr)) as [Hcore0 Hclosed0].
  { destruct (bfs_while_core arr (Node.sliceName node) own i _ Hown _ _
                Hcore0 Hclosed0 Hwhile) as (Hcore & Hclosed & Hq).
    cbn [fst snd] in Hq. by subst q1. }
  split.
  - unfold bfs_core. cbn [fst snd SliceSubSet.addNode SliceSubSet.init
      SliceSubSet.ownName SliceSubSet.sliceName SliceSubSet.sliceSubSetNodes app].
    split; [done|]. split; [done|]. split; [by rewrite length_insert|].
    split; [|split; [|split; [|split]]].
    + intros j Hj. rewrite list_elem_of_singleton in Hj.
      by rewrite list_lookup_insert_ne.
    + intros m Hm. apply list_elem_of_singleton in Hm as ->.
      exists node. repeat (split; [done|]). by apply list_lookup_insert_eq.
    + apply NoDup_singleton.
    + done.
    + intros m Hm. apply list_elem_of_singleton in Hm as ->. constructor.
  - intros m node0 j Hm Hmq. cbn [fst snd] in *. done.
Qed.

(** [bfs] collects a connected part of the band: started on a fresh
    sub-slice at a node without a sub-slice name, it returns with every
    vertex listed once, the initial vertex first, and a vertex is listed
    exactly when it can be reached from the initial vertex along edges
    through nodes of the band that had no sub-slice name. *)
Theorem bfs_collects_component (node : Node.t) (i k : nat) (arr arr' : nodes)
    (sub : SliceSubSet.t) :
  arr !! i = Some node ->
  Node.sliceSubSetName node = "" ->
  SliceSubSet.bfs (SliceSubSet.init node i k) i arr = Return (sub, arr') ->
  NoDup (SliceSubSet.sliceSubSetNodes sub)
  /\ head (SliceSubSet.sliceSubSetNodes sub) = Some i
  /\ forall m, m ∈ SliceSubSet.sliceSubSetNodes sub
       <-> reachable arr (Node.sliceName node) i m.
Proof.
  intros Hi Hempty Hbfs.
  destruct (bfs_spec node i k arr arr' sub Hi Hempty Hbfs)
    as [(_ & _ & _ & Hframe & Hmem & Hnd & _ & Hreach) Hclosed].
  cbn [fst snd] in *.
  apply bfs_keeps in Hbfs as (_ & (more & Hmore) & _).
  cbn [SliceSubSet.init SliceSubSet.sliceSubSetNodes app] in Hmore.
  split; [done|]. split; [by rewrite Hmore|].
  intros m. split; [apply Hreach|].
  induction 1 as [|a b na Ha IH Hna Hb (nb & Hnb & Hband & Hnone)].
  - rewrite Hmore. by left.
  - destruct (decide (b ∈ SliceSubSet.sliceSubSetNodes sub)) as [|Hout]; [done|].
    destruct (Hclosed a na b IH) as (nb' & Hnb' & Hset); try done.
    { apply not_elem_of_nil. }
    { apply not_elem_of_nil. }
    cbn [fst snd] in Hnb'. rewrite (Hframe b Hout), Hnb in Hnb'. injection Hnb' as <-.
    by destruct (Hset Hband).
Qed.

Lemma bfs_collects_component_witness :
  exists self node sub arr',
    Examples.lineSliced = Return self
    /\ SlicerSoliton.nodesArr self !! 1 = Some node
    /\ SliceSubSet.bfs (SliceSubSet.init node 1 0) 1 (SlicerSoliton.nodesArr self)
       = Return (sub, arr')
    /\ NoDup (SliceSubSet.sliceSubSetNodes sub)
    /\ head (SliceSubSet.sliceSubSetNodes sub) = Some 1
    /\ forall m, m ∈ SliceSubSet.sliceSubSetNodes sub
         <-> reachable (SlicerSoliton.nodesArr self) (Node.sliceName node) 1 m.
Proof.
  eexists _, _, _, _. split; [vm_compute; reflexivity|]. split; [reflexivity|].
  lazymatch goal with
  | |- ?B /\ _ => assert B as Hbfs by (vm_compute; reflexivity); split; [exact Hbfs|]
  end.
  pose proof (fun H1 H2 => bfs_collects_component _ _ _ _ _ _ H1 H2 Hbfs) as Hthm.
  apply Hthm; reflexivity.
Defined.

(** [bfs] names exactly the vertices it lists: each of them was a node of
    the band without a sub-slice name and now carries the name of the
    sub-slice, which is the band name followed by the sub-slice index, and
    nothing else about it has changed; every other node is as it was. *)
Theorem bfs_names_its_members (node : Node.t) (i k : nat) (arr arr' : nodes)
    (sub : SliceSubSet.t) :
  arr !! i = Some node ->
  Node.sliceSubSetName node = "" ->
  SliceSubSet.bfs (SliceSubSet.init node i k) i arr = Return (sub, arr') ->
  SliceSubSet.ownName sub = SliceSubSet.subSetName (Node.sliceName node) k
  /\ length arr' = length arr
  /\ (forall m, m ∈ SliceSubSet.sliceSubSetNodes sub ->
        exists node0, arr !! m = Some node0
          /\ Node.sliceName node0 = Node.sliceName node
          /\ Node.sliceSubSetName node0 = ""
          /\ arr' !! m = Some (Node.setSliceSubSetName (SliceSubSet.ownName sub) node0))
  /\ (forall j, j ∉ SliceSubSet.sliceSubSetNodes sub -> arr' !! j = arr !! j).
Proof.
  intros Hi Hempty Hbfs.
  destruct (bfs_spec node i k arr arr' sub Hi Hempty Hbfs)
    as [(Hown & _ & Hlen & Hframe & Hmem & _) _].
  cbn [fst snd] in *.
  split; [done|]. split; [done|]. split; [|done].
  intros m Hm. destruct (Hmem m Hm) as (node0 & H0 & H1 & H2 & H3).
  exists node0. rewrite Hown. by repeat split.
Qed.

Lemma bfs_names_its_members_witness :
  exists self node sub arr',
    Examples.lineSliced = Return self
    /\ SlicerSoliton.nodesArr self !! 1 = Some node
    /\ SliceSubSet.bfs (SliceSubSet.init node 1 0) 1 (SlicerSoliton.nodesArr self)
       = Return (sub, arr')
    /\ SliceSubSet.ownName sub = SliceSubSet.subSetName (Node.sliceName node) 0
    /\ length arr' = length (SlicerSoliton.nodesArr self)
    /\ (forall m, m ∈ SliceSubSet.sliceSubSetNodes sub ->
          exists node0, SlicerSoliton.nodesArr self !! m = Some node0
            /\ Node.sliceName node0 = Node.sliceName node
            /\ Node.sliceSubSetName node0 = ""
            /\ arr' !! m
               = Some (Node.setSliceSubSetName (SliceSubSet.ownName sub) node0))
    /\ (forall j, j ∉ SliceSubSet.sliceSubSetNodes sub ->
          arr' !! j = SlicerSoliton.nodesArr self !! j).
Proof.
  eexists _, _, _, _. split; [vm_compute; reflexivity|]. split; [reflexivity|].
  lazymatch goal with
  | |- ?B /\ _ => assert B as Hbfs by (vm_compute; reflexivity); split; [exact Hbfs|]
  end.
  pose proof (fun H1 H2 => bfs_names_its_members _ _ _ _ _ _ H1 H2 Hbfs) as Hthm.
  apply Hthm; reflexivity.
Defined.

(** ** reducer: which vertices it marks and which it keeps *)

Lemma max_by_snoc {X : Type} (l : list (X * float)) :
  forall (best x : X * float),
    exists b, b ∈ best :: l
      /\ max_by best (l ++ [x]) = fst (if PrimFloat.ltb (snd b) (snd x) then x else b).
Proof.
  induction l as [|y l IH]; intros best x; cbn [app max_by].
  - exists best. split; [by left|]. by destruct (PrimFloat.ltb _ _).
  - destruct (IH (if PrimFloat.ltb (snd best) (snd y) then y else best) x)
      as (b & Hb & ->).
    exists b. split; [|done].
    apply elem_of_cons in Hb as [->|Hb].
    + destruct (PrimFloat.ltb _ _); [right; by left | by left].
    + by do 2 right.
Qed.

Lemma min_by_snoc {X : Type} (l : list (X * float)) :
  forall (best x : X * float),
    exists b, b ∈ best :: l
      /\ min_by best (l ++ [x]) = fst (if PrimFloat.ltb (snd x) (snd b) then x else b).
Proof.
  induction l as [|y l IH]; intros best x; cbn [app min_by].
  - exists best. split; [by left|]. by destruct (PrimFloat.ltb _ _).
  - destruct (IH (if PrimFloat.ltb (snd y) (snd best) then y else best) x)
      as (b & Hb & ->).
    exists b. split; [|done].
    apply elem_of_cons in Hb as [->|Hb].
    + destruct (PrimFloat.ltb _ _); [right; by left | by left].
    + by do 2 right.
Qed.

Lemma keyed_Return (arr : nodes) (indices : list nat) (ks : list (nat * float)) :
  SliceSubSet.keyed arr indices = Return ks ->
  ks = (fun i => (i, SlicerSoliton.rotatedZ_at arr i)) <$> indices.
Proof.
  revert ks. induction indices as [|i l IH]; intros ks H; cbn [SliceSubSet.keyed] in H.
  - by injection H as <-.
  - bind_inv H as node Hnode. bind_inv H as ks' Hks'. injection H as <-.
    apply getitem_Return in Hnode. cbn [fmap list_fmap].
    by rewrite (IH ks' Hks'), (rotatedZ_at_lookup _ _ _ Hnode).
Qed.

Lemma candidates_Return (own : string) (arr : nodes) (neighbours cs : list nat) :
  SliceSubSet.candidates own arr neighbours = Return cs ->
  forall c, c ∈ cs -> c ∈ neighbours /\ subSetName_at arr c <> own.
Proof.
  revert cs. induction neighbours as [|j l IH]; intros cs H c Hc;
    cbn [SliceSubSet.candidates] in H.
  - injection H as <-. by apply elem_of_nil in Hc.
  - bind_inv H as node Hnode. bind_inv H as cs' Hcs'. injection H as <-.
    apply getitem_Return in Hnode.
    destruct (bool_decide_reflect (Node.sliceSubSetName node = own)) as [He|He];
      cbn [negb] in Hc.
    + destruct (IH cs' Hcs' c Hc). split; [by right|done].
    + apply elem_of_cons in Hc as [->|Hc].
      * split; [by left|]. unfold subSetName_at. by rewrite Hnode.
      * destruct (IH cs' Hcs' c Hc). split; [by right|done].
Qed.

Lemma on_boundary_ext (s : SliceSubSet.strategy) (own : string) (arr arr' : nodes)
    (m : nat) :
  same_but_visited arr arr' -> on_boundary s own arr' m -> on_boundary s own arr m.
Proof.
  intros (Hlen & Hz & _ & Hn & Hs) (node' & c & Hm & Hc & Hname & Hcmp).
  assert (exists node, arr !! m = Some node
            /\ Node.neighboursIndices node = Node.neighboursIndices node')
    as (node & Hnode & Hnn).
  { apply (f_equal (fun l => l !! m)) in Hn. rewrite !list_lookup_fmap, Hm in Hn.
    destruct (arr !! m) as [node|]; [|done]. exists node. split; [done|].
    cbn in Hn. congruence. }
  exists node, c. split; [done|]. split; [by rewrite Hnn|].
  rewrite <- (subSetName_at_fmap _ _ c Hs). split; [done|].
  by rewrite <- !(rotatedZ_at_fmap _ _ Hz).
Qed.

Lemma reduce_node_boundary (s : SliceSubSet.strategy) (m : nat)
    (self self' : SliceSubSet.t) (arr arr' : nodes) :
  SliceSubSet.reduce_node s m (self, arr) = Return (self', arr') ->
  same_but_visited arr arr'
  /\ visited_at arr' m = true
  /\ (self' = self
      \/ (self' = SliceSubSet.addToReducedSlice m self
          /\ on_boundary s (SliceSubSet.ownName self) arr m)).
Proof.
  intros H. apply reduce_node_inv in H as (node & Hnode & Hcase).
  destruct Hcase as [(Hv & -> & ->)|(Hv & -> & cs & Hcs & Hkeep)].
  { split; [apply same_but_visited_refl|]. split; [|by left].
    unfold visited_at. by rewrite Hnode. }
  pose proof (same_but_visited_insert arr m node Hnode) as Hsame.
  split; [done|]. split.
  { rewrite (visited_at_insert _ _ _ _ Hnode). by rewrite decide_True. }
  destruct Hkeep as [[_ ->]|(Hne & ks & r & Hks & Hr & [[_ ->]|[Hrm ->]])];
    [by left..|].
  right. split; [done|]. apply (on_boundary_ext _ _ _ _ _ Hsame).
  set (arr1 := <[m:=Node.markAsVisited node]> arr) in *.
  apply keyed_Return in Hks. rewrite fmap_app in Hks. cbn [fmap list_fmap] in Hks.
  destruct cs as [|c0 cs]; [done|]. cbn [fmap list_fmap app] in Hks. subst ks.
  cbn [SliceSubSet.apply_strategy] in Hr. injection Hr as Hr.
  set (key := fun i : nat => (i, SlicerSoliton.rotatedZ_at arr1 i)) in *.
  assert (forall b, b ∈ key c0 :: (key <$> cs) ->
            exists c, c ∈ c0 :: cs /\ b = key c) as Hkeyed.
  { intros b Hb. change (key c0 :: (key <$> cs)) with (key <$> (c0 :: cs)) in Hb.
    apply list_elem_of_fmap in Hb as (c & -> & Hc). by exists c. }
  assert (exists node1, arr1 !! m = Some node1
            /\ Node.neighboursIndices node1 = Node.neighboursIndices node)
    as (node1 & Hnode1 & Hnn).
  { eexists. split; [apply list_lookup_insert_eq; by eapply lookup_lt_Some|done]. }
  change (c0, SlicerSoliton.rotatedZ_at arr1 c0) with (key c0) in Hr.
  change (m, SlicerSoliton.rotatedZ_at arr1 m) with (key m) in Hr.
  destruct s.
  - destruct (max_by_snoc (key <$> cs) (key c0) (key m)) as (b & Hb & Hmax).
    destruct (Hkeyed b Hb) as (c & Hc & ->).
    destruct (candidates_Return _ _ _ _ Hcs c Hc) as [Hcn Hcname].
    exists node1, c. split; [done|]. split; [by rewrite Hnn|]. split; [done|].
    rewrite Hmax in Hr. unfold key in Hr. cbn [fst snd] in Hr.
    destruct (PrimFloat.ltb _ _); [|done]. cbn [fst] in Hr. congruence.
  - destruct (min_by_snoc (key <$> cs) (key c0) (key m)) as (b & Hb & Hmin).
    destruct (Hkeyed b Hb) as (c & Hc & ->).
    destruct (candidates_Return _ _ _ _ Hcs c Hc) as [Hcn Hcname].
    exists node1, c. split; [done|]. split; [by rewrite Hnn|]. split; [done|].
    rewrite Hmin in Hr. unfold key in Hr. cbn [fst snd] in Hr.
    destruct (PrimFloat.ltb _ _); [|done]. cbn [fst] in Hr. congruence.
Qed.

Lemma reduce_loop_boundary (s : SliceSubSet.strategy) (ms : list nat) :
  forall (self self' : SliceSubSet.t) (arr arr' : nodes),
    for_ (SliceSubSet.reduce_node s) ms (self, arr) = Return (self', arr') ->
    exists more,
      SliceSubSet.reducedSlice self' = SliceSubSet.reducedSlice self ++ more
      /\ SliceSubSet.ownName self' = SliceSubSet.ownName self
      /\ Forall (on_boundary s (SliceSubSet.ownName self) arr) more
      /\ same_but_visited arr arr'
      /\ Forall (fun m => visited_at arr' m = true) ms.
Proof.
  induction ms as [|m ms IH]; intros self self' arr arr' H; cbn [for_] in H.
  - injection H as <- <-. exists []. rewrite app_nil_r.
    split; [done|]. split; [done|]. split; [constructor|].
    split; [apply same_but_visited_refl|constructor].
  - bind_inv H as st1 Hstep. destruct st1 as [self1 arr1].
    pose proof (reduce_loop_spec _ _ _ _ _ _ H) as (_ & _ & _ & _ & _ & Hmono).
    apply IH in H as (more & Hred & Hown & Hall & Hsame & Hvis).
    apply reduce_node_boundary in Hstep as (Hsame1 & Hm & Hcase).
    assert (SliceSubSet.ownName self1 = SliceSubSet.ownName self) as Hown1
      by (by destruct Hcase as [->|[-> _]]).
    assert (Forall (on_boundary s (SliceSubSet.ownName self) arr) more) as Hall0.
    { rewrite Hown1 in Hall. eapply Forall_impl; [exact Hall|].
      intros j. by apply on_boundary_ext. }
    assert (Forall (fun j => visited_at arr' j = true) (m :: ms)) as Hvis'
      by (constructor; [by apply Hmono|done]).
    pose proof (same_but_visited_trans _ _ _ Hsame1 Hsame) as Hsame'.
    destruct Hcase as [->|[-> Hb]].
    + exists more. by rewrite Hown.
    + exists (m :: more). rewrite Hred, Hown. cbn [SliceSubSet.reducedSlice
        SliceSubSet.addToReducedSlice SliceSubSet.ownName].
      split; [by rewrite <- app_assoc|]. split; [done|].
      split; [by constructor|done].
Qed.

(** The chain holds boundary vertices: after the seed, [reducer] appends
    vertices of the sub-slice in the order of its node list, and only
    vertices that have a neighbour outside the sub-slice which they do not
    beat under the strategy chosen at the seed. *)
Theorem chain_is_boundary (self self' : SliceSubSet.t) (arr arr' : nodes) :
  SliceSubSet.reducer self arr = Return (self', arr') ->
  exists seedNode s more,
    arr !! SliceSubSet.initialNodeIndex self = Some seedNode
    /\ SliceSubSet.choose_strategy seedNode arr (Node.neighboursIndices seedNode)
       = Return s
    /\ SliceSubSet.reducedSlice self'
       = SliceSubSet.reducedSlice self ++ SliceSubSet.initialNodeIndex self :: more
    /\ sublist more (SliceSubSet.sliceSubSetNodes self)
    /\ Forall (on_boundary s (SliceSubSet.ownName self) arr) more.
Proof.
  intros H. pose proof (reducer_spec _ _ _ _ H) as (more0 & Hred0 & Hsub & _).
  unfold SliceSubSet.reducer in H. bind_inv H as seedNode Hseed.
  cbv zeta in H. bind_inv H as s Hs. apply getitem_Return in Hseed.
  apply reduce_loop_boundary in H as (more & Hred & _ & Hall & _).
  cbn [SliceSubSet.reducedSlice SliceSubSet.addToReducedSlice SliceSubSet.ownName] in *.
  exists seedNode, s, more. split; [done|]. split; [done|].
  rewrite <- app_assoc in Hred. cbn [app] in Hred. split; [done|].
  destruct Hred0 as (_ & _ & _ & _ & _ & Hred0). rewrite Hred0 in Hred.
  apply app_inv_head in Hred. injection Hred as ->. by split.
Qed.

Lemma chain_is_boundary_witness :
  exists self node sub arr1 sub' arr2,
    Examples.lineSliced = Return self
    /\ SlicerSoliton.nodesArr self !! 1 = Some node
    /\ SliceSubSet.bfs (SliceSubSet.init node 1 0) 1 (SlicerSoliton.nodesArr self)
       = Return (sub, arr1)
    /\ SliceSubSet.reducer sub arr1 = Return (sub', arr2)
    /\ exists seedNode s more,
         arr1 !! SliceSubSet.initialNodeIndex sub = Some seedNode
         /\ SliceSubSet.choose_strategy seedNode arr1 (Node.neighboursIndices seedNode)
            = Return s
         /\ SliceSubSet.reducedSlice sub'
            = SliceSubSet.reducedSlice sub ++ SliceSubSet.initialNodeIndex sub :: more
         /\ sublist more (SliceSubSet.sliceSubSetNodes sub)
         /\ Forall (on_boundary s (SliceSubSet.ownName sub) arr1) more.
Proof.
  eexists _, _, _, _, _, _. split; [vm_compute; reflexivity|]. split; [reflexivity|].
  split; [vm_compute; reflexivity|].
  lazymatch goal with
  | |- ?B /\ _ => assert B as Hred by (vm_compute; reflexivity); split; [exact Hred|]
  end.
  exact (chain_is_boundary _ _ _ _ Hred).
Defined.

(** The reducer picks [min] exactly when some neighbour of the seed lies
    strictly lower than the seed in another slice, and [max] otherwise. *)
Theorem strategy_rule (currentNode : Node.t) (arr : nodes) (neighbours : list nat)
    (s : SliceSubSet.strategy) :
  SliceSubSet.choose_strategy currentNode arr neighbours = Return s ->
  s = SliceSubSet.Min <-> Exists (lower_in_other_slice currentNode arr) neighbours.
Proof.
  revert s. induction neighbours as [|j l IH]; intros s H;
    cbn [SliceSubSet.choose_strategy] in H.
  - injection H as <-. split; [done|]. intros Hex. by apply Exists_nil in Hex.
  - bind_inv H as neighbour Hn. apply getitem_Return in Hn.
    destruct (PrimFloat.ltb (Node.rotatedZ neighbour) (Node.rotatedZ currentNode)) eqn:Hlt;
      destruct (bool_decide_reflect
                  (Node.sliceName neighbour = Node.sliceName currentNode)) as [Hs|Hs];
      cbn [andb negb] in H.
    2: { injection H as <-. split; [|done]. intros _. apply Exists_cons_hd.
         by exists neighbour. }
    all: rewrite (IH s H); split; [by apply Exists_cons_tl|];
      intros Hex; apply Exists_cons in Hex as [(n' & Hn' & Hlt' & Hs')|Hex]; [|done];
      rewrite Hn in Hn'; injection Hn' as <-; congruence.
Qed.

Lemma strategy_rule_witness :
  exists self node s,
    Examples.lineSliced = Return self
    /\ SlicerSoliton.nodesArr self !! 2 = Some node
    /\ SliceSubSet.choose_strategy node (SlicerSoliton.nodesArr self)
         (Node.neighboursIndices node) = Return s
    /\ (s = SliceSubSet.Min
        <-> Exists (lower_in_other_slice node (SlicerSoliton.nodesArr self))
              (Node.neighboursIndices node)).
Proof.
  eexists _, _, _. split; [vm_compute; reflexivity|]. split; [reflexivity|].
  lazymatch goal with
  | |- ?B /\ _ => assert B as Hs by (vm_compute; reflexivity); split; [exact Hs|]
  end.
  exact (strategy_rule _ _ _ _ Hs).
Defined.

Lemma reducer_visited (self self' : SliceSubSet.t) (arr arr' : nodes) :
  SliceSubSet.reducer self arr = Return (self', arr') ->
  forall j, visited_at arr' j = true
    <-> visited_at arr j = true \/ j ∈ SliceSubSet.sliceSubSetNodes self.
Proof.
  intros H. pose proof (reducer_spec _ _ _ _ H) as (_ & _ & _ & _ & _ & Hmono).
  unfold SliceSubSet.reducer in H. bind_inv H as seedNode Hseed.
  cbv zeta in H. bind_inv H as s Hs.
  cbn [SliceSubSet.sliceSubSetNodes SliceSubSet.addToReducedSlice] in H.
  intros j. split.
  - intros Hj. by apply (reduce_loop_marks _ _ _ _ _ _ j H).
  - intros [Hj|Hj]; [by apply Hmono|].
    apply reduce_loop_boundary in H as (_ & _ & _ & _ & _ & Hvis).
    rewrite Forall_forall in Hvis. by apply Hvis.
Qed.



(** ** sliceRunner: the sub-slices partition the named vertices *)

Lemma dict_lookup_None (d : SlicerSoliton.subSlices) (key : string) :
  SlicerSoliton.dict_lookup d key = None -> key ∉ d.*1.
Proof.
  induction d as [|[k v] d IH]; cbn [SlicerSoliton.dict_lookup]; intros H.
  - apply not_elem_of_nil.
  - case_bool_decide as Hk; [done|]. cbn [fmap list_fmap fst].
    apply not_elem_of_cons. split; [congruence | by apply IH].
Qed.

Lemma dict_elem_lookup (d : SlicerSoliton.subSlices) (key : string)
    (l : list SliceSubSet.t) :
  NoDup d.*1 -> (key, l) ∈ d -> SlicerSoliton.dict_lookup d key = Some l.
Proof.
  induction d as [|[k v] d IH]; intros Hnd Hin; [by apply elem_of_nil in Hin|].
  cbn [fmap list_fmap fst] in Hnd. apply NoDup_cons in Hnd as [Hk Hnd].
  cbn [SlicerSoliton.dict_lookup].
  apply elem_of_cons in Hin as [[= -> ->]|Hin].
  - by rewrite bool_decide_eq_true_2.
  - case_bool_decide as Hkk; [|by apply IH].
    subst k. destruct Hk. apply list_elem_of_fmap. by exists (key, l).
Qed.

Lemma dict_replace_keys (d : SlicerSoliton.subSlices) (key : string)
    (v : list SliceSubSet.t) :
  (SlicerSoliton.dict_replace d key v).*1 = d.*1.
Proof.
  induction d as [|[k v0] d IH]; cbn [SlicerSoliton.dict_replace]; [done|].
  case_bool_decide; [done|]. cbn [fmap list_fmap fst]. f_equal. apply IH.
Qed.

Lemma dict_replace_other (d : SlicerSoliton.subSlices) (key name : string)
    (v subs : list SliceSubSet.t) :
  name <> key -> (name, subs) ∈ d -> (name, subs) ∈ SlicerSoliton.dict_replace d key v.
Proof.
  intros Hne. induction d as [|[k v0] d IH]; intros Hin; [done|].
  cbn [SlicerSoliton.dict_replace].
  apply elem_of_cons in Hin as [[= <- <-]|Hin].
  - rewrite bool_decide_eq_false_2 by done. by left.
  - case_bool_decide; right; [done | by apply IH].
Qed.

Lemma dict_replace_same (d : SlicerSoliton.subSlices) (key : string)
    (l v : list SliceSubSet.t) :
  SlicerSoliton.dict_lookup d key = Some l ->
  (key, v) ∈ SlicerSoliton.dict_replace d key v.
Proof.
  induction d as [|[k v0] d IH]; cbn [SlicerSoliton.dict_lookup SlicerSoliton.dict_replace];
    intros H; [done|].
  case_bool_decide as Hk; [subst; by left|]. right. by apply IH.
Qed.

Lemma stored_initiate (node : Node.t) (d : SlicerSoliton.subSlices) (name : string)
    (p : nat) (sub : SliceSubSet.t) :
  stored (SlicerSoliton.initiateNewSubSlicesList node d) name p sub <-> stored d name p sub.
Proof.
  unfold SlicerSoliton.initiateNewSubSlicesList, stored.
  destruct (SlicerSoliton.dict_lookup d (Node.sliceName node)); [done|].
  split; intros (subs & Hin & Hp); exists subs; (split; [|done]).
  - apply elem_of_app in Hin as [Hin|Hin]; [done|].
    apply list_elem_of_singleton in Hin. injection Hin as -> ->. done.
  - apply elem_of_app. by left.
Qed.

Lemma keys_initiate (node : Node.t) (d : SlicerSoliton.subSlices) :
  NoDup d.*1 -> NoDup (SlicerSoliton.initiateNewSubSlicesList node d).*1.
Proof.
  unfold SlicerSoliton.initiateNewSubSlicesList. intros Hnd.
  destruct (SlicerSoliton.dict_lookup d (Node.sliceName node)) eqn:Hl; [done|].
  rewrite fmap_app. apply NoDup_app. split; [done|]. split; [|apply NoDup_singleton].
  intros k Hk Hk'. cbn in Hk'. apply list_elem_of_singleton in Hk' as ->.
  by apply dict_lookup_None in Hl.
Qed.

Lemma stored_append (sub : SliceSubSet.t) (d d' : SlicerSoliton.subSlices) :
  NoDup d.*1 ->
  SlicerSoliton.appendNewSubSlice sub d = Return d' ->
  exists l,
    SlicerSoliton.dict_lookup d (SliceSubSet.sliceName sub) = Some l
    /\ NoDup d'.*1
    /\ stored d' (SliceSubSet.sliceName sub) (length l) sub
    /\ (forall name p s, stored d name p s -> stored d' name p s)
    /\ (forall name p s, stored d' name p s ->
          stored d name p s
          \/ (name = SliceSubSet.sliceName sub /\ p = length l /\ s = sub)).
Proof.
  intros Hnd H. unfold SlicerSoliton.appendNewSubSlice in H. bind_inv H as l Hl.
  injection H as <-. unfold SlicerSoliton.dict_get in Hl.
  destruct (SlicerSoliton.dict_lookup d (SliceSubSet.sliceName sub)) as [l'|] eqn:Hlook;
    [|done].
  injection Hl as ->. exists l. split; [done|].
  split; [by rewrite dict_replace_keys|]. split; [|split].
  - exists (l ++ [sub]). split; [by eapply dict_replace_same|].
    by rewrite lookup_app_r, Nat.sub_diag.
  - intros name p s (subs & Hin & Hp).
    destruct (decide (name = SliceSubSet.sliceName sub)) as [->|Hne].
    + rewrite (dict_elem_lookup _ _ _ Hnd Hin) in Hlook. injection Hlook as ->.
      exists (l ++ [sub]). split; [by eapply dict_replace_same, dict_elem_lookup|].
      by apply lookup_app_l_Some.
    + exists subs. split; [by apply dict_replace_other|done].
  - intros name p s (subs & Hin & Hp).
    apply dict_replace_elem in Hin as [Hin|[-> ->]]; [left; by exists subs|].
    destruct (decide (p < length l)) as [Hlt|Hge].
    + left. exists l. split; [by apply dict_lookup_elem|].
      by rewrite lookup_app_l in Hp.
    + right. split; [done|]. rewrite lookup_app_r in Hp by lia.
      destruct (p - length l) as [|n] eqn:Hn; cbn in Hp; [|done].
      injection Hp as ->. split; [lia|done].
Qed.

Lemma borders_other_slice_true (currentNode : Node.t) (arr : nodes)
    (neighbours : list nat) :
  SlicerSoliton.borders_other_slice currentNode arr neighbours = Return true ->
  exists c neighbour,
    c ∈ neighbours /\ arr !! c = Some neighbour
    /\ Node.sliceName neighbour <> Node.sliceName currentNode.
Proof.
  induction neighbours as [|j l IH]; cbn [SlicerSoliton.borders_other_slice]; intros H;
    [done|].
  bind_inv H as neighbour Hn. apply getitem_Return in Hn.
  case_bool_decide as Hs; cbn [negb] in H.
  - destruct (IH H) as (c & nc & Hc & Hnc & Hne). exists c, nc. split; [by right|done].
  - exists j, neighbour. split; [by left|done].
Qed.

Lemma borders_ext (arr arr' : nodes) (i : nat) :
  Node.sliceName <$> arr' = Node.sliceName <$> arr ->
  Node.neighboursIndices <$> arr' = Node.neighboursIndices <$> arr ->
  borders arr i -> borders arr' i.
Proof.
  intros Hs Hn (node & c & nc & Hi & Hc & Hnc & Hne).
  pose proof (fmap_eq_lookup _ _ _ i Hs) as Hsi.
  pose proof (fmap_eq_lookup _ _ _ i Hn) as Hni.
  pose proof (fmap_eq_lookup _ _ _ c Hs) as Hsc.
  rewrite Hi in Hsi, Hni. rewrite Hnc in Hsc.
  destruct (arr' !! i) as [node'|] eqn:Hi'; [|done].
  destruct (arr' !! c) as [nc'|] eqn:Hc'; [|done].
  cbn in Hsi, Hni, Hsc. injection Hsi as Hsi. injection Hni as Hni. injection Hsc as Hsc.
  exists node', c, nc'. split; [done|]. split; [by rewrite Hni|]. split; [done|].
  congruence.
Qed.

Lemma subslice_ok_ext (arr arr' : nodes) (name : string) (p : nat) (sub : SliceSubSet.t) :
  Node.sliceName <$> arr' = Node.sliceName <$> arr ->
  Node.neighboursIndices <$> arr' = Node.neighboursIndices <$> arr ->
  (forall m, m ∈ SliceSubSet.sliceSubSetNodes sub ->
     Node.sliceSubSetName <$> arr' !! m = Node.sliceSubSetName <$> arr !! m) ->
  subslice_ok arr name p sub -> subslice_ok arr' name p sub.
Proof.
  intros Hs Hn Hl (H1 & H2 & H3 & H4 & H5 & H6 & H7).
  repeat (split; [done|]). split; [by apply (borders_ext arr)|].
  intros m Hm. destruct (H7 m Hm) as [Ha Hb].
  split; [by rewrite (fmap_eq_lookup _ _ _ m Hs) | by rewrite (Hl m Hm)].
Qed.

Lemma newSubSlice_runner_inv (currentNode : Node.t) (nodeIndex : nat) (arr arr' : nodes)
    (d d' : SlicerSoliton.subSlices) :
  runner_inv arr d ->
  arr !! nodeIndex = Some currentNode ->
  Node.sliceSubSetName currentNode = "" ->
  borders arr nodeIndex ->
  SlicerSoliton.newSubSlice currentNode nodeIndex (arr, d) = Return (arr', d') ->
  runner_inv arr' d'.
Proof.
  intros (Hnd & Hok & Hlab) Hcur Hempty Hborder H.
  apply newSubSlice_inv in H as (l & sub1 & arr1 & sub2 & Hl & Hbfs & Hred & Happ).
  destruct (bfs_spec _ _ _ _ _ _ Hcur Hempty Hbfs)
    as [(Hown1 & Hband1 & _ & Hframe & Hmem & Hnd1 & _) _].
  cbn [fst snd] in *.
  apply bfs_keeps in Hbfs as ((_ & Hidx1 & Hinit1 & _) & (more & Hmore) & Hsame1 & _).
  cbn [SliceSubSet.init SliceSubSet.sliceSubSetNodes SliceSubSet.sliceSubSetIndex
       SliceSubSet.initialNodeIndex app] in *.
  apply reducer_spec in Hred
    as (_ & (Hband2 & Hidx2 & Hinit2 & Hmem2 & Hown2 & _) & _ & _ & Hsame2 & _).
  destruct Hsame1 as (_ & _ & Hs1 & Hn1 & _).
  destruct Hsame2 as (_ & _ & Hs2 & Hn2 & Hl2).
  assert (Node.sliceName <$> arr' = Node.sliceName <$> arr) as Hs by congruence.
  assert (Node.neighboursIndices <$> arr' = Node.neighboursIndices <$> arr) as Hn
    by congruence.
  destruct (stored_append sub2 d d' Hnd Happ) as (l' & Hl' & Hnd' & Hnew & Hkeep & Hsplit).
  assert (l' = l) as ->.
  { unfold SlicerSoliton.dict_get in Hl. rewrite Hband2, Hband1 in Hl'.
    rewrite Hl' in Hl. by injection Hl. }
  assert (forall m, m ∉ SliceSubSet.sliceSubSetNodes sub1 ->
            Node.sliceSubSetName <$> arr' !! m = Node.sliceSubSetName <$> arr !! m)
    as Hout.
  { intros m Hm. by rewrite (fmap_eq_lookup _ _ _ m Hl2), (Hframe m Hm). }
  assert (subslice_ok arr' (SliceSubSet.sliceName sub2) (length l) sub2) as Hok2.
  { rewrite Hband2, Hband1. split; [congruence|]. split; [congruence|].
    split; [congruence|]. rewrite Hmem2. split; [done|].
    split; [by rewrite Hmore, Hinit2, Hinit1|].
    split; [rewrite Hinit2, Hinit1; by apply (borders_ext arr)|].
    intros m Hm. destruct (Hmem m Hm) as (node0 & H0 & _ & Hb0 & H1).
    split.
    - by rewrite (fmap_eq_lookup _ _ _ m Hs), H0, <- Hb0.
    - rewrite (fmap_eq_lookup _ _ _ m Hl2), H1. cbn. congruence. }
  split; [done|]. split.
  - intros name p s Hst. destruct (Hsplit name p s Hst) as [Hold|(-> & -> & ->)]; [|done].
    pose proof (Hok name p s Hold) as Hs_ok.
    apply (subslice_ok_ext arr); [done..| |done].
    intros m Hm. apply Hout. intros Hin.
    destruct (Hmem m Hin) as (node0 & H0 & Hnone & _).
    destruct Hs_ok as (_ & _ & Hown_s & _ & _ & _ & Hms).
    destruct (Hms m Hm) as [_ Hlabel]. rewrite H0 in Hlabel. cbn in Hlabel.
    injection Hlabel as Hlabel. rewrite Hnone, Hown_s in Hlabel.
    by destruct (subSetName_nonempty name p).
  - intros j node Hj Hnamed.
    destruct (decide (j ∈ SliceSubSet.sliceSubSetNodes sub1)) as [Hin|Hnot].
    + exists (SliceSubSet.sliceName sub2), (length l), sub2. split; [done|].
      by rewrite Hmem2.
    + pose proof (Hout j Hnot) as Heq. rewrite Hj in Heq. cbn in Heq.
      destruct (arr !! j) as [node0|] eqn:Hj0; [|done]. cbn in Heq.
      injection Heq as Heq.
      destruct (Hlab j node0 Hj0) as (name & p & s & Hst & Hjs); [congruence|].
      exists name, p, s. split; [by apply Hkeep|done].
Qed.

Lemma runner_inv_initiate (node : Node.t) (arr : nodes) (d : SlicerSoliton.subSlices) :
  runner_inv arr d -> runner_inv arr (SlicerSoliton.initiateNewSubSlicesList node d).
Proof.
  intros (Hnd & Hok & Hlab). split; [by apply keys_initiate|]. split.
  - intros name p sub Hst. by apply Hok, (stored_initiate node).
  - intros j nj Hj Hnamed. destruct (Hlab j nj Hj Hnamed) as (name & p & sub & Hst & Hin).
    exists name, p, sub. split; [by apply stored_initiate|done].
Qed.

Lemma sliceRunner_loop_inv (xs : list nat) (arr arr' : nodes)
    (d d' : SlicerSoliton.subSlices) :
  runner_inv arr d ->
  for_ SlicerSoliton.sliceRunner_step xs (arr, d) = Return (arr', d') ->
  runner_inv arr' d'.
Proof.
  intros Hinv.
  apply (for_invariant (fun t : nodes * SlicerSoliton.subSlices => runner_inv t.1 t.2)
           _ _ (arr, d) (arr', d')); [|done].
  intros x [a1 d1] [a2 d2] _ Hinv1 Hstep. cbn [fst snd] in *.
  apply sliceRunner_step_inv in Hstep
    as (cur & Hcur & [[-> ->]|(Hname & Hb & Hstep)]).
  - by apply runner_inv_initiate.
  - apply (newSubSlice_runner_inv cur x a1 a2
             (SlicerSoliton.initiateNewSubSlicesList cur d1) d2); try done.
    + by apply runner_inv_initiate.
    + apply borders_other_slice_true in Hb as (c & nc & Hc & Hnc & Hne).
      by exists cur, c, nc.
Qed.

Lemma runner_inv_fresh (arr : nodes) :
  Forall (fun node => Node.sliceSubSetName node = "") arr -> runner_inv arr [].
Proof.
  intros Hfresh. split; [constructor|]. split.
  - intros name p sub (subs & Hin & _). by apply elem_of_nil in Hin.
  - intros j node Hj Hnamed. rewrite Forall_forall in Hfresh.
    destruct Hnamed. apply Hfresh. by eapply list_elem_of_lookup_2.
Qed.

Lemma sliceRunner_runner_inv (self self' : SlicerSoliton.t) :
  Forall (fun node => Node.sliceSubSetName node = "") (SlicerSoliton.nodesArr self) ->
  SlicerSoliton.subSlicesDict self = [] ->
  SlicerSoliton.sliceRunner self = Return self' ->
  runner_inv (SlicerSoliton.nodesArr self') (SlicerSoliton.subSlicesDict self').
Proof.
  intros Hfresh Hd H. unfold SlicerSoliton.sliceRunner in H.
  bind_inv H as [arr' d'] Hloop. injection H as <-.
  rewrite Hd in Hloop. cbn [SlicerSoliton.with_nodes SlicerSoliton.nodesArr
    SlicerSoliton.subSlicesDict].
  eapply sliceRunner_loop_inv; [|exact Hloop]. by apply runner_inv_fresh.
Qed.

Lemma subSetName_inj (name : string) (p p' : nat) :
  SliceSubSet.subSetName name p = SliceSubSet.subSetName name p' -> p = p'.
Proof.
  unfold SliceSubSet.subSetName. intros H. apply string_app_inv_l in H.
  unfold str in H. by apply (inj pretty) in H.
Qed.

(** The dictionary [sliceRunner] leaves is indexed as its users expect:
    its keys are distinct slice names, and the sub-slice at position [p]
    of the list under a name belongs to that slice, has index [p] and the
    name made of the two, lists its seed first, and its seed has a
    neighbour in another slice. *)
Theorem dictionary_is_indexed (self self' : SlicerSoliton.t) :
  Forall (fun node => Node.sliceSubSetName node = "") (SlicerSoliton.nodesArr self) ->
  SlicerSoliton.subSlicesDict self = [] ->
  SlicerSoliton.sliceRunner self = Return self' ->
  NoDup (SlicerSoliton.subSlicesDict self').*1
  /\ forall name subs p sub,
       (name, subs) ∈ SlicerSoliton.subSlicesDict self' -> subs !! p = Some sub ->
       SliceSubSet.sliceName sub = name
       /\ SliceSubSet.sliceSubSetIndex sub = p
       /\ SliceSubSet.ownName sub = SliceSubSet.subSetName name p
       /\ head (SliceSubSet.sliceSubSetNodes sub) = Some (SliceSubSet.initialNodeIndex sub)
       /\ borders (SlicerSoliton.nodesArr self') (SliceSubSet.initialNodeIndex sub).
Proof.
  intros Hfresh Hd H.
  destruct (sliceRunner_runner_inv self self' Hfresh Hd H) as (Hnd & Hok & _).
  split; [done|]. intros name subs p sub Hin Hp.
  destruct (Hok name p sub) as (H1 & H2 & H3 & _ & H5 & H6 & _); [by exists subs|].
  done.
Qed.

Lemma dictionary_is_indexed_witness :
  exists self self',
    Examples.lineSliced = Return self
    /\ SlicerSoliton.sliceRunner self = Return self'
    /\ NoDup (SlicerSoliton.subSlicesDict self').*1
    /\ forall name subs p sub,
         (name, subs) ∈ SlicerSoliton.subSlicesDict self' -> subs !! p = Some sub ->
         SliceSubSet.sliceName sub = name
         /\ SliceSubSet.sliceSubSetIndex sub = p
         /\ SliceSubSet.ownName sub = SliceSubSet.subSetName name p
         /\ head (SliceSubSet.sliceSubSetNodes sub)
            = Some (SliceSubSet.initialNodeIndex sub)
         /\ borders (SlicerSoliton.nodesArr self') (SliceSubSet.initialNodeIndex sub).
Proof.
  eexists _, _. split; [vm_compute; reflexivity|].
  lazymatch goal with
  | |- ?B /\ _ => assert B as Hrun by (vm_compute; reflexivity); split; [exact Hrun|]
  end.
  pose proof (fun H1 H2 => dictionary_is_indexed _ _ H1 H2 Hrun) as Hthm.
  apply Hthm; [repeat constructor | reflexivity].
Defined.

(** The sub-slices partition the named vertices: when [sliceRunner]
    returns, every sub-slice lists distinct vertices, all nodes of its
    slice carrying its name; every node with a sub-slice name is listed by
    a sub-slice; and no vertex is listed by two sub-slices. *)
Theorem subslices_partition (self self' : SlicerSoliton.t) :
  Forall (fun node => Node.sliceSubSetName node = "") (SlicerSoliton.nodesArr self) ->
  SlicerSoliton.subSlicesDict self = [] ->
  SlicerSoliton.sliceRunner self = Return self' ->
  (forall name p sub,
     stored (SlicerSoliton.subSlicesDict self') name p sub ->
     NoDup (SliceSubSet.sliceSubSetNodes sub)
     /\ forall m, m ∈ SliceSubSet.sliceSubSetNodes sub ->
          Node.sliceName <$> SlicerSoliton.nodesArr self' !! m = Some name
          /\ Node.sliceSubSetName <$> SlicerSoliton.nodesArr self' !! m
             = Some (SliceSubSet.ownName sub))
  /\ (forall j node,
        SlicerSoliton.nodesArr self' !! j = Some node ->
        Node.sliceSubSetName node <> "" ->
        exists name p sub,
          stored (SlicerSoliton.subSlicesDict self') name p sub
          /\ j ∈ SliceSubSet.sliceSubSetNodes sub)
  /\ (forall name p sub name' p' sub' m,
        stored (SlicerSoliton.subSlicesDict self') name p sub ->
        stored (SlicerSoliton.subSlicesDict self') name' p' sub' ->
        m ∈ SliceSubSet.sliceSubSetNodes sub ->
        m ∈ SliceSubSet.sliceSubSetNodes sub' ->
        name = name' /\ p = p' /\ sub = sub').
Proof.
  intros Hfresh Hd H.
  destruct (sliceRunner_runner_inv self self' Hfresh Hd H) as (Hnd & Hok & Hlab).
  split; [|split; [done|]].
  - intros name p sub Hst. destruct (Hok name p sub Hst) as (_ & _ & _ & H4 & _ & _ & H7).
    by split.
  - intros name p sub name' p' sub' m Hst Hst' Hm Hm'.
    destruct (Hok name p sub Hst) as (_ & _ & Hown & _ & _ & _ & H7).
    destruct (Hok name' p' sub' Hst') as (_ & _ & Hown' & _ & _ & _ & H7').
    destruct (H7 m Hm) as [Hs Hl]. destruct (H7' m Hm') as [Hs' Hl'].
    rewrite Hs in Hs'. injection Hs' as <-.
    rewrite Hl, Hown, Hown' in Hl'. injection Hl' as Hpp.
    apply subSetName_inj in Hpp as <-. split; [done|]. split; [done|].
    destruct Hst as (subs & Hin & Hp). destruct Hst' as (subs' & Hin' & Hp').
    pose proof (dict_elem_lookup _ _ _ Hnd Hin) as E.
    pose proof (dict_elem_lookup _ _ _ Hnd Hin') as E'.
    rewrite E in E'. injection E' as <-. congruence.
Qed.

Lemma subslices_partition_witness :
  exists self self',
    Examples.lineSliced = Return self
    /\ SlicerSoliton.sliceRunner self = Return self'
    /\ (forall name p sub,
          stored (SlicerSoliton.subSlicesDict self') name p sub ->
          NoDup (SliceSubSet.sliceSubSetNodes sub)
          /\ forall m, m ∈ SliceSubSet.sliceSubSetNodes sub ->
               Node.sliceName <$> SlicerSoliton.nodesArr self' !! m = Some name
               /\ Node.sliceSubSetName <$> SlicerSoliton.nodesArr self' !! m
                  = Some (SliceSubSet.ownName sub))
    /\ (forall j node,
          SlicerSoliton.nodesArr self' !! j = Some node ->
          Node.sliceSubSetName node <> "" ->
          exists name p sub,
            stored (SlicerSoliton.subSlicesDict self') name p sub
            /\ j ∈ SliceSubSet.sliceSubSetNodes sub)
    /\ (forall name p sub name' p' sub' m,
          stored (SlicerSoliton.subSlicesDict self') name p sub ->
          stored (SlicerSoliton.subSlicesDict self') name' p' sub' ->
          m ∈ SliceSubSet.sliceSubSetNodes sub ->
          m ∈ SliceSubSet.sliceSubSetNodes sub' ->
          name = name' /\ p = p' /\ sub = sub').
Proof.
  eexists _, _. split; [vm_compute; reflexivity|].
  lazymatch goal with
  | |- ?B /\ _ => assert B as Hrun by (vm_compute; reflexivity); split; [exact Hrun|]
  end.
  pose proof (fun H1 H2 => subslices_partition _ _ H1 H2 Hrun) as Hthm.
  apply Hthm; [repeat constructor | reflexivity].
Defined.

(** ** slicesHighlighter: what it selects when it returns *)

(** When [slicesHighlighter] returns, it has selected the chains it was
    asked for and nothing else: the slice index names a key, and in the
    object it leaves only the selection flags of the Blender vertices may
    differ; a vertex is selected exactly when it was selected before or
    lies in the reduced chain of a requested sub-slice of that slice. *)
Theorem highlighter_selects_requested (self self' : SlicerSoliton.t) (sliceIndex : Z)
    (subSlicesIndices : list Z) :
  SlicerSoliton.slicesHighlighter self sliceIndex subSlicesIndices = (Return tt, self') ->
  exists key subSlicesArr,
    getitemZ (map fst (SlicerSoliton.subSlicesDict self)) sliceIndex = Return key
    /\ SlicerSoliton.dict_get (SlicerSoliton.subSlicesDict self) key = Return subSlicesArr
    /\ self' = SlicerSoliton.with_bpyNodes (SlicerSoliton.initialBpyNodes self') self
    /\ selects (fun v => exists sub,
                  requested subSlicesArr subSlicesIndices sub
                  /\ v ∈ SliceSubSet.reducedSlice sub)
         (SlicerSoliton.initialBpyNodes self) (SlicerSoliton.initialBpyNodes self').
Proof.
  unfold SlicerSoliton.slicesHighlighter. cbv zeta. intros H.
  destruct (getitemZ (map fst (SlicerSoliton.subSlicesDict self)) sliceIndex)
    as [key| |] eqn:Hkey; try done.
  destruct (SlicerSoliton.dict_get (SlicerSoliton.subSlicesDict self) key)
    as [subs| |] eqn:Hsubs; try done.
  exists key, subs. split; [done|]. split; [done|].
  destruct subSlicesIndices as [|i indices].
  - destruct (SlicerSoliton.highlight_all subs (SlicerSoliton.initialBpyNodes self))
      as [r vs'] eqn:Hall.
    injection H as -> <-. split; [done|]. cbn [SlicerSoliton.initialBpyNodes
      SlicerSoliton.with_bpyNodes requested].
    by apply highlight_all_spec.
  - destruct (SlicerSoliton.highlight_some subs (i :: indices)
                (SlicerSoliton.initialBpyNodes self)) as [r vs'] eqn:Hsome.
    injection H as -> <-. split; [done|]. cbn [SlicerSoliton.initialBpyNodes
      SlicerSoliton.with_bpyNodes requested].
    destruct (highlight_some_spec _ _ _ _ Hsome) as [Hc Hs]. split; [done|].
    intros v. rewrite Hs. split; (intros [?|Hv]; [by left|right]).
    + destruct Hv as (j & s & Hj & Hjs & Hv). exists s. split; [by exists j|done].
    + destruct Hv as (s & (j & Hj & Hjs) & Hv). by exists j, s.
Qed.

Lemma highlighter_selects_requested_witness :
  exists self self',
    Examples.lineSlicer = Return self
    /\ SlicerSoliton.slicesHighlighter self 0 [0%Z] = (Return tt, self')
    /\ exists key subSlicesArr,
         getitemZ (map fst (SlicerSoliton.subSlicesDict self)) 0 = Return key
         /\ SlicerSoliton.dict_get (SlicerSoliton.subSlicesDict self) key
            = Return subSlicesArr
         /\ self' = SlicerSoliton.with_bpyNodes (SlicerSoliton.initialBpyNodes self') self
         /\ selects (fun v => exists sub,
                       requested subSlicesArr [0%Z] sub
                       /\ v ∈ SliceSubSet.reducedSlice sub)
              (SlicerSoliton.initialBpyNodes self) (SlicerSoliton.initialBpyNodes self').
Proof.
  eexists _, _. split; [vm_compute; reflexivity|].
  lazymatch goal with
  | |- ?B /\ _ => assert B as Hrun by (vm_compute; reflexivity); split; [exact Hrun|]
  end.
  exact (highlighter_selects_requested _ _ _ _ Hrun).
Defined.

(** ** sliceRunner: what it keeps *)

Lemma kept_by_runner_refl (arr : nodes) : kept_by_runner arr arr.
Proof. by repeat split. Qed.

Lemma kept_by_runner_trans (a b c : nodes) :
  kept_by_runner a b -> kept_by_runner b c -> kept_by_runner a c.
Proof.
  intros (H1 & H2 & H3 & H4 & H5 & H6) (K1 & K2 & K3 & K4 & K5 & K6).
  split; [congruence|]. split; [congruence|]. split; [congruence|].
  split; [congruence|]. split.
  - intros j Hj. rewrite <- (H5 j Hj). apply K5. by rewrite (H5 j Hj).
  - intros j Hj. by apply K6, H6.
Qed.

(** The names after a search: the vertices of the sub-slice carry its
    name, every other node the name it had. *)
Lemma bfs_names_at (node : Node.t) (i k : nat) (arr arr' : nodes) (sub : SliceSubSet.t) :
  arr !! i = Some node ->
  Node.sliceSubSetName node = "" ->
  SliceSubSet.bfs (SliceSubSet.init node i k) i arr = Return (sub, arr') ->
  forall j,
    ((j ∈ SliceSubSet.sliceSubSetNodes sub)
     /\ subSetName_at arr j = "" /\ subSetName_at arr' j <> "")
    \/ ((j ∉ SliceSubSet.sliceSubSetNodes sub)
        /\ subSetName_at arr' j = subSetName_at arr j).
Proof.
  intros Hi Hempty Hbfs j.
  destruct (bfs_spec _ _ _ _ _ _ Hi Hempty Hbfs) as [(_ & _ & _ & Hframe & Hmem & _) _].
  cbn [fst snd] in *.
  destruct (decide (j ∈ SliceSubSet.sliceSubSetNodes sub)) as [Hin|Hout].
  - left. split; [done|]. destruct (Hmem j Hin) as (node0 & H0 & Hnone & _ & H1).
    unfold subSetName_at. rewrite H0, H1. split; [done|]. cbn.
    apply subSetName_nonempty.
  - right. split; [done|]. unfold subSetName_at. by rewrite (Hframe j Hout).
Qed.

Lemma newSubSlice_kept (node : Node.t) (i k : nat) (arr arr1 arr2 : nodes)
    (sub1 sub2 : SliceSubSet.t) :
  arr !! i = Some node ->
  Node.sliceSubSetName node = "" ->
  SliceSubSet.bfs (SliceSubSet.init node i k) i arr = Return (sub1, arr1) ->
  SliceSubSet.reducer sub1 arr1 = Return (sub2, arr2) ->
  kept_by_runner arr arr2
  /\ (named_iff_visited arr -> named_iff_visited arr2).
Proof.
  intros Hi Hempty Hbfs Hred.
  pose proof (bfs_names_at _ _ _ _ _ _ Hi Hempty Hbfs) as Hnames.
  pose proof (bfs_keeps _ _ _ _ _ Hbfs) as (_ & _ & (Hl1 & Hz1 & Hs1 & Hn1 & Hv1) & _).
  pose proof (reducer_spec _ _ _ _ Hred)
    as (_ & _ & _ & _ & (Hl2 & Hz2 & Hs2 & Hn2 & Hlab2) & Hmono).
  pose proof (reducer_visited _ _ _ _ Hred) as Hvis.
  assert (forall j, subSetName_at arr2 j = subSetName_at arr1 j) as Hsame
    by (intros j; by apply subSetName_at_fmap).
  assert (forall j, visited_at arr1 j = visited_at arr j) as Hsamev
    by (intros j; by apply visited_at_fmap).
  split.
  - split; [congruence|]. split; [congruence|]. split; [congruence|].
    split; [congruence|]. split.
    + intros j Hj. rewrite Hsame.
      destruct (Hnames j) as [(_ & Hnone & _)|[_ Heq]]; [done|done].
    + intros j Hj. apply Hmono. by rewrite Hsamev.
  - intros Hiff j. rewrite Hvis, Hsamev, Hsame, (Hiff j).
    destruct (Hnames j) as [(Hin & Hnone & Hnew)|[Hout Heq]].
    + split; [done | by right].
    + rewrite Heq. split; [by intros [?|?] | by left].
Qed.

Lemma sliceRunner_loop_kept (xs : list nat) (arr arr' : nodes)
    (d d' : SlicerSoliton.subSlices) :
  for_ SlicerSoliton.sliceRunner_step xs (arr, d) = Return (arr', d') ->
  kept_by_runner arr arr' /\ (named_iff_visited arr -> named_iff_visited arr').
Proof.
  intros H.
  apply (sliceRunner_invariant
           (fun a => kept_by_runner arr a
                     /\ (named_iff_visited arr -> named_iff_visited a))
           (fun _ => True)) in H as [Hkept _]; [done| | |done].
  - intros cur i k a sub1 a1 sub2 a2 [Hk Hiff] Hcur Hempty Hbfs Hred.
    destruct (newSubSlice_kept _ _ _ _ _ _ _ _ Hcur Hempty Hbfs Hred) as [Hk2 Hiff2].
    split; [|done]. split; [by apply (kept_by_runner_trans _ a)|auto].
  - split; [apply kept_by_runner_refl|done].
Qed.

(** [sliceRunner] only names and marks: when it returns, the object
    differs in its nodes and its dictionary only, the nodes have the
    heights, slice names and neighbours they had, and no node has lost a
    sub-slice name or a visited flag it had. *)
Theorem runner_only_names_and_marks (self self' : SlicerSoliton.t) :
  SlicerSoliton.sliceRunner self = Return self' ->
  self' = SlicerSoliton.with_nodes (SlicerSoliton.nodesArr self')
            (SlicerSoliton.subSlicesDict self') self
  /\ kept_by_runner (SlicerSoliton.nodesArr self) (SlicerSoliton.nodesArr self').
Proof.
  unfold SlicerSoliton.sliceRunner. intros H. bind_inv H as [arr' d'] Hloop.
  injection H as <-. split; [done|].
  by apply sliceRunner_loop_kept in Hloop as [Hkept _].
Qed.

Lemma runner_only_names_and_marks_witness :
  exists self self',
    Examples.lineSliced = Return self
    /\ SlicerSoliton.sliceRunner self = Return self'
    /\ self' = SlicerSoliton.with_nodes (SlicerSoliton.nodesArr self')
                 (SlicerSoliton.subSlicesDict self') self
    /\ kept_by_runner (SlicerSoliton.nodesArr self) (SlicerSoliton.nodesArr self').
Proof.
  eexists _, _. split; [vm_compute; reflexivity|].
  lazymatch goal with
  | |- ?B /\ _ => assert B as Hrun by (vm_compute; reflexivity); split; [exact Hrun|]
  end.
  exact (runner_only_names_and_marks _ _ Hrun).
Defined.

(** After the pass the visited nodes are the named ones: if that is so
    when [sliceRunner] starts, as it is on fresh nodes, it is so when it
    returns. *)
Theorem runner_marks_what_it_names (self self' : SlicerSoliton.t) :
  named_iff_visited (SlicerSoliton.nodesArr self) ->
  SlicerSoliton.sliceRunner self = Return self' ->
  named_iff_visited (SlicerSoliton.nodesArr self').
Proof.
  unfold SlicerSoliton.sliceRunner. intros Hiff H. bind_inv H as [arr' d'] Hloop.
  injection H as <-. cbn [SlicerSoliton.nodesArr SlicerSoliton.with_nodes].
  apply sliceRunner_loop_kept in Hloop as [_ Hiff']. by apply Hiff'.
Qed.

Lemma runner_marks_what_it_names_witness :
  exists self self',
    Examples.lineSliced = Return self
    /\ named_iff_visited (SlicerSoliton.nodesArr self)
    /\ SlicerSoliton.sliceRunner self = Return self'
    /\ named_iff_visited (SlicerSoliton.nodesArr self').
Proof.
  eexists _, _. split; [vm_compute; reflexivity|].
  lazymatch goal with
  | |- ?A /\ ?B /\ _ =>
      assert A as Hiff;
      [ intros [|[|[|j]]]; vm_compute; split; intros; congruence
      | assert B as Hrun by (vm_compute; reflexivity);
        split; [exact Hiff|]; split; [exact Hrun|] ]
  end.
  exact (runner_marks_what_it_names _ _ Hiff Hrun).
Defined.

(** ** The script as a whole *)

Lemma slicer_loop_names (sb : string) (thr : float) (xs : list nat) :
  forall st st' : SlicerSoliton.slicer_state,
    st.1.2 = SlicerSoliton.sliceNameOf sb st.1.1.2 ->
    for_ (SlicerSoliton.slicer_step sb thr) xs st = Return st' ->
    (forall j, band_named sb st.2 j -> band_named sb st'.2 j)
    /\ (forall j, j ∈ xs -> band_named sb st'.2 j).
Proof.
  induction xs as [|x xs IH]; intros st st' Hnm H; cbn [for_] in H.
  - injection H as <-. split; [done|]. intros j Hj. by apply elem_of_nil in Hj.
  - bind_inv H as st1 Hstep. destruct st as [[[b k] nm] arr]. cbn [fst snd] in *.
    apply slicer_step_inv in Hstep as (bn & cn & _ & Hcn & Hcase).
    pose proof (lookup_lt_Some _ _ _ Hcn) as Hlt.
    assert (exists k1,
      st1.1.2 = SlicerSoliton.sliceNameOf sb st1.1.1.2
      /\ st1.2 = <[x := Node.setSliceName (SlicerSoliton.sliceNameOf sb k1) cn]> arr)
      as (k1 & Hnm1 & Harr1).
    { destruct Hcase as [[_ ->]|[_ ->]]; cbn [fst snd];
        [exists k | exists (k + 1)]; by rewrite ?Hnm. }
    destruct (IH st1 st' Hnm1 H) as [Hmono Hrest].
    assert (band_named sb st1.2 x) as Hx.
    { rewrite Harr1. eexists _, k1. split; [by apply list_lookup_insert_eq|done]. }
    split.
    + intros j Hj. apply Hmono. destruct (decide (j = x)) as [->|Hne]; [done|].
      destruct Hj as (node & kj & Hj & Hname). exists node, kj.
      rewrite Harr1. by rewrite list_lookup_insert_ne.
    + intros j Hj. apply elem_of_cons in Hj as [->|Hj]; [by apply Hmono | by apply Hrest].
Qed.

Lemma slicer_names (self self' : SlicerSoliton.t) (sb : string) :
  SlicerSoliton.sliceNameBase self = Some sb ->
  SlicerSoliton.slicer self = Return self' ->
  forall j, j ∈ SlicerSoliton.sortedNodesIndices self ->
    band_named sb (SlicerSoliton.nodesArr self') j.
Proof.
  intros Hsb H.
  assert (exists i0 rest n0,
    SlicerSoliton.sortedNodesIndices self = i0 :: rest
    /\ SlicerSoliton.nodesArr self !! i0 = Some n0) as (i0 & rest & n0 & Hs & Hn).
  { unfold SlicerSoliton.slicer in H. cbv zeta in H.
    bind_inv H as b Hb. bind_inv H as n Hn.
    apply getitem_Return in Hb, Hn.
    destruct (SlicerSoliton.sortedNodesIndices self) as [|i0 rest]; [done|].
    injection Hb as ->. by exists b, rest, n. }
  destruct (slicer_unfold self sb i0 rest n0 Hs Hn Hsb) as [Hunf _].
  rewrite Hunf in H. bind_inv H as st' Hloop. injection H as <-.
  cbn [SlicerSoliton.nodesArr SlicerSoliton.with_nodes]. rewrite Hs.
  by apply (slicer_loop_names sb _ _
              (i0, 0, SlicerSoliton.sliceNameOf sb 0, SlicerSoliton.nodesArr self)
              st' eq_refl Hloop).
Qed.

Lemma keys_initiate_grow (node : Node.t) (d : SlicerSoliton.subSlices) :
  d.*1 ⊆ (SlicerSoliton.initiateNewSubSlicesList node d).*1
  /\ Node.sliceName node ∈ (SlicerSoliton.initiateNewSubSlicesList node d).*1.
Proof.
  unfold SlicerSoliton.initiateNewSubSlicesList.
  destruct (SlicerSoliton.dict_lookup d (Node.sliceName node)) as [l|] eqn:Hl.
  - split; [done|]. apply dict_lookup_elem in Hl.
    apply list_elem_of_fmap. by exists (Node.sliceName node, l).
  - rewrite fmap_app. split.
    + intros k Hk. apply elem_of_app. by left.
    + apply elem_of_app. right. by left.
Qed.

Lemma sliceRunner_step_keys (x : nat) (arr arr' : nodes) (d d' : SlicerSoliton.subSlices) :
  SlicerSoliton.sliceRunner_step x (arr, d) = Return (arr', d') ->
  d.*1 ⊆ d'.*1
  /\ exists node, arr !! x = Some node /\ Node.sliceName node ∈ d'.*1.
Proof.
  intros H. apply sliceRunner_step_inv in H as (cur & Hcur & [[-> ->]|(_ & _ & H)]).
  - destruct (keys_initiate_grow cur d). split; [done|]. by exists cur.
  - apply newSubSlice_inv in H as (l & sub1 & arr1 & sub2 & _ & _ & _ & Happ).
    unfold SlicerSoliton.appendNewSubSlice in Happ. bind_inv Happ as l' Hl'.
    injection Happ as <-. rewrite dict_replace_keys.
    destruct (keys_initiate_grow cur d). split; [done|]. by exists cur.
Qed.

Lemma sliceRunner_loop_keys (xs : list nat) :
  forall (arr arr' : nodes) (d d' : SlicerSoliton.subSlices),
    for_ SlicerSoliton.sliceRunner_step xs (arr, d) = Return (arr', d') ->
    d.*1 ⊆ d'.*1
    /\ forall x, x ∈ xs ->
         exists node, arr' !! x = Some node /\ Node.sliceName node ∈ d'.*1.
Proof.
  induction xs as [|x xs IH]; intros arr arr' d d' H; cbn [for_] in H.
  - injection H as <- <-. split; [done|]. intros x Hx. by apply elem_of_nil in Hx.
  - bind_inv H as [arr1 d1] Hstep.
    pose proof (sliceRunner_loop_kept _ _ _ _ _ H) as [(_ & _ & Hs & _) _].
    assert (for_ SlicerSoliton.sliceRunner_step [x] (arr, d) = Return (arr1, d1)) as H1
      by (cbn [for_]; by rewrite Hstep).
    apply sliceRunner_loop_kept in H1 as [(_ & _ & Hs1 & _) _].
    apply sliceRunner_step_keys in Hstep as (Hsub1 & node & Hnode & Hkey).
    destruct (IH _ _ _ _ H) as [Hsub Hrest].
    split; [intros k Hk; by apply Hsub, Hsub1|].
    intros y Hy. apply elem_of_cons in Hy as [->|Hy]; [|by apply Hrest].
    pose proof (fmap_eq_lookup _ _ _ x Hs) as E.
    pose proof (fmap_eq_lookup _ _ _ x Hs1) as E1.
    rewrite E1, Hnode in E. destruct (arr' !! x) as [node'|]; [|done].
    injection E as E. exists node'. split; [done|]. rewrite E. by apply Hsub.
Qed.

(** What the script leaves when it returns: a node for every vertex, with
    the height and the neighbours the mesh gives it; every node carries a
    band name, the name base followed by a band index, and the dictionary
    has a key for it; and the visited nodes are those with a sub-slice
    name. *)
Theorem script_output (vs : list BpyVertex) (es : list BpyEdge) (npNormal : vec3)
    (base : string) (self : SlicerSoliton.t) :
  SlicerSoliton.run vs es npNormal base = Return self ->
  length (SlicerSoliton.nodesArr self) = length vs
  /\ forall j node,
       SlicerSoliton.nodesArr self !! j = Some node ->
       exists vertex k,
         vs !! j = Some vertex
         /\ Node.rotatedZ node = dot (co vertex) npNormal
         /\ Node.neighboursIndices node = adjacency es j
         /\ Node.sliceName node = SlicerSoliton.sliceNameOf base k
         /\ Node.sliceName node ∈ (SlicerSoliton.subSlicesDict self).*1
         /\ (Node.visited node = true <-> Node.sliceSubSetName node <> "").
Proof.
  unfold SlicerSoliton.run. intros H.
  bind_inv H as self0 Hinit. cbv zeta in H. bind_inv H as self1 Hslicer.
  pose proof (init_spec _ _ _ _ Hinit) as (Hlen0 & _ & Hperm & _ & Hfresh & _).
  pose proof (slicer_keeps _ _ Hslicer)
    as ((Hlen1 & Hz1 & Hl1 & Hn1 & Hv1) & Hsorted & _).
  pose proof (slicer_names (SlicerSoliton.setSliceNameBase base self0) self1 base
                eq_refl Hslicer) as Hnames.
  cbn [SlicerSoliton.nodesArr SlicerSoliton.sortedNodesIndices
       SlicerSoliton.setSliceNameBase] in *.
  unfold SlicerSoliton.sliceRunner in H. bind_inv H as [arr2 d2] Hloop.
  injection H as <-. cbn [SlicerSoliton.nodesArr SlicerSoliton.subSlicesDict
    SlicerSoliton.with_nodes].
  pose proof (sliceRunner_loop_kept _ _ _ _ _ Hloop)
    as [(Hlen2 & Hz2 & Hs2 & Hn2 & _) Hiff].
  pose proof (sliceRunner_loop_keys _ _ _ _ _ Hloop) as [_ Hkeys].
  split; [congruence|]. intros j node Hj.
  assert (j ∈ SlicerSoliton.sortedNodesIndices self1) as Hin.
  { rewrite Hsorted, Hperm. apply elem_of_seq.
    apply lookup_lt_Some in Hj. lia. }
  destruct (Hkeys j Hin) as (node' & Hj' & Hkey). rewrite Hj in Hj'. injection Hj' as <-.
  destruct (Hnames j) as (node1 & k & Hj1 & Hname1); [by rewrite <- Hsorted|].
  destruct (SlicerSoliton.nodesArr self0 !! j) as [node0|] eqn:Hj0.
  2: { apply lookup_ge_None in Hj0. apply lookup_lt_Some in Hj1. lia. }
  destruct (init_node_at _ _ _ _ _ _ Hinit Hj0) as (vertex & Hv & _ & Hz0 & Hn0).
  exists vertex, k. split; [done|].
  pose proof (fmap_eq_lookup _ _ _ j Hz2) as Ez2.
  pose proof (fmap_eq_lookup _ _ _ j Hz1) as Ez1.
  pose proof (fmap_eq_lookup _ _ _ j Hn2) as En2.
  pose proof (fmap_eq_lookup _ _ _ j Hn1) as En1.
  pose proof (fmap_eq_lookup _ _ _ j Hs2) as Es2.
  rewrite Hj, Hj1 in Ez2, En2, Es2. rewrite Hj1, Hj0 in Ez1, En1.
  cbn in Ez2, En2, Es2, Ez1, En1.
  injection Ez2 as Ez2. injection En2 as En2. injection Es2 as Es2.
  injection Ez1 as Ez1. injection En1 as En1.
  split; [congruence|]. split; [congruence|]. split; [congruence|]. split; [done|].
  assert (named_iff_visited arr2) as Hfinal.
  { apply Hiff. intros i. unfold visited_at, subSetName_at.
    pose proof (fmap_eq_lookup _ _ _ i Hl1) as El.
    pose proof (fmap_eq_lookup _ _ _ i Hv1) as Ev.
    destruct (SlicerSoliton.nodesArr self1 !! i) as [n1|] eqn:Hi1; [|done].
    destruct (SlicerSoliton.nodesArr self0 !! i) as [n0|] eqn:Hi0; [|done].
    cbn in El, Ev. injection El as El. injection Ev as Ev.
    rewrite Forall_lookup in Hfresh. destruct (Hfresh i n0 Hi0) as (_ & Hl0 & Hv0).
    rewrite El, Ev, Hl0, Hv0. done. }
  specialize (Hfinal j). unfold visited_at, subSetName_at in Hfinal.
  by rewrite Hj in Hfinal.
Qed.

Lemma script_output_witness :
  exists self,
    SlicerSoliton.run Examples.lineVertices Examples.lineEdges Examples.up "slice"
    = Return self
    /\ length (SlicerSoliton.nodesArr self) = length Examples.lineVertices
    /\ forall j node,
         SlicerSoliton.nodesArr self !! j = Some node ->
         exists vertex k,
           Examples.lineVertices !! j = Some vertex
           /\ Node.rotatedZ node = dot (co vertex) Examples.up
           /\ Node.neighboursIndices node = adjacency Examples.lineEdges j
           /\ Node.sliceName node = SlicerSoliton.sliceNameOf "slice" k
           /\ Node.sliceName node ∈ (SlicerSoliton.subSlicesDict self).*1
           /\ (Node.visited node = true <-> Node.sliceSubSetName node <> "").
Proof.
  eexists.
  lazymatch goal with
  | |- ?B /\ _ => assert B as Hrun by (vm_compute; reflexivity); split; [exact Hrun|]
  end.
  exact (script_output _ _ _ _ _ Hrun).
Defined.
